(** * efrate: rate limiter, response cache and request batcher

    A shallow embedding of the runtime core of the efrate client
    (token bucket, rate limiter, similarity scoring, response cache,
    request batcher, and the completion path of the client that ties
    them together) together with the properties its specification
    states about them and further properties read off the code.

    Conventions used throughout:
    - a JavaScript [number] holding a quantity (tokens, rates, scores,
      thresholds) is an exact rational [Q]; IEEE-754 rounding, NaN and
      the infinities are outside that model, and what is stated over
      it does not turn on them; where rounding decides, the token
      bucket is embedded once more on IEEE doubles
      ([TokenBucketDouble]);
    - [Date.now()] is an integer number of milliseconds, a [Z]; every
      operation receives the clock reading as an explicit argument, and
      one synchronous call reads one clock value;
    - strings are sequences of 8-bit characters, read as ASCII;
    - a JavaScript [Map] is an association list in insertion order with
      unique keys. *)

From Stdlib Require Import ZArith QArith Qround Qminmax.
From Stdlib Require Import List Bool Arith Lia Lqa Permutation.
From Stdlib Require Import Ascii String.
From Stdlib Require Import Floats.
Import ListNotations.

Set Implicit Arguments.

(* ===================================================================== *)
(** * utils/similarity.ts                                                *)
(* ===================================================================== *)

Module Similarity.

Local Open Scope nat_scope.

(** [Math.min] of the three candidates of one matrix cell. *)
Definition min3 (x y z : nat) : nat := Nat.min x (Nat.min y z).

(** Row 0 of the matrix: [matrix[0][j] = j] for [j = 0 .. a.length]. *)
Definition first_row (a : list ascii) : list nat := seq 0 (S (List.length a)).

(** The inner loop [for j = 1 .. a.length] on row [i].  [prev] is the
    part of row [i-1] from column [j-1] on, [left] is [matrix[i][j-1]],
    [bi] is [b[i-1]]; the result is row [i] from column [j] on. *)
Fixpoint fill_row (a : list ascii) (bi : ascii) (prev : list nat) (left : nat)
  : list nat :=
  match a, prev with
  | aj :: a', diag :: ((up :: _) as prev') =>
      let cost := if Ascii.eqb aj bi then 0 else 1 in
      let cell := min3 (up + 1) (left + 1) (diag + cost) in
      cell :: fill_row a' bi prev' cell
  | _, _ => []
  end.

(** Row [i]: it starts as [[i]] and the inner loop appends the rest. *)
Definition next_row (a : list ascii) (i : nat) (bi : ascii) (prev : list nat)
  : list nat :=
  i :: fill_row a bi prev i.

(** The outer loop [for i = 1 .. b.length]; [rows] holds the rows built
    so far, newest first, and [i] is the index of the row to build. *)
Fixpoint fill_matrix (a b : list ascii) (i : nat) (prev : list nat)
    (rows : list (list nat)) : list (list nat) :=
  match b with
  | [] => prev :: rows
  | bi :: b' =>
      fill_matrix a b' (S i) (next_row a i bi prev) (prev :: rows)
  end.

(** The whole matrix, rows in index order. *)
Definition matrix (a b : list ascii) : list (list nat) :=
  rev (fill_matrix a b 1 (first_row a) []).

(** Every cell [(i, k + j)] of the part [row] of row [i] that starts at
    column [k] is at most the larger of its two indices. *)
Definition cells_bounded (i k : nat) (row : list nat) : Prop :=
  forall j v, nth_error row j = Some v -> v <= Nat.max i (k + j).

(** [levenshteinDistance(a, b)]: [matrix[b.length][a.length]]. *)
Definition levenshteinDistance (a b : string) : nat :=
  let la := list_ascii_of_string a in
  let lb := list_ascii_of_string b in
  nth (List.length la) (nth (List.length lb) (matrix la lb) []) 0.

(** A string is falsy exactly when it is empty. *)
Definition falsy (s : string) : bool :=
  match s with EmptyString => true | String _ _ => false end.

Definition Qnat (n : nat) : Q := inject_Z (Z.of_nat n).

(** [calculateSimilarity(a, b)]. *)
Definition calculateSimilarity (a b : string) : Q :=
  if String.eqb a b then 1
  else if falsy a || falsy b then 0
  else
    let distance := levenshteinDistance a b in
    let maxLength := Nat.max (String.length a) (String.length b) in
    if Nat.eqb maxLength 0 then 1
    else (1 - Qnat distance / Qnat maxLength)%Q.

(** The piecewise definition of the specification, in its own words. *)
Definition similarity_spec (a b : string) : Q :=
  if string_dec a b then 1
  else if (string_dec a EmptyString) then 0
  else if (string_dec b EmptyString) then 0
  else (1 - Qnat (levenshteinDistance a b)
            / Qnat (Nat.max (String.length a) (String.length b)))%Q.

(** ** Prompt normalisation *)

(** White space of [String.prototype.trim] and of the [\s] class, on
    ASCII: tab, line feed, vertical tab, form feed, carriage return,
    space. *)
Definition is_space (c : ascii) : bool :=
  let n := nat_of_ascii c in
  ((9 <=? n) && (n <=? 13)) || (n =? 32).

(** [toLowerCase] on one ASCII character. *)
Definition lower (c : ascii) : ascii :=
  let n := nat_of_ascii c in
  if (65 <=? n) && (n <=? 90) then ascii_of_nat (n + 32) else c.

Fixpoint drop_spaces (l : list ascii) : list ascii :=
  match l with
  | c :: l' => if is_space c then drop_spaces l' else l
  | [] => []
  end.

(** [s.trim()]. *)
Definition trim (l : list ascii) : list ascii :=
  rev (drop_spaces (rev (drop_spaces l))).

(** [s.toLowerCase()]. *)
Definition toLowerCase (l : list ascii) : list ascii := map lower l.

(** [s.replace(/\s+/g, ' ')]: every maximal run of white space becomes
    one space.  [in_run] tells that the previous character was white
    space, so that the run has already produced its space. *)
Fixpoint collapse_from (in_run : bool) (l : list ascii) : list ascii :=
  match l with
  | [] => []
  | c :: l' =>
      if is_space c
      then (if in_run then collapse_from true l'
            else " "%char :: collapse_from true l')
      else c :: collapse_from false l'
  end.

Definition collapse (l : list ascii) : list ascii := collapse_from false l.

Definition normalize_chars (l : list ascii) : list ascii :=
  collapse (toLowerCase (trim l)).

(** [normalizePrompt(prompt)]. *)
Definition normalizePrompt (prompt : string) : string :=
  string_of_list_ascii (normalize_chars (list_ascii_of_string prompt)).

End Similarity.

(* ===================================================================== *)
(** * utils/token-bucket.ts                                              *)
(* ===================================================================== *)

(** [Math.min(a, b)] and [Math.max(a, b)] on numbers. *)
Definition Math_min (a b : Q) : Q := if Qle_bool a b then a else b.
Definition Math_max (a b : Q) : Q := if Qle_bool a b then b else a.

(** The comparisons [a >= b], [a < b] and [a > b] on numbers. *)
Definition num_ge (a b : Q) : bool := Qle_bool b a.
Definition num_lt (a b : Q) : bool := negb (Qle_bool b a).
Definition num_gt (a b : Q) : bool := negb (Qle_bool a b).

(** [Math.ceil(x)]. *)
Definition Math_ceil (x : Q) : Q := inject_Z (Qceiling x).

Module TokenBucket.

Local Open Scope Q_scope.

(** The private fields of the class. *)
Record t : Type := mk {
  tokens : Q;
  maxTokens : Q;
  refillRate : Q;      (* tokens per ms *)
  lastRefill : Z
}.

(** [new TokenBucket(maxTokens, refillTimeMs)], built at time [now].
    The contract asks for a positive capacity and a positive refill
    time; with them the rate is a positive rational. *)
Definition constructor (maxTokens refillTimeMs : Q) (now : Z) : t :=
  {| tokens := maxTokens;
     maxTokens := maxTokens;
     refillRate := maxTokens / refillTimeMs;
     lastRefill := now |}.

(** [refill()]. *)
Definition refill (now : Z) (b : t) : t :=
  let elapsedMs := (now - lastRefill b)%Z in
  if (0 <? elapsedMs)%Z then
    let newTokens := inject_Z elapsedMs * refillRate b in
    {| tokens := Math_min (maxTokens b) (tokens b + newTokens);
       maxTokens := maxTokens b;
       refillRate := refillRate b;
       lastRefill := now |}
  else b.

(** [takeTokens(count)]: the returned flag and the bucket afterwards. *)
Definition takeTokens (count : Q) (now : Z) (b : t) : bool * t :=
  let b1 := refill now b in
  if num_ge (tokens b1) count then
    (true, {| tokens := tokens b1 - count;
              maxTokens := maxTokens b1;
              refillRate := refillRate b1;
              lastRefill := lastRefill b1 |})
  else (false, b1).

(** [getTokens()]. *)
Definition getTokens (now : Z) (b : t) : Q * t :=
  let b1 := refill now b in (tokens b1, b1).

(** [getWaitTimeMs(count)]. *)
Definition getWaitTimeMs (count : Q) (now : Z) (b : t) : Q * t :=
  let b1 := refill now b in
  let additionalTokensNeeded := Math_max 0 (count - tokens b1) in
  if Qeq_bool additionalTokensNeeded 0 then (0, b1)
  else (Math_ceil (additionalTokensNeeded / refillRate b1), b1).

(** One call on a bucket, with the clock reading it sees. *)
Inductive op : Type :=
| TakeTokens (count : Q) (now : Z)
| GetTokens (now : Z)
| GetWaitTimeMs (count : Q) (now : Z).

Definition apply_op (o : op) (b : t) : t :=
  match o with
  | TakeTokens count now => snd (takeTokens count now b)
  | GetTokens now => snd (getTokens now b)
  | GetWaitTimeMs count now => snd (getWaitTimeMs count now b)
  end.

(** The bucket after a sequence of calls, oldest first. *)
Definition run (ops : list op) (b : t) : t :=
  fold_left (fun b o => apply_op o b) ops b.


(** The state of a bucket of the given capacity and refill window is
    well formed: the level lies between 0 and the capacity, and the
    configuration is the one it was built with. *)
Definition bucket_ok (capacity window : Q) (b : t) : Prop :=
  0 <= tokens b /\ tokens b <= capacity /\
  maxTokens b = capacity /\ refillRate b = capacity / window.

End TokenBucket.

(* ===================================================================== *)
(** * rate-limiter.ts                                                    *)
(* ===================================================================== *)

(** [x || d] for an optional numeric option: an absent option and the
    falsy number 0 both give the default. *)
Definition or_default (x : option Q) (d : Q) : Q :=
  match x with
  | Some v => if Qeq_bool v 0 then d else v
  | None => d
  end.

(** [x !== undefined ? x : d] for an optional flag. *)
Definition defined_or (x : option bool) (d : bool) : bool :=
  match x with Some v => v | None => d end.

Module RateLimiter.

Local Open Scope Q_scope.

Record RateLimiterOptions : Type := {
  tokensPerInterval : Q;
  intervalInMs : Q;
  opt_maxWaitTimeMs : option Q;
  opt_autoWait : option bool
}.

Record t : Type := mk {
  bucket : TokenBucket.t;
  maxWaitTimeMs : Q;
  autoWait : bool
}.

Definition constructor (options : RateLimiterOptions) (now : Z) : t :=
  {| bucket := TokenBucket.constructor (tokensPerInterval options)
                                       (intervalInMs options) now;
     maxWaitTimeMs := or_default (opt_maxWaitTimeMs options) 60000;
     autoWait := defined_or (opt_autoWait options) true |}.

Definition with_bucket (rl : t) (b : TokenBucket.t) : t :=
  {| bucket := b; maxWaitTimeMs := maxWaitTimeMs rl; autoWait := autoWait rl |}.

(** What one call of [acquireToken] does to the outside, in order. *)
Inductive action : Type :=
| CallTakeTokens (weight : Q)
| CallGetWaitTimeMs (weight : Q)
| Sleep (ms : Q).

(** What surrounds one call of [acquireToken]: the clock readings of its
    three possible bucket calls, and what the other users of the limiter
    do to the bucket while the call is suspended in its [await]. *)
Record environment : Type := {
  t_first : Z;
  t_wait : Z;
  t_retry : Z;
  interference : TokenBucket.t -> TokenBucket.t
}.

(** [acquireToken(weight)]: the value the promise resolves to, the
    limiter afterwards, and the actions performed. *)
Definition acquireToken (weight : Q) (e : environment) (rl : t)
  : bool * t * list action :=
  let (ok, b1) := TokenBucket.takeTokens weight (t_first e) (bucket rl) in
  if ok then (true, with_bucket rl b1, [CallTakeTokens weight])
  else if negb (autoWait rl) then
    (false, with_bucket rl b1, [CallTakeTokens weight])
  else
    let (waitTime, b2) := TokenBucket.getWaitTimeMs weight (t_wait e) b1 in
    if num_gt waitTime (maxWaitTimeMs rl) then
      (false, with_bucket rl b2,
       [CallTakeTokens weight; CallGetWaitTimeMs weight])
    else
      let b3 := interference e b2 in
      let (ok', b4) := TokenBucket.takeTokens weight (t_retry e) b3 in
      (ok', with_bucket rl b4,
       [CallTakeTokens weight; CallGetWaitTimeMs weight; Sleep waitTime;
        CallTakeTokens weight]).

(** [getWaitTimeMs(weight)]. *)
Definition getWaitTimeMs (weight : Q) (now : Z) (rl : t) : Q * t :=
  let (w, b) := TokenBucket.getWaitTimeMs weight now (bucket rl) in
  (w, with_bucket rl b).

(** The pieces of one call that the specification talks about. *)
Definition first_attempt (weight : Q) (e : environment) (rl : t) : bool :=
  fst (TokenBucket.takeTokens weight (t_first e) (bucket rl)).

Definition computed_wait (weight : Q) (e : environment) (rl : t) : Q :=
  fst (TokenBucket.getWaitTimeMs weight (t_wait e)
         (snd (TokenBucket.takeTokens weight (t_first e) (bucket rl)))).

Definition retry_attempt (weight : Q) (e : environment) (rl : t) : bool :=
  fst (TokenBucket.takeTokens weight (t_retry e)
         (interference e
            (snd (TokenBucket.getWaitTimeMs weight (t_wait e)
               (snd (TokenBucket.takeTokens weight (t_first e) (bucket rl))))))).

Definition is_take (a : action) : bool :=
  match a with CallTakeTokens _ => true | _ => false end.

(** The answer of one call and the actions it performed. *)
Definition granted (weight : Q) (e : environment) (rl : t) : bool :=
  fst (fst (acquireToken weight e rl)).

Definition actions (weight : Q) (e : environment) (rl : t) : list action :=
  snd (acquireToken weight e rl).

End RateLimiter.

(* ===================================================================== *)
(** * cache.ts                                                           *)
(* ===================================================================== *)

Module AICache.

Import Similarity.
Local Open Scope Q_scope.

Section WithResponse.

(** The type [T] of cached responses. *)
Variable T : Type.

Record CacheEntry : Type := {
  response : T;
  timestamp : Z;
  prompt : string
}.

Record CacheOptions : Type := {
  opt_maxSize : option Q;
  opt_ttlMs : option Q;
  opt_similarityThreshold : option Q;
  opt_enableFuzzyMatching : option bool
}.

(** The options object [{}] of the default argument. *)
Definition no_options : CacheOptions :=
  {| opt_maxSize := None; opt_ttlMs := None;
     opt_similarityThreshold := None; opt_enableFuzzyMatching := None |}.

(** The [Map<string, CacheEntry<T>>]: entries in insertion order. *)
Definition entries : Type := list (string * CacheEntry).

Record t : Type := mk {
  cache : entries;
  maxSize : Q;
  ttlMs : Q;
  similarityThreshold : Q;
  enableFuzzyMatching : bool
}.

(** [new AICache(options)]. *)
Definition constructor (options : CacheOptions) : t :=
  {| cache := [];
     maxSize := or_default (opt_maxSize options) 1000;
     ttlMs := or_default (opt_ttlMs options) 3600000;
     similarityThreshold := or_default (opt_similarityThreshold options) (95 # 100);
     enableFuzzyMatching := defined_or (opt_enableFuzzyMatching options) true |}.

(** ** The operations of [Map] *)

Fixpoint map_get (k : string) (m : entries) : option CacheEntry :=
  match m with
  | [] => None
  | (k', e) :: m' => if String.eqb k k' then Some e else map_get k m'
  end.

Definition map_has (k : string) (m : entries) : bool :=
  match map_get k m with Some _ => true | None => false end.

(** [m.set(k, e)]: an existing key keeps its place, a new key goes last. *)
Fixpoint map_set (k : string) (e : CacheEntry) (m : entries) : entries :=
  match m with
  | [] => [(k, e)]
  | (k', e') :: m' =>
      if String.eqb k k' then (k, e) :: m' else (k', e') :: map_set k e m'
  end.

Fixpoint map_delete (k : string) (m : entries) : entries :=
  match m with
  | [] => []
  | (k', e') :: m' =>
      if String.eqb k k' then m' else (k', e') :: map_delete k m'
  end.

Definition map_size (m : entries) : Q := Qnat (List.length m).

Definition with_cache (c : t) (m : entries) : t :=
  {| cache := m; maxSize := maxSize c; ttlMs := ttlMs c;
     similarityThreshold := similarityThreshold c;
     enableFuzzyMatching := enableFuzzyMatching c |}.

(** [Date.now() - entry.timestamp < this.ttlMs]. *)
Definition fresh (now : Z) (ttl : Q) (e : CacheEntry) : bool :=
  num_lt (inject_Z (now - timestamp e)) ttl.

(** The loop of the similar-match check over the entries in iteration
    order: an expired entry met on the way is deleted, the first live
    entry whose score reaches the threshold ends the loop.  The result
    is the value returned, if any, and the entries that remain. *)
Fixpoint fuzzy_scan (normalizedPrompt : string) (now : Z) (ttl threshold : Q)
    (m : entries) : option T * entries :=
  match m with
  | [] => (None, [])
  | (key, entry) :: m' =>
      if negb (fresh now ttl entry) then
        fuzzy_scan normalizedPrompt now ttl threshold m'
      else if num_ge (calculateSimilarity normalizedPrompt key) threshold then
        (Some (response entry), m)
      else
        let (r, rest) := fuzzy_scan normalizedPrompt now ttl threshold m' in
        (r, (key, entry) :: rest)
  end.

(** [get(prompt)]; [None] is the [null] of a miss. *)
Definition get (prompt : string) (now : Z) (c : t) : option T * t :=
  let normalizedPrompt := normalizePrompt prompt in
  let exact :=
    match map_get normalizedPrompt (cache c) with
    | Some entry =>
        if fresh now (ttlMs c) entry then (Some (response entry), cache c)
        else (None, map_delete normalizedPrompt (cache c))
    | None => (None, cache c)
    end in
  match exact with
  | (Some r, m) => (Some r, with_cache c m)
  | (None, m) =>
      if enableFuzzyMatching c && num_lt (similarityThreshold c) 1 then
        let (r, m') :=
          fuzzy_scan normalizedPrompt now (ttlMs c) (similarityThreshold c) m in
        (r, with_cache c m')
      else (None, with_cache c m)
  end.

(** The loop that finds the oldest entry.  The accumulator is
    [(oldestKey, oldestTime)]; [oldestTime = None] is [Infinity], below
    which every timestamp lies. *)
Fixpoint find_oldest (m : entries) (acc : option string * option Z)
  : option string * option Z :=
  match m with
  | [] => acc
  | (key, entry) :: m' =>
      let smaller :=
        match snd acc with
        | None => true
        | Some oldestTime => (timestamp entry <? oldestTime)%Z
        end in
      find_oldest m' (if smaller then (Some key, Some (timestamp entry)) else acc)
  end.

(** The truthiness of [oldestKey : string | null]. *)
Definition truthy_key (k : option string) : bool :=
  match k with
  | Some s => negb (falsy s)
  | None => false
  end.

(** [set(prompt, response)]. *)
Definition set (prompt : string) (r : T) (now : Z) (c : t) : t :=
  let normalizedPrompt := normalizePrompt prompt in
  let m :=
    if num_ge (map_size (cache c)) (maxSize c)
       && negb (map_has normalizedPrompt (cache c))
    then
      let oldestKey := fst (find_oldest (cache c) (None, None)) in
      if truthy_key oldestKey then
        match oldestKey with
        | Some k => map_delete k (cache c)
        | None => cache c
        end
      else cache c
    else cache c in
  with_cache c
    (map_set normalizedPrompt
       {| response := r; timestamp := now; prompt := normalizedPrompt |} m).

(** [clear()]. *)
Definition clear (c : t) : t := with_cache c [].

(** [purgeExpired()]: the count of removed entries and the cache. *)
Definition purgeExpired (now : Z) (c : t) : nat * t :=
  let live := filter (fun ke => fresh now (ttlMs c) (snd ke)) (cache c) in
  (List.length (cache c) - List.length live, with_cache c live)%nat.

(** [size]. *)
Definition size (c : t) : nat := List.length (cache c).

End WithResponse.

End AICache.

(* ===================================================================== *)
(** * batcher.ts                                                         *)
(* ===================================================================== *)

Module RequestBatcher.

Local Open Scope nat_scope.

Section WithTypes.

(** [T] is the type of results, [O] the type of the per-request options,
    [X] the type of the values with which [processBatchFn] may reject. *)
Variables T O X : Type.

(** A queued request.  The identifier [req_<n>] is kept as the number
    [n]; the [resolve] and [reject] functions of the request are those
    of the one promise that [addRequest] created together with it, so
    the number also names that promise. *)
Record QueuedRequest : Type := {
  id : nat;
  prompt : string;
  options : O;
  timestamp : Z
}.

Record BatcherOptions : Type := {
  opt_maxBatchSize : option Z;
  opt_maxDelayMs : option Q;
  opt_maxTokensPerBatch : option Q
}.

(** The private fields of the class. *)
Record t : Type := mk {
  queue : list QueuedRequest;
  maxBatchSize : Z;
  maxDelayMs : Q;
  maxTokensPerBatch : Q;
  batchTimer : option nat;
  isProcessing : bool;
  idCounter : nat
}.

(** The value a promise is rejected with: what [processBatchFn] threw,
    or the [Error] that [clearQueue] built from its reason. *)
Inductive rejection : Type :=
| BatchError (error : X)
| QueueCleared (reason : string).

(** One call of a request's [resolve] or [reject].  [results[index]]
    is [None] when the index is past the end of [results]. *)
Inductive settlement : Type :=
| Resolve (value : option T)
| Reject (why : rejection).

(** The batcher in its surroundings: the timers armed with
    [setTimeout] and not yet fired or cleared (every one of them calls
    [processBatch]), the activations of [processBatch] suspended in
    their [await] (each with the number of its call of [processBatchFn]
    and its batch), and three logs, oldest first: the batches whose
    prompts and options were handed to [processBatchFn], the calls of
    [resolve] and [reject], and the requests ever enqueued. *)
Record world : Type := mkWorld {
  self : t;
  timers : list nat;
  nextTimer : nat;
  awaiting : list (nat * list QueuedRequest);
  calls : list (list QueuedRequest);
  settlements : list (nat * settlement);
  requests : list QueuedRequest
}.

(** The injected [processBatchFn]: how its [n]-th call (counting from
    0) on the given prompts and options settles, with the results or
    with an error. *)
Variable processBatchFn : nat -> list string -> list O -> list T + X.

Definition or_default_Z (x : option Z) (d : Z) : Z :=
  match x with
  | Some v => if (v =? 0)%Z then d else v
  | None => d
  end.

(** [new RequestBatcher(options)]. *)
Definition constructor (options : BatcherOptions) : t :=
  {| queue := [];
     maxBatchSize := or_default_Z (opt_maxBatchSize options) 20%Z;
     maxDelayMs := or_default (opt_maxDelayMs options) 100%Q;
     maxTokensPerBatch := or_default (opt_maxTokensPerBatch options) 4096%Q;
     batchTimer := None;
     isProcessing := false;
     idCounter := 0 |}.

Definition init (options : BatcherOptions) : world :=
  {| self := constructor options; timers := []; nextTimer := 0;
     awaiting := []; calls := []; settlements := []; requests := [] |}.

Definition with_self (w : world) (b : t) : world :=
  {| self := b; timers := timers w; nextTimer := nextTimer w;
     awaiting := awaiting w; calls := calls w;
     settlements := settlements w; requests := requests w |}.

(** [setTimeout(() => this.processBatch(), _)]: a fresh handle. *)
Definition setTimeout (w : world) : nat * world :=
  (nextTimer w,
   {| self := self w; timers := timers w ++ [nextTimer w];
      nextTimer := S (nextTimer w); awaiting := awaiting w;
      calls := calls w; settlements := settlements w;
      requests := requests w |}).

(** [clearTimeout(handle)]; clearing [null] does nothing. *)
Definition clearTimeout (handle : option nat) (w : world) : world :=
  match handle with
  | None => w
  | Some h =>
      {| self := self w;
         timers := filter (fun h' => negb (Nat.eqb h h')) (timers w);
         nextTimer := nextTimer w; awaiting := awaiting w;
         calls := calls w; settlements := settlements w;
         requests := requests w |}
  end.

Definition set_batchTimer (h : option nat) (b : t) : t :=
  {| queue := queue b; maxBatchSize := maxBatchSize b;
     maxDelayMs := maxDelayMs b; maxTokensPerBatch := maxTokensPerBatch b;
     batchTimer := h; isProcessing := isProcessing b;
     idCounter := idCounter b |}.

(** [this.queue.splice(0, this.maxBatchSize)]: a negative count removes
    nothing, a count past the end removes everything. *)
Definition splice_count (b : t) : nat := Z.to_nat (maxBatchSize b).

(** The body of [processBatch()] past its guard and up to its [await]:
    the removal of the batch from the queue and the call of
    [processBatchFn]. *)
Definition dispatch (w : world) : world :=
  let b := self w in
  let batch := firstn (splice_count b) (queue b) in
  {| self := {| queue := skipn (splice_count b) (queue b);
                maxBatchSize := maxBatchSize b;
                maxDelayMs := maxDelayMs b;
                maxTokensPerBatch := maxTokensPerBatch b;
                batchTimer := None;
                isProcessing := true;
                idCounter := idCounter b |};
     timers := timers w;
     nextTimer := nextTimer w;
     awaiting := awaiting w ++ [(List.length (calls w), batch)];
     calls := calls w ++ [batch];
     settlements := settlements w;
     requests := requests w |}.

(** [processBatch()] up to its [await]. *)
Definition processBatch (w : world) : world :=
  if isProcessing (self w) || Nat.eqb (List.length (queue (self w))) 0 then w
  else dispatch w.

(** [batch.forEach((item, index) => item.resolve(results[index]))]. *)
Fixpoint resolve_each (results : list T) (index : nat)
    (batch : list QueuedRequest) : list (nat * settlement) :=
  match batch with
  | [] => []
  | item :: rest =>
      (id item, Resolve (nth_error results index))
        :: resolve_each results (S index) rest
  end.

(** [batch.forEach(item => item.reject(error))]. *)
Definition reject_each (why : rejection) (batch : list QueuedRequest)
  : list (nat * settlement) :=
  map (fun item => (id item, Reject why)) batch.

(** What the [try]/[catch] of [processBatch] does with the batch once
    the [n]-th call of [processBatchFn] has settled. *)
Definition settle_batch (n : nat) (batch : list QueuedRequest)
  : list (nat * settlement) :=
  match processBatchFn n (map prompt batch) (map options batch) with
  | inl results => resolve_each results 0 batch
  | inr error => reject_each (BatchError error) batch
  end.

Fixpoint remove_nth {A : Type} (k : nat) (l : list A) : list A :=
  match k, l with
  | _, [] => []
  | 0, _ :: l' => l'
  | S k', x :: l' => x :: remove_nth k' l'
  end.

(** The rest of [processBatch], run when the awaited promise of the
    [k]-th suspended activation settles: the [try] or the [catch], then
    the [finally]. *)
Definition resume (k : nat) (w : world) : world :=
  match nth_error (awaiting w) k with
  | None => w
  | Some (n, batch) =>
      let b := self w in
      let w1 :=
        {| self := {| queue := queue b; maxBatchSize := maxBatchSize b;
                      maxDelayMs := maxDelayMs b;
                      maxTokensPerBatch := maxTokensPerBatch b;
                      batchTimer := batchTimer b;
                      isProcessing := false;
                      idCounter := idCounter b |};
           timers := timers w;
           nextTimer := nextTimer w;
           awaiting := remove_nth k (awaiting w);
           calls := calls w;
           settlements := settlements w ++ settle_batch n batch;
           requests := requests w |} in
      if Nat.ltb 0 (List.length (queue b)) then
        let (h, w2) := setTimeout w1 in
        with_self w2 (set_batchTimer (Some h) (self w2))
      else w1
  end.

(** [addRequest(prompt, options)] at clock reading [now]. *)
Definition addRequest (p : string) (o : O) (now : Z) (w : world) : world :=
  let b := self w in
  let request :=
    {| id := S (idCounter b); prompt := p; options := o; timestamp := now |} in
  let w1 :=
    {| self := {| queue := queue b ++ [request];
                  maxBatchSize := maxBatchSize b;
                  maxDelayMs := maxDelayMs b;
                  maxTokensPerBatch := maxTokensPerBatch b;
                  batchTimer := batchTimer b;
                  isProcessing := isProcessing b;
                  idCounter := S (idCounter b) |};
       timers := timers w; nextTimer := nextTimer w;
       awaiting := awaiting w; calls := calls w;
       settlements := settlements w;
       requests := requests w ++ [request] |} in
  let w2 :=
    match batchTimer (self w1), isProcessing (self w1) with
    | None, false =>
        let (h, w') := setTimeout w1 in
        with_self w' (set_batchTimer (Some h) (self w'))
    | _, _ => w1
    end in
  if (maxBatchSize (self w2) <=? Z.of_nat (List.length (queue (self w2))))%Z
     && negb (isProcessing (self w2))
  then
    let w3 := clearTimeout (batchTimer (self w2)) w2 in
    processBatch (with_self w3 (set_batchTimer None (self w3)))
  else w2.

(** A timer fires: it leaves the pending timers and runs its callback. *)
Definition fire (h : nat) (w : world) : world :=
  if existsb (Nat.eqb h) (timers w) then
    processBatch (clearTimeout (Some h) w)
  else w.

(** [clearQueue(reason)]. *)
Definition clearQueue (reason : string) (w : world) : world :=
  let b := self w in
  let w1 :=
    {| self := {| queue := [];
                  maxBatchSize := maxBatchSize b;
                  maxDelayMs := maxDelayMs b;
                  maxTokensPerBatch := maxTokensPerBatch b;
                  batchTimer := batchTimer b;
                  isProcessing := isProcessing b;
                  idCounter := idCounter b |};
       timers := timers w; nextTimer := nextTimer w;
       awaiting := awaiting w; calls := calls w;
       settlements :=
         settlements w ++ reject_each (QueueCleared reason) (queue b);
       requests := requests w |} in
  match batchTimer (self w1) with
  | Some h =>
      let w2 := clearTimeout (Some h) w1 in
      with_self w2 (set_batchTimer None (self w2))
  | None => w1
  end.

(** [queueSize]. *)
Definition queueSize (w : world) : nat := List.length (queue (self w)).

(** What can happen to a batcher, in any order. *)
Inductive event : Type :=
| AddRequest (p : string) (o : O) (now : Z)
| TimerFires (h : nat)
| BatchSettles (k : nat)
| ClearQueue (reason : string).

Definition step (w : world) (e : event) : world :=
  match e with
  | AddRequest p o now => addRequest p o now w
  | TimerFires h => fire h w
  | BatchSettles k => resume k w
  | ClearQueue reason => clearQueue reason w
  end.

Definition run (es : list event) (w : world) : world := fold_left step es w.

(** The prompts that a sequence of events enqueues, in order. *)
Definition enqueued_prompts (es : list event) : list string :=
  flat_map (fun e => match e with AddRequest p _ _ => [p] | _ => [] end) es.

(** No event of the sequence is a call of [clearQueue]. *)
Definition never_cleared (es : list event) : Prop :=
  forall reason, ~ In (ClearQueue reason) es.

(** Letting the batcher run on its own: as long as a call of
    [processBatchFn] is in flight it settles, otherwise a pending timer
    fires; [fuel] bounds the number of such events. *)
Definition next_event (w : world) : option event :=
  match awaiting w, timers w with
  | _ :: _, _ => Some (BatchSettles 0)
  | [], h :: _ => Some (TimerFires h)
  | [], [] => None
  end.

Fixpoint drain (fuel : nat) (w : world) : world :=
  match fuel with
  | 0 => w
  | S fuel' =>
      match next_event w with
      | Some e => drain fuel' (step w e)
      | None => w
      end
  end.

(** The events still owed to the batcher: two for every queued request
    (a timer and a completion), one for a batch in flight. *)
Definition work (w : world) : nat :=
  2 * List.length (queue (self w)) + List.length (awaiting w).

(** The number of calls of [resolve] or [reject] a request received. *)
Definition resolutions (i : nat) (w : world) : nat :=
  List.length (filter (fun s => Nat.eqb (fst s) i) (settlements w)).

(** The requests that are still waiting, in the queue or in a batch in
    flight. *)
Definition pending (w : world) : list QueuedRequest :=
  List.concat (map snd (awaiting w)) ++ queue (self w).

Definition is_cleared (s : nat * settlement) : bool :=
  match snd s with Reject (QueueCleared _) => true | _ => false end.

Definition cleared_in (i : nat) (st : list (nat * settlement)) : bool :=
  existsb (fun s => Nat.eqb (fst s) i && is_cleared s) st.

(** The requests that [clearQueue] rejected. *)
Definition cleared (i : nat) (w : world) : bool :=
  cleared_in i (settlements w).

(** ** Invariants *)

(** The bookkeeping of requests: the identifiers handed out are
    [1 .. idCounter]; each of them is either settled, exactly once, or
    still pending, exactly once; the batches handed to [processBatchFn]
    followed by the queue are the enqueued requests that were not
    cleared, in the order of their arrival; a call of [processBatchFn]
    is in flight or its batch has been settled as the outcome of the
    call says. *)
Definition core (q : list QueuedRequest) (n : nat)
    (aw : list (nat * list QueuedRequest)) (cl : list (list QueuedRequest))
    (st : list (nat * settlement)) (rq : list QueuedRequest) : Prop :=
  map id rq = seq 1 n
  /\ Permutation (map fst st ++ map id (List.concat (map snd aw) ++ q))
                 (map id rq)
  /\ List.concat cl ++ q = filter (fun r => negb (cleared_in (id r) st)) rq
  /\ (forall k batch, nth_error cl k = Some batch ->
        In (k, batch) aw \/ incl (settle_batch k batch) st)
  /\ (forall k batch, In (k, batch) aw -> nth_error cl k = Some batch).

(** The control state: the pending timers are exactly the one named by
    [batchTimer]; while a batch is in flight there is one suspended
    activation and no timer; otherwise nothing is suspended and a
    non-empty queue has its timer; a timer is armed only over a
    non-empty queue. *)
Definition ctl (q : list QueuedRequest) (bt : option nat) (busy : bool)
    (tm : list nat) (aw : list (nat * list QueuedRequest)) : Prop :=
  tm = match bt with Some h => [h] | None => [] end
  /\ (busy = true -> bt = None /\ exists k batch, aw = [(k, batch)])
  /\ (busy = false -> aw = [] /\ (q <> [] -> bt <> None))
  /\ (bt <> None -> q <> []).

(** The size of the batches handed to [processBatchFn]. *)
Definition sized (mbs : Z) (cl : list (list QueuedRequest)) : Prop :=
  Forall (fun batch =>
            (List.length batch <= Z.to_nat mbs)%nat
            /\ ((0 < mbs)%Z -> batch <> [])) cl.

Definition inv (w : world) : Prop :=
  core (queue (self w)) (idCounter (self w)) (awaiting w) (calls w)
       (settlements w) (requests w)
  /\ ctl (queue (self w)) (batchTimer (self w)) (isProcessing (self w))
         (timers w) (awaiting w)
  /\ sized (maxBatchSize (self w)) (calls w).

End WithTypes.

Arguments Resolve {T X} value.
Arguments Reject {T X} why.
Arguments BatchError {X} error.
Arguments QueueCleared {X} reason.
Arguments resolve_each {T O X} results index batch.
Arguments reject_each {T O X} why batch.
Arguments constructor {O} options.
Arguments init {T O X} options.
Arguments TimerFires {O} h.
Arguments BatchSettles {O} k.
Arguments ClearQueue {O} reason.

End RequestBatcher.

(** ** The scenarios of the batcher's tests *)

Module BatcherScenario.

Import RequestBatcher.
Local Open Scope nat_scope.

(** A [processBatchFn] that echoes its prompts. *)
Definition echo (n : nat) (prompts : list string) (optionsArray : list unit)
  : list string + string :=
  inl prompts.

(** A [processBatchFn] that always rejects, with one and the same error. *)
Definition failing (n : nat) (prompts : list string) (optionsArray : list unit)
  : list string + string :=
  inr "boom"%string.

(** The prompt of the [i]-th request: one letter, from [A] on. *)
Definition letter (i : nat) : string :=
  String (ascii_of_nat (65 + i)) EmptyString.

Definition batches_of (size : Z) : BatcherOptions :=
  {| opt_maxBatchSize := Some size; opt_maxDelayMs := None;
     opt_maxTokensPerBatch := None |}.

(** [count] calls of [addRequest] in a row. *)
Definition enqueue (count : nat) : list (event unit) :=
  map (fun i => AddRequest (letter i) tt 0%Z) (seq 0 count).

(** 25 requests into batches of 10: the tenth enqueue dispatches the
    first batch at once; each completion arms a zero-delay timer for
    the rest of the queue. *)
Definition twenty_five : list (event unit) :=
  enqueue 25
  ++ [BatchSettles 0; TimerFires 1; BatchSettles 0; TimerFires 2; BatchSettles 0].

End BatcherScenario.

(* ===================================================================== *)
(** * Reference notions for the similarity functions                     *)
(* ===================================================================== *)

Module EditDistance.

Import Similarity.
Local Open Scope nat_scope.

(** The cell [matrix[i][j]] is the distance between the first [j]
    characters of [a] and the first [i] characters of [b]; a cell is
    computed from the cells of the prefixes one character shorter.
    [distance xs ys] is that recurrence on two prefixes held last
    character first. *)
Fixpoint distance (xs : list ascii) : list ascii -> nat :=
  match xs with
  | [] => fun ys => List.length ys
  | x :: xs' =>
      fix against (ys : list ascii) : nat :=
        match ys with
        | [] => S (List.length xs')
        | y :: ys' =>
            min3 (against ys' + 1) (distance xs' ys + 1)
                 (distance xs' ys' + (if Ascii.eqb x y then 0 else 1))
        end
  end.

(** The part from column [|pa|] on of the matrix row of the prefix [pb]
    of [b], where [a] is [pa] followed by [rest]. *)
Fixpoint row_from (rest pa pb : list ascii) : list nat :=
  distance (rev pa) (rev pb)
    :: match rest with
       | [] => []
       | aj :: rest' => row_from rest' (pa ++ [aj]) pb
       end.

End EditDistance.

(* ===================================================================== *)
(** * utils/token-bucket.ts on IEEE doubles                              *)
(* ===================================================================== *)

(** The class once more, with its numbers as the doubles they are at
    run time.  Clock readings are whole numbers of milliseconds below
    2^53, so [now - this.lastRefill] is exact and is kept as an
    integer; it becomes a double where it is multiplied by the rate. *)
Module TokenBucketDouble.

Local Open Scope float_scope.

Record t : Type := mk {
  tokens : float;
  maxTokens : float;
  refillRate : float;      (* tokens per ms *)
  lastRefill : Z
}.

(** A positive whole number of milliseconds as a double. *)
Definition of_ms (ms : Z) : float :=
  PrimFloat.of_uint63 (Uint63Axioms.of_Z ms).

(** [Math.min(a, b)]: NaN when either is NaN, and -0 below +0. *)
Definition Math_min (a b : float) : float :=
  if PrimFloat.is_nan a || PrimFloat.is_nan b then nan
  else if a <? b then a
  else if b <? a then b
  else if PrimFloat.get_sign a then a else b.

(** [new TokenBucket(maxTokens, refillTimeMs)], built at time [now]. *)
Definition constructor (maxTokens refillTimeMs : float) (now : Z) : t :=
  {| tokens := maxTokens;
     maxTokens := maxTokens;
     refillRate := maxTokens / refillTimeMs;
     lastRefill := now |}.

(** [refill()]. *)
Definition refill (now : Z) (b : t) : t :=
  let elapsedMs := (now - lastRefill b)%Z in
  if (0 <? elapsedMs)%Z then
    let newTokens := of_ms elapsedMs * refillRate b in
    {| tokens := Math_min (maxTokens b) (tokens b + newTokens);
       maxTokens := maxTokens b;
       refillRate := refillRate b;
       lastRefill := now |}
  else b.

(** [takeTokens(count)]: the returned flag and the bucket afterwards. *)
Definition takeTokens (count : float) (now : Z) (b : t) : bool * t :=
  let b1 := refill now b in
  if count <=? tokens b1 then
    (true, {| tokens := tokens b1 - count;
              maxTokens := maxTokens b1;
              refillRate := refillRate b1;
              lastRefill := lastRefill b1 |})
  else (false, b1).

(** [getTokens()]. *)
Definition getTokens (now : Z) (b : t) : float * t :=
  let b1 := refill now b in (tokens b1, b1).

End TokenBucketDouble.

(* ===================================================================== *)
(** * Strings of white space                                             *)
(* ===================================================================== *)

Module Prompts.

Import Similarity.

(** A string of white space only. *)
Definition blank (s : string) : Prop :=
  forallb is_space (list_ascii_of_string s) = true.

End Prompts.

(* ===================================================================== *)
(** * A scenario of the rate limiter                                    *)
(* ===================================================================== *)

Module LimiterScenario.

Import RateLimiter.
Local Open Scope Q_scope.

(** One token per second, the defaults otherwise. *)
Definition one_per_second : RateLimiterOptions :=
  {| tokensPerInterval := 1; intervalInMs := 1000;
     opt_maxWaitTimeMs := None; opt_autoWait := None |}.

Definition at_once : environment :=
  {| t_first := 0; t_wait := 0; t_retry := 0; interference := fun b => b |}.

(** The limiter after its only token has been taken at time 0. *)
Definition drained : t :=
  snd (fst (acquireToken 1 at_once (constructor one_per_second 0))).

(** A call at time 10 whose sleep ends at time 1010, with nobody else
    using the limiter. *)
Definition in_time : environment :=
  {| t_first := 10; t_wait := 10; t_retry := 1010;
     interference := fun b => b |}.

End LimiterScenario.

(* ===================================================================== *)
(** * Sequences of calls on a cache                                     *)
(* ===================================================================== *)

Module CacheCalls.

Import Similarity AICache.

Section WithResponse.

Variable T : Type.

(** One call on a cache, with the clock reading it sees. *)
Inductive call : Type :=
| CallGet (p : string) (now : Z)
| CallSet (p : string) (r : T) (now : Z)
| CallClear
| CallPurgeExpired (now : Z).

Definition apply_call (k : call) (c : t T) : t T :=
  match k with
  | CallGet p now => snd (get p now c)
  | CallSet p r now => set p r now c
  | CallClear => clear c
  | CallPurgeExpired now => snd (purgeExpired now c)
  end.

(** The cache after a sequence of calls, oldest first. *)
Definition run (calls : list call) (c : t T) : t T :=
  fold_left (fun c k => apply_call k c) calls c.

(** A call that files a response under the empty key. *)
Definition stores_empty_key (k : call) : Prop :=
  match k with
  | CallSet p _ _ => normalizePrompt p = EmptyString
  | _ => False
  end.

(** The keys are pairwise different, and every entry is filed under
    its own prompt, which is a normal form. *)
Definition well_keyed (m : entries T) : Prop :=
  NoDup (map fst m)
  /\ forall k e, In (k, e) m -> prompt e = k /\ normalizePrompt k = k.

(** The entry that [set] files. *)
Definition filed (p : string) (r : T) (now : Z) : CacheEntry T :=
  {| response := r; timestamp := now; prompt := normalizePrompt p |}.

End WithResponse.

End CacheCalls.

Module CacheScenario.

Import AICache CacheCalls.
Local Open Scope string_scope.

(** Room for two entries that live for four milliseconds. *)
Definition two_slots : CacheOptions :=
  {| opt_maxSize := Some 2%Q; opt_ttlMs := Some 4%Q;
     opt_similarityThreshold := None; opt_enableFuzzyMatching := None |}.

Definition stored_twice : list (call nat) :=
  [CallSet "Hello  World, how are you today" 1%nat 1; CallSet "B" 2%nat 3].

End CacheScenario.

(* ===================================================================== *)
(** * client.ts                                                         *)
(* ===================================================================== *)

Module EfrateClient.

Local Open Scope Q_scope.

Section WithTypes.

(** [T] is the type of responses, [O] the type of the completion
    options, [X] the type of the errors with which the provider or the
    batcher may reject. *)
Variables T O X : Type.

(** The truthiness of a response, as [if (cachedResponse)] sees it. *)
Variable truthy : T -> bool.

Record ClientOptions : Type := {
  opt_cacheOptions : option AICache.CacheOptions;
  opt_rateLimiterOptions : option RateLimiter.RateLimiterOptions;
  opt_enableCache : option bool;
  opt_enableRateLimiting : option bool;
  opt_enableBatching : option bool
}.

(** The fields of the class that [complete] reads and writes; the
    provider and the batcher are its surroundings. *)
Record t : Type := mk {
  cache : AICache.t T;
  rateLimiter : RateLimiter.t;
  enableCache : bool;
  enableRateLimiting : bool;
  enableBatching : bool
}.

(** [new EfrateClient(options)], built at time [now]. *)
Definition constructor (options : ClientOptions) (now : Z) : t :=
  {| cache :=
       AICache.constructor T
         (match opt_cacheOptions options with
          | Some o => o
          | None => AICache.no_options
          end);
     rateLimiter :=
       RateLimiter.constructor
         (match opt_rateLimiterOptions options with
          | Some o => o
          | None =>
              {| RateLimiter.tokensPerInterval := 60;
                 RateLimiter.intervalInMs := 60000;
                 RateLimiter.opt_maxWaitTimeMs := None;
                 RateLimiter.opt_autoWait := None |}
          end) now;
     enableCache := defined_or (opt_enableCache options) true;
     enableRateLimiting := defined_or (opt_enableRateLimiting options) true;
     enableBatching := defined_or (opt_enableBatching options) true |}.

Definition set_cache (c : t) (k : AICache.t T) : t :=
  {| cache := k; rateLimiter := rateLimiter c;
     enableCache := enableCache c;
     enableRateLimiting := enableRateLimiting c;
     enableBatching := enableBatching c |}.

Definition set_rateLimiter (c : t) (rl : RateLimiter.t) : t :=
  {| cache := cache c; rateLimiter := rl;
     enableCache := enableCache c;
     enableRateLimiting := enableRateLimiting c;
     enableBatching := enableBatching c |}.

(** The request that one call of [complete] sends out. *)
Inductive request : Type :=
| BatcherAddRequest (prompt : string) (options : O)
| ProviderComplete (prompt : string) (options : O).

(** How the promise of [complete] settles. *)
Inductive outcome : Type :=
| Return (response : T)
| ThrowRateLimitExceeded
| Throw (error : X).

(** What surrounds one call of [complete]: the clock reading of its
    cache lookup, the surroundings of its call of [acquireToken], how
    the awaited request settles, what the other users of the client
    do to the cache while the call is suspended, and the clock reading
    of its cache write. *)
Record surroundings : Type := {
  t_get : Z;
  limiter : RateLimiter.environment;
  fetched : T + X;
  cache_meanwhile : AICache.t T -> AICache.t T;
  t_set : Z
}.

(** The cache check at the head of [complete]. *)
Definition lookup (prompt : string) (now : Z) (c : t) : option T * t :=
  if enableCache c then
    let (cachedResponse, k) := AICache.get prompt now (cache c) in
    (match cachedResponse with
     | Some v => if truthy v then Some v else None
     | None => None
     end, set_cache c k)
  else (None, c).

(** The rate-limit check of [complete], [chat] and [embeddings]. *)
Definition admit_request (e : RateLimiter.environment) (c : t) : bool * t :=
  if enableRateLimiting c then
    let canProceed := RateLimiter.acquireToken 1 e (rateLimiter c) in
    (fst (fst canProceed), set_rateLimiter c (snd (fst canProceed)))
  else (true, c).

(** [complete(prompt, options)]: how the promise settles, the client
    after the call's own last step, and the requests sent out.  What
    the other users did to the cache shows where the call writes to
    it. *)
Definition complete (prompt : string) (options : O) (e : surroundings) (c : t)
  : outcome * t * list request :=
  match lookup prompt (t_get e) c with
  | (Some cachedResponse, c1) => (Return cachedResponse, c1, [])
  | (None, c1) =>
      let (canProceed, c2) := admit_request (limiter e) c1 in
      if negb canProceed then (ThrowRateLimitExceeded, c2, [])
      else
        let sent :=
          if enableBatching c2 then BatcherAddRequest prompt options
          else ProviderComplete prompt options in
        match fetched e with
        | inr error => (Throw error, c2, [sent])
        | inl response =>
            (Return response,
             (if enableCache c2
              then set_cache c2
                     (AICache.set prompt response (t_set e)
                        (cache_meanwhile e (cache c2)))
              else c2),
             [sent])
        end
  end.

(** Whether a call was answered from the cache: it returned the
    response and sent nothing out. *)
Definition served_from_cache (response : T) (r : outcome * t * list request)
  : Prop :=
  fst (fst r) = Return response /\ snd r = [].

End WithTypes.

Arguments Return {T X} response.
Arguments ThrowRateLimitExceeded {T X}.
Arguments Throw {T X} error.

End EfrateClient.

Module ClientScenario.

Import EfrateClient.
Local Open Scope string_scope.

(** Responses that may be [undefined], which is the one falsy value
    among them. *)
Definition defined (r : option string) : bool :=
  match r with Some _ => true | None => false end.

Definition defaults : ClientOptions :=
  {| opt_cacheOptions := None; opt_rateLimiterOptions := None;
     opt_enableCache := None; opt_enableRateLimiting := None;
     opt_enableBatching := None |}.

Definition undisturbed (now : Z) : RateLimiter.environment :=
  {| RateLimiter.t_first := now; RateLimiter.t_wait := now;
     RateLimiter.t_retry := now; RateLimiter.interference := fun b => b |}.

(** A call at time 0 whose request is answered at time 5. *)
Definition answered : surroundings (option string) string :=
  {| t_get := 0; limiter := undisturbed 0; fetched := inl (Some "hi");
     cache_meanwhile := fun k => k; t_set := 5 |}.

(** A call at time 10 while the provider is down. *)
Definition provider_down : surroundings (option string) string :=
  {| t_get := 10; limiter := undisturbed 10; fetched := inr "down";
     cache_meanwhile := fun k => k; t_set := 10 |}.

End ClientScenario.

(* ===================================================================== *)
(** * Properties of the similarity score                                 *)
(* ===================================================================== *)

Section SimilarityFacts.

Import Similarity.
Local Open Scope nat_scope.

Lemma length_list_ascii_of_string (s : string) :
  List.length (list_ascii_of_string s) = String.length s.
Proof. induction s as [|c s IH]; simpl; congruence. Qed.

Lemma falsy_iff (s : string) : falsy s = true <-> s = EmptyString.
Proof. destruct s; simpl; split; congruence. Qed.

Lemma fill_row_length (a : list ascii) (bi : ascii) :
  forall prev left,
    List.length prev = S (List.length a) ->
    List.length (fill_row a bi prev left) = List.length a.
Proof.
  induction a as [|aj a IH]; intros prev left Hlen; simpl.
  - reflexivity.
  - destruct prev as [|diag [|up rest]]; simpl in Hlen; try discriminate.
    simpl. f_equal. apply IH. simpl. lia.
Qed.

Lemma min3_le_third (x y z : nat) : min3 x y z <= z.
Proof. unfold min3. lia. Qed.

Lemma fill_row_bounded (a : list ascii) (bi : ascii) (i : nat) :
  forall prev left k,
    cells_bounded i k prev ->
    left <= Nat.max (S i) k ->
    cells_bounded (S i) (S k) (fill_row a bi prev left).
Proof.
  induction a as [|aj a IH]; intros prev left k Hprev Hleft j v Hj.
  - destruct j; discriminate.
  - destruct prev as [|diag [|up rest]]; simpl in Hj;
      try (destruct j; discriminate).
    assert (Hdiag : diag <= Nat.max i k).
    { specialize (Hprev 0 diag eq_refl). rewrite Nat.add_0_r in Hprev. exact Hprev. }
    set (cell := min3 (up + 1) (left + 1)
                   (diag + (if Ascii.eqb aj bi then 0 else 1))) in *.
    assert (Hcell : cell <= Nat.max (S i) (S k)).
    { pose proof (min3_le_third (up + 1) (left + 1)
                    (diag + (if Ascii.eqb aj bi then 0 else 1))) as H3.
      fold cell in H3. destruct (Ascii.eqb aj bi); lia. }
    destruct j as [|j]; simpl in Hj.
    + injection Hj as <-. rewrite Nat.add_0_r. exact Hcell.
    + replace (S k + S j) with (S (S k) + j) by lia.
      apply (IH (up :: rest) cell (S k)); [| exact Hcell | exact Hj].
      intros j' v' Hj'. specialize (Hprev (S j') v' Hj').
      replace (S k + j') with (k + S j') by lia. exact Hprev.
Qed.

Lemma first_row_bounded (a : list ascii) : cells_bounded 0 0 (first_row a).
Proof.
  intros j v Hj. unfold first_row in Hj.
  assert (Hlt : j < S (List.length a)).
  { rewrite <- (length_seq (S (List.length a)) 0).
    apply nth_error_Some. congruence. }
  rewrite (nth_error_nth' _ 0) in Hj by (rewrite length_seq; exact Hlt).
  rewrite seq_nth in Hj by exact Hlt. injection Hj as <-. lia.
Qed.

Lemma next_row_bounded (a : list ascii) (bi : ascii) (i : nat) (prev : list nat) :
  cells_bounded i 0 prev ->
  cells_bounded (S i) 0 (next_row a (S i) bi prev).
Proof.
  intros Hprev j v Hj. unfold next_row in Hj.
  destruct j as [|j]; simpl in Hj.
  - injection Hj as <-. lia.
  - replace (0 + S j) with (1 + j) by lia.
    apply (@fill_row_bounded a bi i prev (S i) 0); [exact Hprev | lia | exact Hj].
Qed.

Lemma next_row_length (a : list ascii) (bi : ascii) (i : nat) (prev : list nat) :
  List.length prev = S (List.length a) ->
  List.length (next_row a i bi prev) = S (List.length a).
Proof. intros H. unfold next_row. simpl. f_equal. now apply fill_row_length. Qed.

(** The newest row of the matrix built by the outer loop. *)
Lemma fill_matrix_last (a : list ascii) :
  forall b i prev rows,
    cells_bounded i 0 prev ->
    List.length prev = S (List.length a) ->
    exists last rest,
      fill_matrix a b (S i) prev rows = last :: rest /\
      cells_bounded (i + List.length b) 0 last /\
      List.length last = S (List.length a) /\
      List.length rest = List.length rows + List.length b.
Proof.
  induction b as [|bi b IH]; intros i prev rows Hb Hlen; simpl.
  - exists prev, rows. rewrite !Nat.add_0_r. auto.
  - destruct (IH (S i) (next_row a (S i) bi prev) (prev :: rows))
      as (last & rest & Heq & Hbound & Hl & Hr).
    + now apply next_row_bounded.
    + now apply next_row_length.
    + exists last, rest. rewrite Heq. simpl in Hr.
      replace (i + S (List.length b)) with (S i + List.length b) by lia.
      repeat split; auto. lia.
Qed.

(** The distance never exceeds the length of the longer string. *)
Lemma levenshteinDistance_le_max (a b : string) :
  levenshteinDistance a b <= Nat.max (String.length a) (String.length b).
Proof.
  unfold levenshteinDistance, matrix.
  set (la := list_ascii_of_string a). set (lb := list_ascii_of_string b).
  destruct (@fill_matrix_last la lb 0 (first_row la) [])
    as (last & rest & Heq & Hbound & Hl & Hr).
  - apply first_row_bounded.
  - unfold first_row. now rewrite length_seq.
  - rewrite Heq. simpl in Hr. simpl rev.
    rewrite app_nth2 by (rewrite length_rev; lia).
    rewrite length_rev, Hr, Nat.sub_diag. simpl nth.
    assert (Hlt : List.length la < List.length last) by lia.
    pose proof (Hbound (List.length la) (nth (List.length la) last 0)
                  (nth_error_nth' last 0 Hlt)) as H.
    subst la lb. rewrite !length_list_ascii_of_string in *. lia.
Qed.

End SimilarityFacts.

Section SimilarityScore.

Import Similarity.
Local Open Scope Q_scope.

Lemma Qnat_nonneg (n : nat) : 0 <= Qnat n.
Proof. unfold Qnat, Qle. simpl. lia. Qed.

Lemma Qnat_pos (n : nat) : (0 < n)%nat -> 0 < Qnat n.
Proof. intros H. unfold Qnat, Qlt. simpl. lia. Qed.

Lemma Qnat_le (n m : nat) : (n <= m)%nat -> Qnat n <= Qnat m.
Proof. intros H. unfold Qnat, Qle. simpl. lia. Qed.

(** A ratio of a count to a larger positive count, taken from 1. *)
Lemma one_minus_ratio_range (d m : nat) :
  (d <= m)%nat -> (0 < m)%nat -> 0 <= 1 - Qnat d / Qnat m <= 1.
Proof.
  intros Hdm Hm.
  pose proof (Qnat_pos Hm) as Hpos.
  assert (H0 : 0 <= Qnat d / Qnat m).
  { apply Qle_shift_div_l; [exact Hpos |]. rewrite Qmult_0_l. apply Qnat_nonneg. }
  assert (H1 : Qnat d / Qnat m <= 1).
  { apply Qle_shift_div_r; [exact Hpos |]. rewrite Qmult_1_l. now apply Qnat_le. }
  split; lra.
Qed.

(** C5.  [calculateSimilarity] is the piecewise function of the
    specification: 1 on equal strings (so also on two empty strings), 0
    when exactly one string is empty, and otherwise 1 minus the edit
    distance divided by the length of the longer string; and its value
    always lies between 0 and 1. *)
Theorem calculateSimilarity_spec (a b : string) :
  calculateSimilarity a b = similarity_spec a b
  /\ calculateSimilarity EmptyString EmptyString = 1
  /\ 0 <= calculateSimilarity a b <= 1.
Proof.
  assert (Heq : calculateSimilarity a b = similarity_spec a b).
  { unfold calculateSimilarity, similarity_spec.
    destruct (String.eqb_spec a b) as [E | NE];
      destruct (string_dec a b) as [E' | NE']; try congruence.
    destruct a as [|ca a']; [reflexivity |].
    destruct b as [|cb b']; [reflexivity |].
    simpl falsy. simpl orb.
    destruct (string_dec (String ca a') EmptyString) as [D | _]; [discriminate D |].
    destruct (string_dec (String cb b') EmptyString) as [D | _]; [discriminate D |].
    reflexivity. }
  split; [exact Heq | split; [reflexivity |]].
  rewrite Heq. unfold similarity_spec.
  destruct (string_dec a b); [split; lra |].
  destruct (string_dec a EmptyString); [split; lra |].
  destruct (string_dec b EmptyString); [split; lra |].
  apply one_minus_ratio_range.
  - apply levenshteinDistance_le_max.
  - destruct a; [congruence | cbn [String.length]; lia].
Qed.

End SimilarityScore.

(* ===================================================================== *)
(** * Properties of prompt normalisation                                 *)
(* ===================================================================== *)

Section NormalizationFacts.

Import Similarity.
Local Open Scope nat_scope.

(** Lower-casing neither makes nor unmakes white space, and doing it
    twice is doing it once. *)
Lemma is_space_lower (c : ascii) : is_space (lower c) = is_space c.
Proof. destruct c as [[] [] [] [] [] [] [] []]; reflexivity. Qed.

Lemma lower_lower (c : ascii) : lower (lower c) = lower c.
Proof. destruct c as [[] [] [] [] [] [] [] []]; reflexivity. Qed.

Lemma drop_spaces_lower (l : list ascii) :
  drop_spaces (toLowerCase l) = toLowerCase (drop_spaces l).
Proof.
  unfold toLowerCase. induction l as [|c l IH]; simpl; [reflexivity |].
  rewrite is_space_lower. destruct (is_space c); [exact IH | reflexivity].
Qed.

Lemma trim_lower (l : list ascii) : trim (toLowerCase l) = toLowerCase (trim l).
Proof.
  unfold trim. rewrite drop_spaces_lower.
  unfold toLowerCase at 1. rewrite <- map_rev. fold (toLowerCase (rev (drop_spaces l))).
  rewrite drop_spaces_lower. unfold toLowerCase. now rewrite map_rev.
Qed.

Lemma toLowerCase_twice (l : list ascii) :
  toLowerCase (toLowerCase l) = toLowerCase l.
Proof.
  unfold toLowerCase. rewrite map_map. apply map_ext. apply lower_lower.
Qed.

(** Two texts that differ only in the case of their letters have the
    same normal form. *)
Lemma normalize_chars_case (p q : list ascii) :
  toLowerCase q = toLowerCase p -> normalize_chars q = normalize_chars p.
Proof.
  intros H. unfold normalize_chars. now rewrite <- !trim_lower, H.
Qed.

Lemma drop_spaces_leading (ws l : list ascii) :
  forallb is_space ws = true -> drop_spaces (ws ++ l) = drop_spaces l.
Proof.
  induction ws as [|c ws IH]; simpl; [reflexivity |].
  intros H. apply andb_true_iff in H as [Hc Hws]. rewrite Hc. now apply IH.
Qed.

Lemma drop_spaces_all (ws : list ascii) :
  forallb is_space ws = true -> drop_spaces ws = [].
Proof.
  intros H. rewrite <- (app_nil_r ws). now rewrite drop_spaces_leading by exact H.
Qed.

Lemma drop_spaces_trailing (l ws : list ascii) :
  forallb is_space ws = true ->
  drop_spaces (l ++ ws)
  = match drop_spaces l with [] => [] | c :: r => (c :: r) ++ ws end.
Proof.
  intros Hws. induction l as [|c l IH]; simpl.
  - now apply drop_spaces_all.
  - destruct (is_space c); [exact IH | reflexivity].
Qed.

Lemma forallb_rev {A : Type} (f : A -> bool) (l : list A) :
  forallb f (rev l) = forallb f l.
Proof.
  induction l as [|x l IH]; simpl; [reflexivity |].
  rewrite forallb_app, IH. simpl. rewrite andb_true_r. apply andb_comm.
Qed.

(** White space before or after a text does not reach its normal form. *)
Lemma trim_surrounding (ws1 l ws2 : list ascii) :
  forallb is_space ws1 = true -> forallb is_space ws2 = true ->
  trim (ws1 ++ l ++ ws2) = trim l.
Proof.
  intros H1 H2. unfold trim.
  rewrite drop_spaces_leading by exact H1.
  rewrite drop_spaces_trailing by exact H2.
  destruct (drop_spaces l) as [|c r]; [reflexivity |].
  rewrite rev_app_distr, drop_spaces_leading; [reflexivity |].
  now rewrite forallb_rev.
Qed.

Lemma normalize_chars_surrounding (ws1 l ws2 : list ascii) :
  forallb is_space ws1 = true -> forallb is_space ws2 = true ->
  normalize_chars (ws1 ++ l ++ ws2) = normalize_chars l.
Proof.
  intros H1 H2. unfold normalize_chars. now rewrite trim_surrounding.
Qed.

(** A run of white space inside a text collapses to the same single
    space whatever its length and its characters. *)
Lemma collapse_run_in_run (ws l : list ascii) :
  forallb is_space ws = true ->
  collapse_from true (ws ++ l) = collapse_from true l.
Proof.
  induction ws as [|c ws IH]; simpl; [reflexivity |].
  intros H. apply andb_true_iff in H as [Hc Hws]. rewrite Hc. now apply IH.
Qed.

Lemma collapse_run (in_run : bool) (ws1 ws2 l : list ascii) :
  ws1 <> [] -> ws2 <> [] ->
  forallb is_space ws1 = true -> forallb is_space ws2 = true ->
  collapse_from in_run (ws1 ++ l) = collapse_from in_run (ws2 ++ l).
Proof.
  intros N1 N2 H1 H2.
  destruct ws1 as [|c1 ws1]; [congruence |].
  destruct ws2 as [|c2 ws2]; [congruence |].
  simpl in *. apply andb_true_iff in H1 as [Hc1 H1].
  apply andb_true_iff in H2 as [Hc2 H2]. rewrite Hc1, Hc2.
  destruct in_run; now rewrite !collapse_run_in_run by assumption.
Qed.

Lemma collapse_inner_run (ws1 ws2 l2 : list ascii) :
  ws1 <> [] -> ws2 <> [] ->
  forallb is_space ws1 = true -> forallb is_space ws2 = true ->
  forall l1 in_run,
    collapse_from in_run (l1 ++ ws1 ++ l2)
    = collapse_from in_run (l1 ++ ws2 ++ l2).
Proof.
  intros N1 N2 H1 H2. induction l1 as [|c l1 IH]; intros in_run; simpl.
  - now apply collapse_run.
  - destruct (is_space c), in_run; now rewrite IH.
Qed.

Lemma forallb_lower_space (ws : list ascii) :
  forallb is_space (toLowerCase ws) = forallb is_space ws.
Proof.
  unfold toLowerCase. induction ws as [|c ws IH]; simpl; [reflexivity |].
  now rewrite is_space_lower, IH.
Qed.

(** A text that starts and ends with a character other than white
    space is its own trimmed form. *)
Lemma trim_tight (c d : ascii) (l : list ascii) :
  is_space c = false -> is_space d = false ->
  trim (c :: l ++ [d]) = c :: l ++ [d].
Proof.
  intros Hc Hd. unfold trim.
  assert (E1 : drop_spaces (c :: l ++ [d]) = c :: l ++ [d])
    by (simpl; now rewrite Hc).
  rewrite E1.
  assert (E2 : rev (c :: l ++ [d]) = d :: rev (c :: l)).
  { change (c :: l ++ [d]) with ((c :: l) ++ [d]). now rewrite rev_app_distr. }
  rewrite E2.
  assert (E3 : drop_spaces (d :: rev (c :: l)) = d :: rev (c :: l))
    by (simpl; now rewrite Hd).
  rewrite E3, <- E2. apply rev_involutive.
Qed.

(** Inside a text that starts and ends with a character other than
    white space, the length and the characters of a run of white space
    do not reach the normal form. *)
Lemma normalize_chars_inner_run (c d : ascii) (l1 ws1 ws2 l2 : list ascii) :
  is_space c = false -> is_space d = false ->
  ws1 <> [] -> ws2 <> [] ->
  forallb is_space ws1 = true -> forallb is_space ws2 = true ->
  normalize_chars (c :: l1 ++ ws1 ++ l2 ++ [d])
  = normalize_chars (c :: l1 ++ ws2 ++ l2 ++ [d]).
Proof.
  intros Hc Hd N1 N2 H1 H2. unfold normalize_chars.
  assert (Eshape : forall ws,
            c :: l1 ++ ws ++ l2 ++ [d] = c :: (l1 ++ ws ++ l2) ++ [d])
    by (intros ws; now rewrite <- !app_assoc).
  rewrite !Eshape, !trim_tight by assumption.
  assert (Esplit : forall ws,
            toLowerCase (c :: (l1 ++ ws ++ l2) ++ [d])
            = toLowerCase (c :: l1) ++ toLowerCase ws ++ toLowerCase (l2 ++ [d])).
  { intros ws. unfold toLowerCase. rewrite <- !map_app. f_equal.
    simpl. now rewrite <- !app_assoc. }
  rewrite !Esplit. unfold collapse.
  apply collapse_inner_run.
  - destruct ws1; [congruence | discriminate].
  - destruct ws2; [congruence | discriminate].
  - now rewrite forallb_lower_space.
  - now rewrite forallb_lower_space.
Qed.

End NormalizationFacts.

(* ===================================================================== *)
(** * Properties of the token bucket                                     *)
(* ===================================================================== *)

Section NumberFacts.

Local Open Scope Q_scope.

Lemma num_ge_iff (a b : Q) : num_ge a b = true <-> b <= a.
Proof. unfold num_ge. apply Qle_bool_iff. Qed.

Lemma num_lt_iff (a b : Q) : num_lt a b = true <-> a < b.
Proof.
  unfold num_lt. rewrite negb_true_iff.
  split; intros H.
  - apply Qnot_le_lt. intros Hle. apply Qle_bool_iff in Hle. congruence.
  - destruct (Qle_bool b a) eqn:E; [| reflexivity].
    apply Qle_bool_iff in E. exfalso. exact (Qlt_not_le _ _ H E).
Qed.

Lemma num_gt_iff (a b : Q) : num_gt a b = true <-> b < a.
Proof. unfold num_gt. fold (num_lt b a). apply num_lt_iff. Qed.

Lemma Math_min_le_l (a b : Q) : Math_min a b <= a.
Proof.
  unfold Math_min. destruct (Qle_bool a b) eqn:E; [apply Qle_refl |].
  apply Qlt_le_weak, Qnot_le_lt. intros H. apply Qle_bool_iff in H. congruence.
Qed.

Lemma Math_min_glb (a b c : Q) : c <= a -> c <= b -> c <= Math_min a b.
Proof. intros Ha Hb. unfold Math_min. now destruct (Qle_bool a b). Qed.

Lemma Math_min_left (a b : Q) : a <= b -> Math_min a b = a.
Proof. intros H. unfold Math_min. apply Qle_bool_iff in H. now rewrite H. Qed.

Lemma inject_Z_pos (z : Z) : (0 < z)%Z -> 0 < inject_Z z.
Proof. intros H. unfold Qlt. simpl. lia. Qed.

Lemma inject_Z_pos_inv (z : Z) : 0 < inject_Z z -> (0 < z)%Z.
Proof. unfold Qlt. simpl. lia. Qed.

End NumberFacts.

Section TokenBucketFacts.

Import TokenBucket.
Local Open Scope Q_scope.

Variables capacity window : Q.
Hypothesis capacity_pos : 0 < capacity.
Hypothesis window_pos : 0 < window.

Lemma rate_pos : 0 < capacity / window.
Proof. apply Qlt_shift_div_l; [exact window_pos | now rewrite Qmult_0_l]. Qed.


Lemma refill_ok (now : Z) (b : t) :
  bucket_ok capacity window b -> bucket_ok capacity window (refill now b).
Proof.
  intros (H0 & H1 & Hmax & Hrate). unfold refill.
  destruct (0 <? now - lastRefill b)%Z eqn:E; [| repeat split; assumption].
  apply Z.ltb_lt in E. unfold bucket_ok. simpl.
  rewrite Hmax, Hrate. repeat split.
  - apply Math_min_glb; [now apply Qlt_le_weak |].
    pose proof rate_pos as Hr. pose proof (inject_Z_pos E) as He.
    assert (0 <= inject_Z (now - lastRefill b) * (capacity / window)).
    { apply Qmult_le_0_compat; now apply Qlt_le_weak. }
    lra.
  - apply Math_min_le_l.
Qed.

Lemma takeTokens_ok (count : Q) (now : Z) (b : t) :
  0 <= count ->
  bucket_ok capacity window b ->
  bucket_ok capacity window (snd (takeTokens count now b)).
Proof.
  intros Hc Hb. apply (refill_ok now) in Hb.
  unfold takeTokens. destruct Hb as (H0 & H1 & Hmax & Hrate).
  destruct (num_ge (tokens (refill now b)) count) eqn:E; simpl.
  - apply num_ge_iff in E. unfold bucket_ok. simpl.
    repeat split; try assumption; lra.
  - repeat split; assumption.
Qed.



End TokenBucketFacts.




Section TakeTokensFrame.

Import TokenBucket.
Local Open Scope Q_scope.

(** A refill at the clock reading of the last refill changes nothing. *)
Lemma refill_idempotent (now : Z) (b : t) :
  refill now (refill now b) = refill now b.
Proof.
  unfold refill.
  destruct (0 <? now - lastRefill b)%Z eqn:E.
  - cbn [lastRefill]. rewrite Z.sub_diag. reflexivity.
  - rewrite E. reflexivity.
Qed.

(** C9 as first stated fails.  A bucket emptied at time 0 and asked
    for 5 tokens 100 ms later: the call fails, yet the level has moved
    from 0 to 1 and the time of the last refill from 0 to 100. *)
Lemma takeTokens_failure_changes_state :
  let b := snd (takeTokens 10 0 (constructor 10 1000 0)) in
  fst (takeTokens 5 100 b) = false
  /\ tokens b == 0
  /\ tokens (snd (takeTokens 5 100 b)) == 1
  /\ lastRefill b = 0%Z
  /\ lastRefill (snd (takeTokens 5 100 b)) = 100%Z
  /\ snd (takeTokens 5 100 b) <> b.
Proof.
  vm_compute. repeat split; try reflexivity. discriminate.
Qed.

(** C9, amended.  A failed [takeTokens] subtracts nothing: what it
    leaves is the bucket as the lazy refill alone leaves it.  Capacity
    and refill rate are untouched, the bucket is unchanged when no time
    has passed since the last refill, and the level read at the same
    clock value is the same before and after the failed call. *)
Theorem takeTokens_failure_only_refills (count : Q) (now : Z) (b : t) :
  fst (takeTokens count now b) = false ->
  snd (takeTokens count now b) = refill now b
  /\ maxTokens (snd (takeTokens count now b)) = maxTokens b
  /\ refillRate (snd (takeTokens count now b)) = refillRate b
  /\ ((now - lastRefill b <= 0)%Z -> snd (takeTokens count now b) = b)
  /\ fst (getTokens now (snd (takeTokens count now b))) = fst (getTokens now b).
Proof.
  unfold takeTokens.
  destruct (num_ge (tokens (refill now b)) count) eqn:E; simpl; [discriminate |].
  intros _. repeat split.
  - unfold refill. now destruct (0 <? now - lastRefill b)%Z.
  - unfold refill. now destruct (0 <? now - lastRefill b)%Z.
  - intros Hle. unfold refill.
    destruct (0 <? now - lastRefill b)%Z eqn:E'; [| reflexivity].
    apply Z.ltb_lt in E'. lia.
  - now rewrite refill_idempotent.
Qed.

Lemma takeTokens_failure_only_refills_witness :
  let b := snd (takeTokens 10 0 (constructor 10 1000 0)) in
  snd (takeTokens 5 100 b) = refill 100 b.
Proof.
  intros b.
  refine (proj1 (@takeTokens_failure_only_refills 5 100 b _)).
  reflexivity.
Defined.

End TakeTokensFrame.

(* ===================================================================== *)
(** * Properties of the rate limiter                                     *)
(* ===================================================================== *)

Section RateLimiterFacts.

Import RateLimiter.
Local Open Scope Q_scope.

(** C4.  [acquireToken] grants when the immediate take succeeds.  When
    it fails, the call is denied exactly when [autoWait] is off, or the
    computed wait exceeds [maxWaitTimeMs], or the one retry after the
    wait fails; in the remaining case the answer is the outcome of that
    retry.  The bucket is asked for tokens at most twice, and a second
    time only after the one sleep. *)
Theorem acquireToken_outcome (weight : Q) (e : environment) (rl : t) :
  (first_attempt weight e rl = true -> granted weight e rl = true)
  /\ (first_attempt weight e rl = false ->
      (granted weight e rl = false <->
         autoWait rl = false
         \/ maxWaitTimeMs rl < computed_wait weight e rl
         \/ retry_attempt weight e rl = false))
  /\ (first_attempt weight e rl = false ->
      autoWait rl = true ->
      ~ maxWaitTimeMs rl < computed_wait weight e rl ->
      granted weight e rl = retry_attempt weight e rl)
  /\ (List.length (filter is_take (actions weight e rl)) <= 2)%nat
  /\ (actions weight e rl = [CallTakeTokens weight]
      \/ actions weight e rl = [CallTakeTokens weight; CallGetWaitTimeMs weight]
      \/ actions weight e rl =
           [CallTakeTokens weight; CallGetWaitTimeMs weight;
            Sleep (computed_wait weight e rl); CallTakeTokens weight]).
Proof.
  unfold granted, actions, first_attempt, computed_wait, retry_attempt,
    acquireToken.
  destruct (TokenBucket.takeTokens weight (t_first e) (bucket rl))
    as [ok b1] eqn:E1.
  simpl fst; simpl snd.
  destruct ok; simpl.
  { repeat split; auto; try discriminate. }
  destruct (autoWait rl) eqn:EA; simpl.
  2:{ repeat split; auto; try discriminate. }
  destruct (TokenBucket.getWaitTimeMs weight (t_wait e) b1)
    as [waitTime b2] eqn:E2.
  simpl fst; simpl snd.
  destruct (num_gt waitTime (maxWaitTimeMs rl)) eqn:EG.
  { apply num_gt_iff in EG. simpl.
    repeat split; auto; try discriminate. intros _ _ H. contradiction. }
  assert (HG : ~ maxWaitTimeMs rl < waitTime).
  { intros H. apply num_gt_iff in H. congruence. }
  destruct (TokenBucket.takeTokens weight (t_retry e) (interference e b2))
    as [ok' b4] eqn:E4.
  simpl.
  repeat split; auto; try discriminate.
  - intros [Hoff | [Hlong | Hretry]];
      [discriminate | contradiction | exact Hretry].
Qed.

(** The scenario of the specification: one token per minute and no
    waiting; of two calls in a row the first is granted and the second
    is denied. *)
Lemma acquireToken_outcome_witness :
  let rl := constructor {| tokensPerInterval := 1; intervalInMs := 60000;
                           opt_maxWaitTimeMs := None;
                           opt_autoWait := Some false |} 0 in
  let e := {| t_first := 0; t_wait := 0; t_retry := 0;
              interference := fun b => b |} in
  granted 1 e rl = true
  /\ granted 1 e (snd (fst (acquireToken 1 e rl))) = false.
Proof.
  intros rl e. split.
  - apply (proj1 (acquireToken_outcome 1 e rl)). reflexivity.
  - apply (proj1 (proj2 (acquireToken_outcome 1 e
                           (snd (fst (acquireToken 1 e rl)))))).
    + reflexivity.
    + left. reflexivity.
Defined.

End RateLimiterFacts.

(* ===================================================================== *)
(** * Properties of the response cache                                   *)
(* ===================================================================== *)

Section CacheFacts.

Import Similarity AICache.
Local Open Scope Q_scope.

Variable T : Type.

Lemma or_default_zero (v d : Q) : v == 0 -> or_default (Some v) d = d.
Proof.
  intros H. unfold or_default. apply Qeq_bool_iff in H. now rewrite H.
Qed.

Lemma or_default_nonzero (x : option Q) (d : Q) :
  ~ d == 0 -> ~ or_default x d == 0.
Proof.
  intros Hd. unfold or_default. destruct x as [v |]; [| exact Hd].
  destruct (Qeq_bool v 0) eqn:E; [exact Hd |].
  now apply Qeq_bool_neq.
Qed.

(** C10.  In the constructor a numeric option given as 0 counts as
    absent: a threshold of 0 becomes 0.95, a size of 0 becomes 1000 and
    a time-to-live of 0 becomes 3600000; whatever the options, the
    threshold of the cache built is never 0. *)
Theorem constructor_zero_option_is_default (options : CacheOptions) :
  (forall v, v == 0 -> opt_similarityThreshold options = Some v ->
     similarityThreshold (constructor T options) = 95 # 100)
  /\ (forall v, v == 0 -> opt_maxSize options = Some v ->
        maxSize (constructor T options) = 1000)
  /\ (forall v, v == 0 -> opt_ttlMs options = Some v ->
        ttlMs (constructor T options) = 3600000)
  /\ ~ similarityThreshold (constructor T options) == 0.
Proof.
  unfold constructor. simpl. repeat split.
  - intros v Hv ->. now apply or_default_zero.
  - intros v Hv ->. now apply or_default_zero.
  - intros v Hv ->. now apply or_default_zero.
  - apply or_default_nonzero. discriminate.
Qed.

(** ** The operations of [Map] *)

Lemma map_get_set_same (k : string) (e : CacheEntry T) (m : entries T) :
  map_get k (map_set k e m) = Some e.
Proof.
  induction m as [|[k' e'] m IH]; simpl.
  - now rewrite String.eqb_refl.
  - destruct (String.eqb k k') eqn:E; simpl; rewrite ?String.eqb_refl, ?E; auto.
Qed.

Lemma map_set_new (k : string) (e : CacheEntry T) (m : entries T) :
  map_has k m = false -> map_set k e m = m ++ [(k, e)].
Proof.
  unfold map_has. induction m as [|[k' e'] m IH]; simpl; [reflexivity |].
  destruct (String.eqb k k'); [discriminate |].
  intros H. now rewrite IH.
Qed.

Lemma map_get_delete_absent (k k0 : string) (m : entries T) :
  map_get k m = None -> map_get k (map_delete k0 m) = None.
Proof.
  induction m as [|[k' e'] m IH]; simpl; [reflexivity |].
  destruct (String.eqb k k') eqn:E; [discriminate |].
  intros H. destruct (String.eqb k0 k'); simpl; [exact H |].
  rewrite E. now apply IH.
Qed.

Lemma map_delete_length (k : string) (m : entries T) :
  In k (map fst m) -> S (List.length (map_delete k m)) = List.length m.
Proof.
  induction m as [|[k' e'] m IH]; simpl; [contradiction |].
  destruct (String.eqb_spec k k') as [-> | NE]; [reflexivity |].
  intros [H | H]; [congruence |]. simpl. f_equal. now apply IH.
Qed.

(** C7.  A response stored under a prompt is returned by a lookup,
    before the entry's time-to-live has run out, of any prompt with the
    same normal form. *)
Theorem get_after_set_same_normal_form
    (c : t T) (p q : string) (R : T) (t0 t1 : Z) :
  normalizePrompt q = normalizePrompt p ->
  inject_Z (t1 - t0) < ttlMs c ->
  fst (get q t1 (set p R t0 c)) = Some R.
Proof.
  intros Hnorm Httl. unfold get, set. cbn [cache with_cache ttlMs].
  rewrite Hnorm, map_get_set_same.
  unfold fresh. cbn [timestamp response].
  apply num_lt_iff in Httl. rewrite Httl. reflexivity.
Qed.

(** ** Eviction *)

(** The loop that looks for the oldest entry, started with a candidate:
    it ends with a key and a time no later than the candidate's and no
    later than any entry's, and they are the candidate's or an
    entry's. *)
Lemma find_oldest_from (m : entries T) :
  forall k0 t0,
    exists k t,
      find_oldest m (Some k0, Some t0) = (Some k, Some t)
      /\ (t <= t0)%Z
      /\ (forall k' e', In (k', e') m -> (t <= timestamp e')%Z)
      /\ ((k = k0 /\ t = t0) \/ exists e, In (k, e) m /\ timestamp e = t).
Proof.
  induction m as [|[key entry] m IH]; intros k0 t0; simpl.
  - exists k0, t0. repeat split; auto; [lia | contradiction].
  - destruct (timestamp entry <? t0)%Z eqn:E.
    + apply Z.ltb_lt in E.
      destruct (IH key (timestamp entry)) as (k & t & Heq & Hle & Hall & Hwho).
      exists k, t. repeat split; [exact Heq | lia | |].
      * intros k' e' [H | H]; [injection H as <- <-; exact Hle | eauto].
      * right. destruct Hwho as [[-> ->] | (e & He & Ht)]; eauto.
    + apply Z.ltb_ge in E.
      destruct (IH k0 t0) as (k & t & Heq & Hle & Hall & Hwho).
      exists k, t. repeat split; [exact Heq | exact Hle | |].
      * intros k' e' [H | H]; [injection H as <- <-; lia | eauto].
      * destruct Hwho as [H | (e & He & Ht)]; [now left | right; eauto].
Qed.

(** On a non-empty map the loop finds an entry with the smallest
    timestamp. *)
Lemma find_oldest_is_oldest (m : entries T) :
  m <> [] ->
  exists k e,
    fst (find_oldest m (None, None)) = Some k
    /\ In (k, e) m
    /\ forall k' e', In (k', e') m -> (timestamp e <= timestamp e')%Z.
Proof.
  destruct m as [|[k1 e1] m]; [congruence |]. intros _. simpl.
  destruct (find_oldest_from m k1 (timestamp e1))
    as (k & t & Heq & Hle & Hall & Hwho).
  rewrite Heq. simpl.
  destruct Hwho as [[-> ->] | (e & He & Ht)].
  - exists k1, e1. repeat split; auto.
    intros k' e' [H | H]; [injection H as <- <-; lia | eauto].
  - exists k, e. subst t. repeat split; auto.
    intros k' e' [H | H]; [injection H as <- <-; lia | eauto].
Qed.

Lemma map_has_false (k : string) (m : entries T) :
  map_has k m = false <-> ~ In k (map fst m).
Proof.
  unfold map_has. induction m as [|[k' e'] m IH]; simpl; [tauto |].
  destruct (String.eqb_spec k k') as [-> | NE]; [split; [discriminate | tauto] |].
  rewrite IH. split; [intros H [E | H']; [congruence | tauto] | tauto].
Qed.

Lemma map_delete_other (k0 k : string) (e : CacheEntry T) (m : entries T) :
  k <> k0 -> In (k, e) m -> In (k, e) (map_delete k0 m).
Proof.
  intros Hne. induction m as [|[k' e'] m IH]; simpl; [tauto |].
  destruct (String.eqb_spec k0 k') as [-> | NE].
  - intros [H | H]; [congruence | exact H].
  - intros [H | H]; [now left | right; now apply IH].
Qed.

Lemma map_delete_gone (k0 : string) (m : entries T) :
  NoDup (map fst m) -> ~ In k0 (map fst (map_delete k0 m)).
Proof.
  induction m as [|[k' e'] m IH]; simpl; intros Hnd; [tauto |].
  inversion Hnd as [|? ? Hnotin Hnd']; subst.
  destruct (String.eqb_spec k0 k') as [-> | NE]; [exact Hnotin |].
  simpl. intros [H | H]; [congruence | now apply IH].
Qed.

Lemma map_set_length_present (k : string) (e : CacheEntry T) (m : entries T) :
  map_has k m = true -> List.length (map_set k e m) = List.length m.
Proof.
  unfold map_has. induction m as [|[k' e'] m IH]; simpl; [discriminate |].
  destruct (String.eqb k k'); simpl; [reflexivity |].
  intros H. f_equal. now apply IH.
Qed.

(** What [set] does on a full cache and a new key when the oldest key
    is not the empty string: the entry found has the smallest
    timestamp, it alone is removed, the new entry goes last, and the
    size is what it was. *)
Lemma set_evicts_oldest (c : t T) (p : string) (R : T) (now : Z) :
  let key := normalizePrompt p in
  NoDup (map fst (cache c)) ->
  cache c <> [] ->
  num_ge (map_size (cache c)) (maxSize c) = true ->
  map_has key (cache c) = false ->
  (forall k, fst (find_oldest (cache c) (None, None)) = Some k ->
             k <> EmptyString) ->
  exists k0 e0,
    In (k0, e0) (cache c)
    /\ (forall k e, In (k, e) (cache c) -> (timestamp e0 <= timestamp e)%Z)
    /\ cache (set p R now c)
       = map_delete k0 (cache c)
         ++ [(key, {| response := R; timestamp := now; prompt := key |})]
    /\ ~ In k0 (map fst (cache (set p R now c)))
    /\ (forall k e, In (k, e) (cache c) -> k <> k0 ->
          In (k, e) (cache (set p R now c)))
    /\ size (set p R now c) = size c.
Proof.
  intros key Hnd Hne Hfull Hnew Hkey.
  destruct (find_oldest_is_oldest Hne) as (k0 & e0 & Hfind & Hin & Hmin).
  specialize (Hkey k0 Hfind).
  assert (Hcache :
    cache (set p R now c)
    = map_delete k0 (cache c)
      ++ [(key, {| response := R; timestamp := now; prompt := key |})]).
  { unfold set. fold key. cbn [cache with_cache].
    rewrite Hfull, Hnew, Hfind. cbn [andb negb truthy_key].
    destruct k0 as [|a k0]; [congruence |]. cbn [falsy negb].
    apply map_set_new. unfold map_has.
    rewrite map_get_delete_absent; [reflexivity |].
    unfold map_has in Hnew. now destruct (map_get key (cache c)). }
  assert (Hk0 : In k0 (map fst (cache c))) by (now apply (in_map fst) in Hin).
  exists k0, e0. repeat split; try assumption.
  - rewrite Hcache, map_app. simpl. intros H.
    apply in_app_or in H as [H | [H | []]].
    + now apply (@map_delete_gone k0 (cache c) Hnd).
    + apply map_has_false in Hnew. congruence.
  - intros k e He Hk. rewrite Hcache. apply in_or_app. left.
    now apply map_delete_other.
  - unfold size. rewrite Hcache, length_app. simpl.
    pose proof (@map_delete_length k0 (cache c) Hk0). lia.
Qed.

(** As long as no stored key is the empty string, [set] keeps the
    size of the cache within a positive whole [maxSize]. *)
Lemma set_size_bounded (c : t T) (limit : nat) (p : string) (R : T) (now : Z) :
  maxSize c == Qnat limit ->
  (1 <= limit)%nat ->
  NoDup (map fst (cache c)) ->
  (forall k, In k (map fst (cache c)) -> k <> EmptyString) ->
  (size c <= limit)%nat ->
  (size (set p R now c) <= limit)%nat.
Proof.
  intros Hmax Hpos Hnd Hkeys Hsize.
  destruct (map_has (normalizePrompt p) (cache c)) eqn:Ehas.
  - unfold size, set. cbn [cache with_cache].
    rewrite Ehas, andb_false_r.
    now rewrite map_set_length_present.
  - destruct (num_ge (map_size (cache c)) (maxSize c)) eqn:Efull.
    + assert (Hne : cache c <> []).
      { intros Hnil. apply num_ge_iff in Efull.
        rewrite Hmax, Hnil in Efull. unfold map_size, Qnat, Qle in Efull.
        simpl in Efull. lia. }
      destruct (@set_evicts_oldest c p R now Hnd Hne Efull Ehas)
        as (k0 & e0 & _ & _ & _ & _ & _ & Hsame).
      * intros k Hk.
        destruct (find_oldest_is_oldest Hne) as (k' & e' & Hk' & Hin & _).
        rewrite Hk in Hk'. injection Hk' as <-.
        apply Hkeys. now apply (in_map fst) in Hin.
      * now rewrite Hsame.
    + unfold size, set. cbn [cache with_cache].
      rewrite Efull. cbn [andb].
      rewrite map_set_new by exact Ehas. rewrite length_app. simpl.
      assert (Hlt : ~ (maxSize c <= map_size (cache c))).
      { intros H. apply num_ge_iff in H. congruence. }
      rewrite Hmax in Hlt. unfold map_size, Qnat, Qle in Hlt. simpl in Hlt.
      lia.
Qed.

End CacheFacts.

Section CacheWitnesses.

Import Similarity AICache.
Local Open Scope string_scope.

Lemma constructor_zero_option_is_default_witness :
  similarityThreshold
    (constructor nat
       {| opt_maxSize := None; opt_ttlMs := None;
          opt_similarityThreshold := Some 0%Q;
          opt_enableFuzzyMatching := None |})
  = (95 # 100)%Q.
Proof.
  apply (proj1 (constructor_zero_option_is_default nat
                  {| opt_maxSize := None; opt_ttlMs := None;
                     opt_similarityThreshold := Some 0%Q;
                     opt_enableFuzzyMatching := None |}) 0%Q).
  - reflexivity.
  - reflexivity.
Defined.

Lemma get_after_set_same_normal_form_witness :
  fst (get "  hello   world  " 10
         (set "Hello World" 7%nat 0 (constructor nat (no_options)))) = Some 7%nat.
Proof.
  apply get_after_set_same_normal_form.
  - reflexivity.
  - reflexivity.
Defined.

(** The eviction scenario of the specification: with room for two
    entries, storing under A, then B, then C leaves A a miss and B and
    C hits. *)
Example eviction_of_the_oldest :
  let c0 := constructor string
              {| opt_maxSize := Some 2%Q; opt_ttlMs := None;
                 opt_similarityThreshold := None;
                 opt_enableFuzzyMatching := None |} in
  let c3 := set "C" "rc" 3 (set "B" "rb" 2 (set "A" "ra" 1 c0)) in
  size c3 = 2%nat
  /\ fst (get "A" 4 c3) = None
  /\ fst (get "B" 4 c3) = Some "rb"
  /\ fst (get "C" 4 c3) = Some "rc".
Proof. vm_compute. repeat split. Qed.

(** C6, at the failing input.  With room for two entries, storing
    under the blank prompt (whose key is the empty string), then B,
    then C: the oldest key is the empty string, which the truthiness
    test of [oldestKey] takes for no key at all; nothing is evicted,
    the cache holds three entries and the oldest one is still served. *)
Theorem empty_oldest_key_is_not_evicted :
  let c0 := constructor string
              {| opt_maxSize := Some 2%Q; opt_ttlMs := None;
                 opt_similarityThreshold := None;
                 opt_enableFuzzyMatching := None |} in
  let c2 := set "B" "rb" 2 (set " " "ra" 1 c0) in
  let c3 := set "C" "rc" 3 c2 in
  size c2 = 2%nat
  /\ (maxSize c3 == 2)%Q
  /\ fst (find_oldest (cache c2) (None, None)) = Some EmptyString
  /\ size c3 = 3%nat
  /\ fst (get " " 4 c3) = Some "ra".
Proof. vm_compute. repeat split. Qed.

End CacheWitnesses.

(* ===================================================================== *)
(** * Properties of the request batcher                                  *)
(* ===================================================================== *)

Section BatcherFacts.

Import RequestBatcher.
Local Open Scope nat_scope.

Variables T O X : Type.
Variable processBatchFn : nat -> list string -> list O -> list T + X.

(** ** Lists *)

Lemma filter_andb {A : Type} (f g : A -> bool) (l : list A) :
  filter (fun x => f x && g x) l = filter g (filter f l).
Proof.
  induction l as [|x l IH]; simpl; [reflexivity |].
  destruct (f x); simpl; [destruct (g x); simpl; congruence | exact IH].
Qed.

Lemma filter_all {A : Type} (f : A -> bool) (l : list A) :
  (forall x, In x l -> f x = true) -> filter f l = l.
Proof.
  induction l as [|x l IH]; simpl; intros H; [reflexivity |].
  rewrite (H x) by auto. f_equal. apply IH. auto.
Qed.

Lemma filter_none {A : Type} (f : A -> bool) (l : list A) :
  (forall x, In x l -> f x = false) -> filter f l = [].
Proof.
  induction l as [|x l IH]; simpl; intros H; [reflexivity |].
  rewrite (H x) by auto. apply IH. auto.
Qed.

(** Dropping requests keeps their identifiers distinct. *)
Lemma ids_distinct_filter (keep : QueuedRequest O -> bool) (rq : list (QueuedRequest O)) :
  NoDup (map (@id O) rq) -> NoDup (map (@id O) (filter keep rq)).
Proof.
  induction rq as [|r rq IH]; simpl; intros Hnd; [constructor |].
  apply NoDup_cons_iff in Hnd as [Hfresh Hnd].
  destruct (keep r); simpl; [| now apply IH].
  apply NoDup_cons; [| now apply IH].
  rewrite in_map_iff. intros (r' & Hid & Hin).
  apply filter_In in Hin as [Hin _].
  apply Hfresh. rewrite <- Hid. now apply in_map.
Qed.

Lemma NoDup_app_disjoint {A : Type} (l1 l2 : list A) (a : A) :
  NoDup (l1 ++ l2) -> In a l1 -> In a l2 -> False.
Proof.
  induction l1 as [|x l1 IH]; simpl; intros Hnd H1 H2; [contradiction |].
  inversion Hnd as [|? ? Hnotin Hnd']; subst.
  destruct H1 as [-> | H1]; [| now apply IH].
  apply Hnotin, in_or_app. now right.
Qed.

(** ** Settling a batch *)

Lemma map_fst_resolve_each (results : list T) (batch : list (QueuedRequest O)) :
  forall index,
    map fst (resolve_each (X := X) results index batch) = map (@id O) batch.
Proof.
  induction batch as [|item rest IH]; intros index; simpl; [reflexivity |].
  now rewrite IH.
Qed.

Lemma map_fst_reject_each (why : rejection X) (batch : list (QueuedRequest O)) :
  map fst (reject_each (T := T) why batch) = map (@id O) batch.
Proof. unfold reject_each. rewrite map_map. reflexivity. Qed.

Lemma map_fst_settle_batch (k : nat) (batch : list (QueuedRequest O)) :
  map fst (settle_batch processBatchFn k batch) = map (@id O) batch.
Proof.
  unfold settle_batch.
  destruct (processBatchFn k _ _);
    [apply map_fst_resolve_each | apply map_fst_reject_each].
Qed.

Lemma resolve_each_not_cleared (results : list T) (batch : list (QueuedRequest O)) :
  forall index (s : nat * settlement T X),
    In s (resolve_each results index batch) ->
    is_cleared s = false.
Proof.
  induction batch as [|item rest IH]; intros index s; simpl; [tauto |].
  intros [<- | H]; [reflexivity | eauto].
Qed.

Lemma settle_batch_not_cleared (k : nat) (batch : list (QueuedRequest O)) :
  forall s, In s (settle_batch processBatchFn k batch) -> is_cleared s = false.
Proof.
  unfold settle_batch. intros s.
  destruct (processBatchFn k _ _).
  - apply resolve_each_not_cleared.
  - unfold reject_each. intros H. apply in_map_iff in H as (item & <- & _).
    reflexivity.
Qed.

Lemma cleared_in_app (i : nat) (st st' : list (nat * settlement T X)) :
  cleared_in i (st ++ st') = cleared_in i st || cleared_in i st'.
Proof. unfold cleared_in. apply existsb_app. Qed.

Lemma cleared_in_settle_batch (i k : nat) (batch : list (QueuedRequest O)) :
  cleared_in i (settle_batch processBatchFn k batch) = false.
Proof.
  unfold cleared_in. apply not_true_is_false. intros H.
  apply existsb_exists in H as (s & Hin & Hs).
  apply andb_true_iff in Hs as [_ Hs].
  rewrite (settle_batch_not_cleared _ _ _ Hin) in Hs. discriminate.
Qed.

Lemma cleared_in_reject_each (i : nat) (reason : string) (q : list (QueuedRequest O)) :
  cleared_in i (reject_each (T := T) (X := X) (QueueCleared reason) q)
  = existsb (fun r => Nat.eqb (id r) i) q.
Proof.
  unfold cleared_in, reject_each. induction q as [|r q IH]; simpl; [reflexivity |].
  rewrite IH. unfold is_cleared. simpl. now rewrite andb_true_r.
Qed.

Lemma cleared_in_In (i : nat) (st : list (nat * settlement T X)) :
  cleared_in i st = true -> In i (map fst st).
Proof.
  unfold cleared_in. intros H. apply existsb_exists in H as (s & Hin & Hs).
  apply andb_true_iff in Hs as [Hs _]. apply Nat.eqb_eq in Hs. subst i.
  now apply in_map.
Qed.

(** ** The bookkeeping invariant under the four operations *)

Lemma core_settled_bound q n aw cl st rq :
  core processBatchFn q n aw cl st rq ->
  forall i, In i (map fst st) -> 1 <= i <= n.
Proof.
  intros (Hids & Hperm & _) i Hi.
  assert (Hin : In i (seq 1 n)).
  { rewrite <- Hids. eapply Permutation_in; [exact Hperm |].
    apply in_or_app. now left. }
  apply in_seq in Hin. lia.
Qed.

Lemma core_push q n aw cl st rq (r : QueuedRequest O) :
  id r = S n ->
  core processBatchFn q n aw cl st rq ->
  core processBatchFn (q ++ [r]) (S n) aw cl st (rq ++ [r]).
Proof.
  intros Hr Hcore.
  pose proof (core_settled_bound Hcore) as Hbound.
  destruct Hcore as (Hids & Hperm & Hfifo & Hcalls & Haw).
  repeat split.
  - rewrite map_app, Hids, seq_S. simpl. now rewrite Hr.
  - rewrite (app_assoc _ q [r]), !map_app.
    rewrite (app_assoc (map fst st)). rewrite <- map_app.
    apply Permutation_app_tail. exact Hperm.
  - rewrite filter_app, <- Hfifo, app_assoc. f_equal. simpl.
    destruct (cleared_in (id r) st) eqn:E; [| reflexivity].
    apply cleared_in_In in E. apply Hbound in E. lia.
  - exact Hcalls.
  - exact Haw.
Qed.

Lemma core_dispatch (c : nat) q n cl st rq :
  core processBatchFn q n [] cl st rq ->
  core processBatchFn (skipn c q) n [(List.length cl, firstn c q)]
       (cl ++ [firstn c q]) st rq.
Proof.
  intros (Hids & Hperm & Hfifo & Hcalls & Haw).
  repeat split.
  - exact Hids.
  - simpl. rewrite app_nil_r, firstn_skipn. exact Hperm.
  - rewrite concat_app. simpl. rewrite app_nil_r, <- app_assoc, firstn_skipn.
    exact Hfifo.
  - intros k batch Hk.
    destruct (Nat.lt_ge_cases k (List.length cl)) as [Hlt | Hge].
    + rewrite nth_error_app1 in Hk by exact Hlt.
      destruct (Hcalls k batch Hk) as [[] | Hincl]. now right.
    + rewrite nth_error_app2 in Hk by exact Hge.
      destruct (k - List.length cl) as [|d] eqn:Ed; simpl in Hk.
      * injection Hk as <-. left. left. f_equal. lia.
      * destruct d; discriminate.
  - intros k batch [Heq | []]. injection Heq as <- <-.
    rewrite nth_error_app2 by lia. now rewrite Nat.sub_diag.
Qed.

Lemma core_resume q n k batch cl st rq :
  core processBatchFn q n [(k, batch)] cl st rq ->
  core processBatchFn q n [] cl (st ++ settle_batch processBatchFn k batch) rq.
Proof.
  intros (Hids & Hperm & Hfifo & Hcalls & Haw).
  repeat split.
  - exact Hids.
  - simpl in *. rewrite app_nil_r in Hperm.
    rewrite map_app, map_fst_settle_batch, <- app_assoc, <- map_app.
    exact Hperm.
  - rewrite Hfifo. apply filter_ext. intros r.
    now rewrite cleared_in_app, cleared_in_settle_batch, orb_false_r.
  - intros k' batch' Hk'. right.
    destruct (Hcalls k' batch' Hk') as [[Heq | []] | Hincl].
    + injection Heq as <- <-. apply incl_appr, incl_refl.
    + apply incl_appl. exact Hincl.
  - intros k' batch' [].
Qed.

Lemma core_clear (reason : string) q n aw cl st rq :
  core processBatchFn q n aw cl st rq ->
  core processBatchFn [] n aw cl
       (st ++ reject_each (QueueCleared reason) q) rq.
Proof.
  intros (Hids & Hperm & Hfifo & Hcalls & Haw).
  repeat split.
  - exact Hids.
  - rewrite app_nil_r, map_app, map_fst_reject_each, <- app_assoc.
    rewrite map_app in Hperm.
    eapply Permutation_trans; [| exact Hperm].
    apply Permutation_app_head, Permutation_app_comm.
  - rewrite app_nil_r.
    assert (Hnd : NoDup (map (@id O) (List.concat cl ++ q))).
    { rewrite Hfifo. apply ids_distinct_filter. rewrite Hids. apply seq_NoDup. }
    transitivity
      (filter (fun r => negb (existsb (fun r' => Nat.eqb (id r') (id r)) q))
              (filter (fun r => negb (cleared_in (id r) st)) rq)).
    + rewrite <- Hfifo, filter_app.
      rewrite map_app in Hnd.
      rewrite (@filter_none _ _ q), app_nil_r.
      * symmetry. apply filter_all. intros r Hr.
        apply negb_true_iff, not_true_is_false. intros Hex.
        apply existsb_exists in Hex as (r' & Hr' & He).
        apply Nat.eqb_eq in He.
        apply (NoDup_app_disjoint _ _ (id r) Hnd).
        -- now apply in_map.
        -- rewrite <- He. now apply in_map.
      * intros r Hr. apply negb_false_iff, existsb_exists.
        exists r. split; [exact Hr | apply Nat.eqb_refl].
    + rewrite <- filter_andb. apply filter_ext. intros r.
      now rewrite cleared_in_app, cleared_in_reject_each, negb_orb.
  - intros k batch Hk. destruct (Hcalls k batch Hk) as [Hin | Hincl];
      [now left | right; now apply incl_appl].
  - exact Haw.
Qed.

Lemma sized_dispatch (mbs : Z) (q : list (QueuedRequest O)) cl :
  sized mbs cl -> q <> [] -> sized mbs (cl ++ [firstn (Z.to_nat mbs) q]).
Proof.
  intros Hs Hq. apply Forall_app. split; [exact Hs |].
  constructor; [| constructor]. split.
  - apply firstn_le_length.
  - intros Hpos Hnil. destruct q as [|r q]; [congruence |].
    destruct (Z.to_nat mbs) eqn:E; [lia | discriminate].
Qed.

(** ** The invariant under every event *)

Lemma inv_init (options : BatcherOptions) :
  inv processBatchFn (init options).
Proof.
  unfold inv, init, core, ctl, sized. simpl.
  repeat split; try reflexivity; try discriminate; try congruence; auto.
  - intros k batch Hk. destruct k; discriminate.
  - intros k batch [].
Qed.

Lemma append_nonempty {A : Type} (l : list A) (x : A) : l ++ [x] <> [].
Proof. destruct l; discriminate. Qed.

Lemma length_append_eqb {A : Type} (l : list A) (x : A) :
  Nat.eqb (List.length (l ++ [x])) 0 = false.
Proof. rewrite length_app. simpl. apply Nat.eqb_neq. lia. Qed.

Lemma inv_addRequest (p : string) (o : O) (now : Z) (w : world T O X) :
  inv processBatchFn w -> inv processBatchFn (addRequest p o now w).
Proof.
  destruct w as [[q mbs md mt bt busy n] tm nt aw cl st rq].
  unfold inv. simpl. intros (Hcore & Hctl & Hsz).
  set (r := {| id := S n; prompt := p; options := o; timestamp := now |}).
  assert (Hcore' : core processBatchFn (q ++ [r]) (S n) aw cl st (rq ++ [r]))
    by (now apply core_push).
  destruct Hctl as (Htm & Hbusy & Hidle & Htq).
  unfold addRequest. simpl. fold r.
  destruct busy.
  - destruct (Hbusy eq_refl) as (-> & k & batch & ->).
    simpl. rewrite andb_false_r. simpl.
    split; [exact Hcore' | split; [| exact Hsz]].
    unfold ctl. repeat split; auto; try discriminate; try congruence.
    exists k, batch. reflexivity.
  - destruct (Hidle eq_refl) as (-> & Hq). subst tm.
    assert (Hdispatch :
      forall bt' nt',
        inv processBatchFn
          (processBatch
             {| self := {| queue := q ++ [r]; maxBatchSize := mbs;
                           maxDelayMs := md; maxTokensPerBatch := mt;
                           batchTimer := bt'; isProcessing := false;
                           idCounter := S n |};
                timers := []; nextTimer := nt'; awaiting := [];
                calls := cl; settlements := st; requests := rq ++ [r] |})).
    { intros bt' nt'. unfold processBatch. simpl.
      rewrite length_append_eqb. unfold dispatch, inv. simpl.
      split; [now apply core_dispatch | split].
      - unfold ctl. repeat split; try discriminate; try congruence. eauto.
      - apply sized_dispatch; [exact Hsz | apply append_nonempty]. }
    destruct bt as [h |]; simpl; rewrite andb_true_r.
    + destruct (mbs <=? Z.of_nat (List.length (q ++ [r])))%Z; simpl.
      * rewrite Nat.eqb_refl. simpl. apply Hdispatch.
      * split; [exact Hcore' | split; [| exact Hsz]].
        unfold ctl. repeat split; auto; try discriminate; try congruence.
        intros _. apply append_nonempty.
    + destruct (mbs <=? Z.of_nat (List.length (q ++ [r])))%Z; simpl.
      * rewrite Nat.eqb_refl. simpl. apply Hdispatch.
      * split; [exact Hcore' | split; [| exact Hsz]].
        unfold ctl. repeat split; auto; try discriminate; try congruence.
        intros _. apply append_nonempty.
Qed.

Lemma inv_fire (h : nat) (w : world T O X) :
  inv processBatchFn w -> inv processBatchFn (fire h w).
Proof.
  destruct w as [[q mbs md mt bt busy n] tm nt aw cl st rq].
  unfold inv. simpl. intros (Hcore & Hctl & Hsz).
  unfold fire. simpl.
  destruct (existsb (Nat.eqb h) tm) eqn:Eh; [| auto].
  destruct Hctl as (Htm & Hbusy & Hidle & Htq).
  destruct bt as [h' |]; subst tm; simpl in Eh; [| discriminate].
  rewrite orb_false_r in Eh. apply Nat.eqb_eq in Eh. subst h'.
  destruct busy; [destruct (Hbusy eq_refl) as [Hn _]; discriminate |].
  destruct (Hidle eq_refl) as (-> & _).
  assert (Hq : q <> []) by (apply Htq; discriminate).
  unfold processBatch. simpl. rewrite Nat.eqb_refl. simpl.
  destruct q as [|r q]; [congruence |]. simpl.
  unfold dispatch. simpl.
  split; [| split].
  - apply (core_dispatch (Z.to_nat mbs) Hcore).
  - unfold ctl. repeat split; try discriminate; try congruence. eauto.
  - now apply sized_dispatch.
Qed.

Lemma inv_resume (k : nat) (w : world T O X) :
  inv processBatchFn w -> inv processBatchFn (resume processBatchFn k w).
Proof.
  destruct w as [[q mbs md mt bt busy n] tm nt aw cl st rq].
  unfold inv. simpl. intros (Hcore & Hctl & Hsz).
  unfold resume. simpl.
  destruct (nth_error aw k) as [[c batch] |] eqn:Ek; [| auto].
  destruct Hctl as (Htm & Hbusy & Hidle & Htq).
  destruct busy; [| destruct (Hidle eq_refl) as (-> & _); destruct k; discriminate].
  destruct (Hbusy eq_refl) as (-> & c' & batch' & ->). subst tm.
  destruct k as [|k]; simpl in Ek; [| destruct k; discriminate].
  injection Ek as <- <-.
  apply core_resume in Hcore.
  destruct q as [|r q]; simpl.
  - split; [exact Hcore | split; [| exact Hsz]].
    unfold ctl. repeat split; auto; try discriminate; try congruence.
  - split; [exact Hcore | split; [| exact Hsz]].
    unfold ctl. repeat split; auto; try discriminate; try congruence.
Qed.

Lemma inv_clearQueue (reason : string) (w : world T O X) :
  inv processBatchFn w -> inv processBatchFn (clearQueue reason w).
Proof.
  destruct w as [[q mbs md mt bt busy n] tm nt aw cl st rq].
  unfold inv. simpl. intros (Hcore & Hctl & Hsz).
  apply (core_clear reason) in Hcore.
  destruct Hctl as (Htm & Hbusy & Hidle & Htq).
  unfold clearQueue. simpl.
  destruct bt as [h |]; simpl.
  - split; [exact Hcore | split; [| exact Hsz]].
    subst tm. simpl. rewrite Nat.eqb_refl. simpl.
    destruct busy; [destruct (Hbusy eq_refl) as [Hn _]; discriminate |].
    destruct (Hidle eq_refl) as (-> & _).
    unfold ctl. repeat split; auto; try discriminate; try congruence.
  - split; [exact Hcore | split; [| exact Hsz]].
    unfold ctl. split; [exact Htm | split; [| split]].
    + exact Hbusy.
    + intros Hb. destruct (Hidle Hb) as [Haw _]. split; [exact Haw | congruence].
    + congruence.
Qed.

Lemma inv_step (w : world T O X) (e : event O) :
  inv processBatchFn w -> inv processBatchFn (step processBatchFn w e).
Proof.
  destruct e; simpl;
    [apply inv_addRequest | apply inv_fire | apply inv_resume
     | apply inv_clearQueue].
Qed.

Lemma inv_run (es : list (event O)) :
  forall w, inv processBatchFn w -> inv processBatchFn (run processBatchFn es w).
Proof.
  induction es as [|e es IH]; intros w Hw; simpl; [exact Hw |].
  apply IH. now apply inv_step.
Qed.

(** ** What the events leave alone *)

Lemma addRequest_frame (p : string) (o : O) (now : Z) (w : world T O X) :
  let w' := addRequest p o now w in
  maxBatchSize (self w') = maxBatchSize (self w)
  /\ settlements w' = settlements w
  /\ requests w'
     = requests w
       ++ [{| id := S (idCounter (self w)); prompt := p; options := o;
              timestamp := now |}].
Proof.
  destruct w as [[q mbs md mt bt busy n] tm nt aw cl st rq].
  unfold addRequest. simpl.
  destruct bt as [h |], busy; simpl;
    rewrite ?andb_true_r, ?andb_false_r; simpl;
    try (repeat split; reflexivity).
  all: destruct (mbs <=? _)%Z; simpl; try (repeat split; reflexivity).
  all: unfold processBatch; simpl; rewrite length_append_eqb; simpl.
  all: repeat split; reflexivity.
Qed.

Lemma fire_frame (h : nat) (w : world T O X) :
  let w' := fire h w in
  maxBatchSize (self w') = maxBatchSize (self w)
  /\ settlements w' = settlements w
  /\ requests w' = requests w.
Proof.
  destruct w as [[q mbs md mt bt busy n] tm nt aw cl st rq].
  unfold fire. simpl.
  destruct (existsb (Nat.eqb h) tm); [| repeat split; reflexivity].
  unfold processBatch. simpl.
  destruct busy, q; simpl; repeat split; reflexivity.
Qed.

Lemma resume_frame (k : nat) (w : world T O X) :
  let w' := resume processBatchFn k w in
  maxBatchSize (self w') = maxBatchSize (self w)
  /\ requests w' = requests w
  /\ (settlements w' = settlements w
      \/ exists c batch,
           settlements w' = settlements w ++ settle_batch processBatchFn c batch).
Proof.
  destruct w as [[q mbs md mt bt busy n] tm nt aw cl st rq].
  unfold resume. simpl.
  destruct (nth_error aw k) as [[c batch] |]; [| repeat split; now left].
  destruct q; simpl; repeat split; right; exists c, batch; reflexivity.
Qed.

Lemma clearQueue_frame (reason : string) (w : world T O X) :
  let w' := clearQueue reason w in
  maxBatchSize (self w') = maxBatchSize (self w)
  /\ requests w' = requests w.
Proof.
  destruct w as [[q mbs md mt bt busy n] tm nt aw cl st rq].
  unfold clearQueue. simpl. destruct bt; simpl; split; reflexivity.
Qed.

Lemma maxBatchSize_step (w : world T O X) (e : event O) :
  maxBatchSize (self (step processBatchFn w e)) = maxBatchSize (self w).
Proof.
  destruct e; simpl.
  - apply addRequest_frame.
  - apply fire_frame.
  - apply resume_frame.
  - apply clearQueue_frame.
Qed.

Lemma maxBatchSize_run (es : list (event O)) :
  forall w, maxBatchSize (self (run processBatchFn es w)) = maxBatchSize (self w).
Proof.
  induction es as [|e es IH]; intros w; simpl; [reflexivity |].
  now rewrite IH, maxBatchSize_step.
Qed.

Lemma requests_step (w : world T O X) (e : event O) :
  map (@prompt O) (requests (step processBatchFn w e))
  = map (@prompt O) (requests w) ++ enqueued_prompts [e].
Proof.
  destruct e as [p o now | h | k | reason]; simpl.
  - destruct (addRequest_frame p o now w) as (_ & _ & ->).
    now rewrite map_app.
  - destruct (fire_frame h w) as (_ & _ & ->). now rewrite app_nil_r.
  - destruct (resume_frame k w) as (_ & -> & _). now rewrite app_nil_r.
  - destruct (clearQueue_frame reason w) as (_ & ->). now rewrite app_nil_r.
Qed.

Lemma requests_run (es : list (event O)) :
  forall w,
    map (@prompt O) (requests (run processBatchFn es w))
    = map (@prompt O) (requests w) ++ enqueued_prompts es.
Proof.
  induction es as [|e es IH]; intros w; simpl.
  - now rewrite app_nil_r.
  - rewrite IH, requests_step. simpl. rewrite <- app_assoc.
    destruct e; reflexivity.
Qed.

(** ** Counting the resolutions of a request *)

Lemma resolutions_absent (i : nat) (w : world T O X) :
  ~ In i (map fst (settlements w)) -> resolutions i w = 0.
Proof.
  unfold resolutions. induction (settlements w) as [|s st IH]; simpl;
    intros H; [reflexivity |].
  destruct (Nat.eqb_spec (fst s) i) as [E | NE]; [tauto |].
  apply IH. tauto.
Qed.

Lemma resolutions_present (i : nat) (w : world T O X) :
  NoDup (map fst (settlements w)) ->
  In i (map fst (settlements w)) -> resolutions i w = 1.
Proof.
  unfold resolutions. induction (settlements w) as [|s st IH]; simpl;
    intros Hnd H; [contradiction |].
  inversion Hnd as [|? ? Hnotin Hnd']; subst.
  destruct (Nat.eqb_spec (fst s) i) as [E | NE]; simpl.
  - subst i. f_equal.
    change (resolutions (fst s)
              {| self := self w; timers := []; nextTimer := 0; awaiting := [];
                 calls := []; settlements := st; requests := [] |} = 0).
    now apply resolutions_absent.
  - destruct H as [H | H]; [congruence |]. now apply IH.
Qed.

Lemma settlement_unique (st : list (nat * settlement T X)) i s s' :
  NoDup (map fst st) -> In (i, s) st -> In (i, s') st -> s = s'.
Proof.
  induction st as [|x st IH]; simpl; intros Hnd H H'; [contradiction |].
  inversion Hnd as [|? ? Hnotin Hnd']; subst.
  destruct H as [-> | H], H' as [E | H'].
  - congruence.
  - exfalso. apply Hnotin. simpl. now apply (in_map fst) in H'.
  - subst x. exfalso. apply Hnotin. simpl. now apply (in_map fst) in H.
  - now apply IH.
Qed.

Lemma inv_NoDup (w : world T O X) :
  inv processBatchFn w ->
  NoDup (map fst (settlements w) ++ map (@id O) (pending w)).
Proof.
  intros ((Hids & Hperm & _) & _). unfold pending.
  eapply Permutation_NoDup; [symmetry; exact Hperm |].
  rewrite Hids. apply seq_NoDup.
Qed.

(** Every request ever enqueued is pending and unsettled, or settled
    exactly once and no longer pending. *)
Lemma inv_resolutions (w : world T O X) (r : QueuedRequest O) :
  inv processBatchFn w ->
  In r (requests w) ->
  (In (id r) (map (@id O) (pending w)) /\ resolutions (id r) w = 0)
  \/ (~ In (id r) (map (@id O) (pending w)) /\ resolutions (id r) w = 1).
Proof.
  intros Hinv Hr. pose proof (inv_NoDup Hinv) as Hnd.
  destruct Hinv as ((Hids & Hperm & _) & _).
  assert (Hin : In (id r) (map fst (settlements w) ++ map (@id O) (pending w))).
  { eapply Permutation_in; [symmetry; exact Hperm |]. now apply in_map. }
  apply in_app_or in Hin as [Hs | Hp].
  - right. split.
    + intros Hp. exact (NoDup_app_disjoint _ _ _ Hnd Hs Hp).
    + apply resolutions_present; [| exact Hs].
      now apply NoDup_app_remove_r in Hnd.
  - left. split; [exact Hp |]. apply resolutions_absent.
    intros Hs. exact (NoDup_app_disjoint _ _ _ Hnd Hs Hp).
Qed.

Lemma inv_resolutions_le (w : world T O X) (i : nat) :
  inv processBatchFn w -> resolutions i w <= 1.
Proof.
  intros Hinv. pose proof (inv_NoDup Hinv) as Hnd.
  apply NoDup_app_remove_r in Hnd.
  destruct (in_dec Nat.eq_dec i (map fst (settlements w))) as [Hin | Hout].
  - rewrite resolutions_present by assumption. lia.
  - rewrite resolutions_absent by assumption. lia.
Qed.

(** A waiting request is never stranded: a timer is armed or a batch
    is in flight. *)
Lemma inv_not_stuck (w : world T O X) :
  inv processBatchFn w ->
  pending w <> [] -> timers w <> [] \/ awaiting w <> [].
Proof.
  intros (_ & (Htm & Hbusy & Hidle & Htq) & _) Hp.
  destruct (isProcessing (self w)) eqn:Eb.
  - destruct (Hbusy eq_refl) as (_ & k & batch & ->). right. discriminate.
  - destruct (Hidle eq_refl) as (Haw & Hq). left.
    unfold pending in Hp. rewrite Haw in Hp. simpl in Hp.
    specialize (Hq Hp). rewrite Htm.
    destruct (batchTimer (self w)); [discriminate | congruence].
Qed.

(** ** Letting the batcher run dry *)

Lemma resume_progress (w : world T O X) :
  inv processBatchFn w -> awaiting w <> [] ->
  let w' := resume processBatchFn 0 w in
  S (work w') = work w /\ requests w' = requests w.
Proof.
  destruct w as [[q mbs md mt bt busy n] tm nt aw cl st rq].
  unfold inv, work. simpl. intros (_ & (Htm & Hbusy & Hidle & Htq) & _) Haw.
  destruct busy; [| destruct (Hidle eq_refl) as (-> & _); congruence].
  destruct (Hbusy eq_refl) as (-> & k & batch & ->).
  unfold resume. simpl. destruct q as [|r q]; simpl; split; auto; lia.
Qed.

Lemma fire_progress (h : nat) (w : world T O X) :
  inv processBatchFn w -> (0 < maxBatchSize (self w))%Z ->
  awaiting w = [] -> In h (timers w) ->
  let w' := fire h w in
  work w' < work w /\ requests w' = requests w.
Proof.
  destruct w as [[q mbs md mt bt busy n] tm nt aw cl st rq].
  unfold inv, work. simpl.
  intros (_ & (Htm & Hbusy & Hidle & Htq) & _) Hpos -> Hh.
  destruct busy; [destruct (Hbusy eq_refl) as (_ & k & batch & Hn); discriminate |].
  destruct bt as [h' |]; subst tm; [| contradiction].
  destruct Hh as [-> | []].
  assert (Hq : q <> []) by (apply Htq; discriminate).
  unfold fire. simpl. rewrite Nat.eqb_refl. simpl.
  unfold processBatch. simpl.
  destruct q as [|r q]; [congruence |]. simpl.
  unfold dispatch, splice_count. simpl.
  destruct (Z.to_nat mbs) as [|c] eqn:Ec; [lia |].
  simpl. split; [| reflexivity].
  pose proof (length_skipn c q). lia.
Qed.

Lemma drain_settles (fuel : nat) :
  forall w,
    inv processBatchFn w -> (0 < maxBatchSize (self w))%Z ->
    work w <= fuel ->
    let w' := drain processBatchFn fuel w in
    inv processBatchFn w' /\ pending w' = [] /\ timers w' = []
    /\ requests w' = requests w.
Proof.
  induction fuel as [|fuel IH]; intros w Hinv Hpos Hwork; simpl.
  - unfold work in Hwork.
    assert (Hq : queue (self w) = []) by (apply length_zero_iff_nil; lia).
    assert (Ha : awaiting w = []) by (apply length_zero_iff_nil; lia).
    split; [exact Hinv | split; [| split; [| reflexivity]]].
    + unfold pending. now rewrite Hq, Ha.
    + destruct Hinv as (_ & (Htm & _ & _ & Htq) & _). rewrite Htm.
      destruct (batchTimer (self w)); [| reflexivity].
      exfalso. apply Htq; [discriminate | exact Hq].
  - unfold next_event. destruct (awaiting w) as [|x aw] eqn:Ea.
    + destruct (timers w) as [|h tm] eqn:Et.
      * split; [exact Hinv | split; [| split; [exact Et | reflexivity]]].
        pose proof (inv_not_stuck Hinv) as Hns.
        destruct (pending w) eqn:Ep; [reflexivity |].
        destruct Hns as [Hn | Hn]; [discriminate | congruence | congruence].
      * simpl.
        assert (Hh : In h (timers w)) by (rewrite Et; now left).
        destruct (fire_progress h Hinv Hpos Ea Hh) as (Hlt & Hrq).
        destruct (IH (fire h w)) as (Hi & Hp & Ht & Hr).
        -- now apply inv_fire.
        -- change (fire h w) with (step processBatchFn w (TimerFires h)).
           now rewrite maxBatchSize_step.
        -- lia.
        -- cbv zeta in *.
           split; [exact Hi | split; [exact Hp | split; [exact Ht |]]].
           now rewrite Hr.
    + simpl.
      assert (Hne : awaiting w <> []) by (rewrite Ea; discriminate).
      destruct (resume_progress Hinv Hne) as (Hlt & Hrq).
      destruct (IH (resume processBatchFn 0 w)) as (Hi & Hp & Ht & Hr).
      * now apply inv_resume.
      * change (resume processBatchFn 0 w)
          with (step processBatchFn w (BatchSettles 0)).
        now rewrite maxBatchSize_step.
      * lia.
      * cbv zeta in *.
           split; [exact Hi | split; [exact Hp | split; [exact Ht |]]].
           now rewrite Hr.
Qed.

(** ** Runs without [clearQueue] *)

Lemma settlements_step (w : world T O X) (e : event O) :
  (forall reason, e <> ClearQueue reason) ->
  forall s, In s (settlements (step processBatchFn w e)) ->
    In s (settlements w) \/ is_cleared s = false.
Proof.
  intros Hne s.
  destruct e as [p o now | h | k | reason]; simpl.
  - destruct (addRequest_frame p o now w) as (_ & -> & _). now left.
  - destruct (fire_frame h w) as (_ & -> & _). now left.
  - destruct (resume_frame k w) as (_ & _ & [-> | (c & batch & ->)]);
      [now left |].
    intros Hin. apply in_app_or in Hin as [Hin | Hin]; [now left | right].
    eapply settle_batch_not_cleared. exact Hin.
  - now destruct (Hne reason).
Qed.

Lemma never_cleared_run (es : list (event O)) :
  never_cleared es ->
  forall w,
    (forall s, In s (settlements w) -> is_cleared s = false) ->
    forall s, In s (settlements (run processBatchFn es w)) ->
      is_cleared s = false.
Proof.
  induction es as [|e es IH]; intros Hnc w Hw; simpl; [exact Hw |].
  apply IH.
  - intros reason Hin. apply (Hnc reason). now right.
  - intros s Hs. apply settlements_step in Hs as [Hs | Hs]; auto.
    intros reason ->. apply (Hnc reason). now left.
Qed.


(** C1.  After any sequence of enqueues, timer firings, batch
    completions and queue clearings, the requests enqueued are numbered
    in the order of the [addRequest] calls, and every one of them has
    received no resolution while it waits (in the queue or in the batch
    in flight) and exactly one once it no longer waits; no promise is
    ever settled twice; a waiting request always has a timer armed or a
    batch in flight ahead of it; and, the batch size being positive,
    letting the pending timers fire and the batch in flight settle
    leaves every request with exactly one resolution. *)
Theorem every_request_settled_exactly_once
    (options : BatcherOptions) (es : list (event O)) :
  let w := run processBatchFn es (init options) in
  map (@id O) (requests w) = seq 1 (List.length (enqueued_prompts es))
  /\ (forall r, In r (requests w) ->
     (In (id r) (map (@id O) (pending w)) /\ resolutions (id r) w = 0)
     \/ (~ In (id r) (map (@id O) (pending w)) /\ resolutions (id r) w = 1))
  /\ (forall i, resolutions i w <= 1)
  /\ (pending w <> [] -> timers w <> [] \/ awaiting w <> [])
  /\ ((0 < maxBatchSize (constructor (O := O) options))%Z ->
      forall fuel, work w <= fuel ->
        let w' := drain processBatchFn fuel w in
        pending w' = [] /\ timers w' = [] /\ requests w' = requests w
        /\ forall r, In r (requests w) -> resolutions (id r) w' = 1).
Proof.
  intros w.
  assert (Hinv : inv processBatchFn w) by (apply inv_run, inv_init).
  split; [| split; [| split; [| split]]].
  - destruct Hinv as ((Hids & _) & _). rewrite Hids. f_equal.
    apply (f_equal (@List.length nat)) in Hids.
    rewrite length_map, length_seq in Hids. rewrite <- Hids.
    unfold w. rewrite <- (length_map (@prompt O)), requests_run.
    reflexivity.
  - intros r Hr. now apply inv_resolutions.
  - intros i. now apply inv_resolutions_le.
  - now apply inv_not_stuck.
  - intros Hpos fuel Hfuel.
    assert (Hpos' : (0 < maxBatchSize (self w))%Z).
    { unfold w. now rewrite maxBatchSize_run. }
    destruct (drain_settles Hinv Hpos' Hfuel) as (Hi & Hp & Ht & Hr).
    repeat split; auto.
    intros r Hin. rewrite <- Hr in Hin.
    destruct (inv_resolutions r Hi Hin) as [[Hpend _] | [_ H1]]; [| exact H1].
    rewrite Hp in Hpend. contradiction.
Qed.


(** C3.  After any sequence of events, if a call of [processBatchFn]
    rejected, then no request of its batch is ever settled in any way
    other than a rejection with that same error, so none of them
    resolves; and once the call is no longer in flight every request of
    the batch has been rejected with that error, exactly once. *)
Theorem failed_batch_rejects_every_request
    (options : BatcherOptions) (es : list (event O)) :
  let w := run processBatchFn es (init options) in
  forall k batch error,
    nth_error (calls w) k = Some batch ->
    processBatchFn k (map (@prompt O) batch) (map (@RequestBatcher.options O) batch)
      = inr error ->
    forall item, In item batch ->
      (forall s, In (id item, s) (settlements w) ->
         s = Reject (BatchError error))
      /\ (forall value, ~ In (id item, Resolve value) (settlements w))
      /\ (~ In (k, batch) (awaiting w) ->
          In (id item, Reject (BatchError error)) (settlements w)
          /\ resolutions (id item) w = 1).
Proof.
  intros w k batch error Hk Herr item Hitem.
  assert (Hinv : inv processBatchFn w) by (apply inv_run, inv_init).
  pose proof (inv_NoDup Hinv) as Hnd.
  destruct Hinv as ((Hids & Hperm & Hfifo & Hcalls & Haw) & Hctl & Hsz).
  assert (Hdone : ~ In (k, batch) (awaiting w) ->
                  In (id item, Reject (T := T) (BatchError error)) (settlements w)).
  { intros Hnot. destruct (Hcalls k batch Hk) as [Hin | Hincl]; [contradiction |].
    apply Hincl. unfold settle_batch. rewrite Herr.
    unfold reject_each. apply in_map_iff. now exists item. }
  assert (Hall : forall s, In (id item, s) (settlements w) ->
                           s = Reject (BatchError error)).
  { intros s Hs.
    destruct (in_dec Nat.eq_dec (id item) (map (@id O) (pending w))) as [Hp | Hp].
    - exfalso. apply (NoDup_app_disjoint _ _ (id item) Hnd); [| exact Hp].
      now apply (in_map fst) in Hs.
    - assert (Hnot : ~ In (k, batch) (awaiting w)).
      { intros Hin. apply Hp. unfold pending. rewrite map_app.
        apply in_or_app. left. apply in_map. apply in_concat.
        exists batch. split; [| exact Hitem].
        apply in_map_iff. now exists (k, batch). }
      apply (@settlement_unique (settlements w) (id item));
        [now apply NoDup_app_remove_r in Hnd | exact Hs | now apply Hdone]. }
  split; [exact Hall | split].
  - intros value Hv. apply Hall in Hv. discriminate.
  - intros Hnot. split; [now apply Hdone |].
    apply resolutions_present.
    + now apply NoDup_app_remove_r in Hnd.
    + apply (in_map fst) in Hdone; [exact Hdone | exact Hnot].
Qed.

End BatcherFacts.

Section BatcherWitnesses.

Import RequestBatcher BatcherScenario.
Local Open Scope nat_scope.

Lemma every_request_settled_exactly_once_witness :
  let w := run echo (enqueue 25) (init (batches_of 10)) in
  let w' := drain echo (work w) w in
  pending w' = [] /\ timers w' = [] /\ requests w' = requests w
  /\ forall r, In r (requests w) -> resolutions (id r) w' = 1.
Proof.
  intros w.
  exact (proj2 (proj2 (proj2 (proj2
           (every_request_settled_exactly_once echo (batches_of 10) (enqueue 25)))))
           eq_refl (work w) (le_n _)).
Defined.

(** The scenario of the specification: 25 enqueues, batches of 10, an
    echoing [processBatchFn].  It is called on three groups of 10, 10
    and 5 prompts in the order of arrival, and every request resolves
    with its own prompt. *)
Example twenty_five_in_batches_of_ten :
  let w := run echo twenty_five (init (batches_of 10)) in
  map (map (@prompt unit)) (calls w)
  = [map letter (seq 0 10); map letter (seq 10 10); map letter (seq 20 5)]
  /\ settlements w
     = map (fun i => (S i, Resolve (Some (letter i)))) (seq 0 25)
  /\ pending w = [] /\ timers w = [].
Proof. vm_compute. repeat split. Qed.


Lemma failed_batch_rejects_every_request_witness :
  let w := run failing (enqueue 3 ++ [BatchSettles 0]) (init (batches_of 2)) in
  (forall value, ~ In (1, Resolve value) (settlements w))
  /\ In (2, Reject (BatchError "boom"%string)) (settlements w).
Proof.
  intros w.
  pose (first := {| id := 1; prompt := letter 0; options := tt; timestamp := 0%Z |}).
  pose (second := {| id := 2; prompt := letter 1; options := tt; timestamp := 0%Z |}).
  assert (Hcall : nth_error (calls w) 0 = Some [first; second]) by reflexivity.
  assert (Hfail : failing 0 (map (@prompt unit) [first; second])
                    (map (@options unit) [first; second]) = inr "boom"%string)
    by reflexivity.
  split.
  - exact (proj1 (proj2
      (failed_batch_rejects_every_request failing (batches_of 2)
         (enqueue 3 ++ [BatchSettles 0]) 0 Hcall Hfail first (or_introl eq_refl)))).
  - refine (proj1 (proj2 (proj2
      (failed_batch_rejects_every_request failing (batches_of 2)
         (enqueue 3 ++ [BatchSettles 0]) 0 Hcall Hfail second
         (or_intror (or_introl eq_refl)))) _)).
    vm_compute. intros [].
Defined.

End BatcherWitnesses.

(* ===================================================================== *)
(** * The edit distance as a recurrence                                  *)
(* ===================================================================== *)

Section EditDistanceFacts.

Import Similarity EditDistance.
Local Open Scope nat_scope.

Lemma distance_nil_r (xs : list ascii) : distance xs [] = List.length xs.
Proof. destruct xs; reflexivity. Qed.

Lemma distance_cons (x y : ascii) (xs ys : list ascii) :
  distance (x :: xs) (y :: ys)
  = min3 (distance (x :: xs) ys + 1) (distance xs (y :: ys) + 1)
         (distance xs ys + (if Ascii.eqb x y then 0 else 1)).
Proof. reflexivity. Qed.

Lemma distance_sym (xs : list ascii) :
  forall ys, distance xs ys = distance ys xs.
Proof.
  induction xs as [|x xs IHx]; intros ys.
  - now rewrite distance_nil_r.
  - induction ys as [|y ys IHy].
    + now rewrite distance_nil_r.
    + rewrite !distance_cons, IHy, (IHx (y :: ys)), (IHx ys), (Ascii.eqb_sym x y).
      unfold min3. lia.
Qed.

Lemma distance_refl (xs : list ascii) : distance xs xs = 0.
Proof.
  induction xs as [|x xs IH]; [reflexivity |].
  rewrite distance_cons, IH, Ascii.eqb_refl. unfold min3. lia.
Qed.

(** The distance is at least the difference of the lengths. *)
Lemma distance_lengths (xs : list ascii) :
  forall ys,
    List.length xs - List.length ys <= distance xs ys
    /\ List.length ys - List.length xs <= distance xs ys.
Proof.
  induction xs as [|x xs IHx]; intros ys.
  - simpl. lia.
  - induction ys as [|y ys IHy].
    + rewrite distance_nil_r. simpl. lia.
    + rewrite distance_cons.
      pose proof (IHx (y :: ys)) as H1. pose proof (IHx ys) as H2.
      simpl List.length in *. unfold min3.
      destruct (Ascii.eqb x y); lia.
Qed.

Lemma distance_zero (xs : list ascii) :
  forall ys, distance xs ys = 0 -> xs = ys.
Proof.
  induction xs as [|x xs IHx]; intros ys.
  - destruct ys; [reflexivity | discriminate].
  - destruct ys as [|y ys]; [discriminate |].
    rewrite distance_cons. unfold min3. intros H.
    destruct (Ascii.eqb_spec x y) as [-> | NE]; [| lia].
    f_equal. apply IHx. lia.
Qed.

(** ** The matrix holds the distances of the prefixes *)

Lemma row_from_head (rest pa pb : list ascii) :
  exists tail, row_from rest pa pb = distance (rev pa) (rev pb) :: tail.
Proof. destruct rest; simpl; eauto. Qed.

Lemma first_row_is_row (a : list ascii) :
  forall pa, row_from a pa [] = seq (List.length pa) (S (List.length a)).
Proof.
  induction a as [|aj a IH]; intros pa.
  - simpl. now rewrite distance_nil_r, length_rev.
  - cbn [row_from]. rewrite IH, distance_nil_r, length_rev, length_app.
    replace (List.length pa + List.length [aj]) with (S (List.length pa))
      by (simpl; lia).
    reflexivity.
Qed.

Lemma fill_row_is_row (bi : ascii) (pb : list ascii) :
  forall rest pa,
    distance (rev pa) (rev (pb ++ [bi]))
      :: fill_row rest bi (row_from rest pa pb)
           (distance (rev pa) (rev (pb ++ [bi])))
    = row_from rest pa (pb ++ [bi]).
Proof.
  induction rest as [|aj rest IH]; intros pa; [reflexivity |].
  cbn [row_from]. f_equal.
  destruct (row_from_head rest (pa ++ [aj]) pb) as (tail & Htail).
  rewrite Htail. cbn [fill_row]. rewrite <- Htail.
  assert (Hcell :
    min3 (distance (rev (pa ++ [aj])) (rev pb) + 1)
         (distance (rev pa) (rev (pb ++ [bi])) + 1)
         (distance (rev pa) (rev pb) + (if Ascii.eqb aj bi then 0 else 1))
    = distance (rev (pa ++ [aj])) (rev (pb ++ [bi]))).
  { rewrite !rev_app_distr. simpl rev. simpl app.
    now rewrite distance_cons. }
  rewrite Hcell. apply IH.
Qed.

Lemma fill_matrix_is_rows (a : list ascii) :
  forall b pb rows,
    exists rest,
      fill_matrix a b (S (List.length pb)) (row_from a [] pb) rows
      = row_from a [] (pb ++ b) :: rest
      /\ List.length rest = List.length rows + List.length b.
Proof.
  induction b as [|bi b IH]; intros pb rows.
  - exists rows. rewrite app_nil_r. simpl. split; [reflexivity | lia].
  - cbn [fill_matrix]. unfold next_row.
    assert (Hi : S (List.length pb) = distance (rev []) (rev (pb ++ [bi]))).
    { simpl. rewrite length_rev, length_app. simpl. lia. }
    pose proof (fill_row_is_row bi pb a []) as Hrow.
    rewrite <- Hi in Hrow. rewrite Hrow.
    replace (S (S (List.length pb))) with (S (List.length (pb ++ [bi])))
      by (rewrite length_app; simpl; lia).
    destruct (IH (pb ++ [bi]) (row_from a [] pb :: rows)) as (rest & Heq & Hlen).
    exists rest. rewrite Heq, <- app_assoc. simpl in *. split; [reflexivity | lia].
Qed.

Lemma row_from_last (rest : list ascii) :
  forall pa pb,
    nth (List.length rest) (row_from rest pa pb) 0
    = distance (rev (pa ++ rest)) (rev pb).
Proof.
  induction rest as [|aj rest IH]; intros pa pb.
  - simpl. now rewrite app_nil_r.
  - cbn [row_from List.length nth]. rewrite IH, <- app_assoc. reflexivity.
Qed.

(** The value read off the matrix is the distance of the two strings. *)
Lemma levenshteinDistance_distance (a b : string) :
  levenshteinDistance a b
  = distance (rev (list_ascii_of_string a)) (rev (list_ascii_of_string b)).
Proof.
  unfold levenshteinDistance, matrix.
  set (la := list_ascii_of_string a). set (lb := list_ascii_of_string b).
  destruct (fill_matrix_is_rows la lb [] []) as (rest & Heq & Hlen).
  assert (Hfirst : first_row la = row_from la [] [])
    by (now rewrite first_row_is_row).
  rewrite Hfirst.
  simpl List.length in Heq. rewrite Heq. simpl in Hlen. simpl rev.
  rewrite app_nth2 by (rewrite length_rev; lia).
  rewrite length_rev, Hlen, Nat.sub_diag. simpl nth at 1.
  now rewrite row_from_last.
Qed.

End EditDistanceFacts.

Section DistanceOfStrings.

Import Similarity EditDistance.
Local Open Scope nat_scope.

Lemma list_ascii_of_string_app (s1 s2 : string) :
  list_ascii_of_string (s1 ++ s2)
  = list_ascii_of_string s1 ++ list_ascii_of_string s2.
Proof. induction s1 as [|c s1 IH]; simpl; [reflexivity | now rewrite IH]. Qed.

Lemma list_ascii_of_string_inj (s1 s2 : string) :
  list_ascii_of_string s1 = list_ascii_of_string s2 -> s1 = s2.
Proof.
  intros H. rewrite <- (string_of_list_ascii_of_string s1),
    <- (string_of_list_ascii_of_string s2). now rewrite H.
Qed.

Lemma rev_inj {A : Type} (l1 l2 : list A) : rev l1 = rev l2 -> l1 = l2.
Proof.
  intros H. rewrite <- (rev_involutive l1), <- (rev_involutive l2).
  now rewrite H.
Qed.

(** X1.  [levenshteinDistance] obeys the recurrence of the edit
    distance: against the empty string it is the length of the other
    string, and for two strings that end in the characters [x] and [y]
    it is the least of: one more than the distance with [y] taken off,
    one more than the distance with [x] taken off, and the distance of
    the two strings with both taken off, plus one when [x] and [y]
    differ. *)
Theorem levenshteinDistance_recurrence (a b : string) (x y : ascii) :
  levenshteinDistance a EmptyString = String.length a
  /\ levenshteinDistance EmptyString b = String.length b
  /\ levenshteinDistance (a ++ String x EmptyString) (b ++ String y EmptyString)
     = min3 (levenshteinDistance (a ++ String x EmptyString) b + 1)
            (levenshteinDistance a (b ++ String y EmptyString) + 1)
            (levenshteinDistance a b + (if Ascii.eqb x y then 0 else 1)).
Proof.
  rewrite !levenshteinDistance_distance, !list_ascii_of_string_app.
  simpl list_ascii_of_string. rewrite !rev_app_distr. simpl rev. simpl app.
  rewrite distance_nil_r, length_rev, !length_list_ascii_of_string.
  split; [reflexivity | split].
  - simpl. now rewrite length_rev, length_list_ascii_of_string.
  - apply distance_cons.
Qed.

(** X2.  The distance and the similarity score do not depend on the
    order of their two arguments. *)
Theorem similarity_is_symmetric (a b : string) :
  levenshteinDistance a b = levenshteinDistance b a
  /\ calculateSimilarity a b = calculateSimilarity b a.
Proof.
  assert (Hd : levenshteinDistance a b = levenshteinDistance b a).
  { rewrite !levenshteinDistance_distance. apply distance_sym. }
  split; [exact Hd |].
  unfold calculateSimilarity.
  rewrite (String.eqb_sym a b), (orb_comm (falsy a)), Hd,
    (Nat.max_comm (String.length a)).
  reflexivity.
Qed.

Lemma levenshteinDistance_zero (a b : string) :
  levenshteinDistance a b = 0 <-> a = b.
Proof.
  rewrite levenshteinDistance_distance. split.
  - intros H. apply distance_zero in H. apply rev_inj in H.
    now apply list_ascii_of_string_inj.
  - intros ->. apply distance_refl.
Qed.

(** X4.  The distance of two strings is at least the difference of
    their lengths and at most the length of the longer one. *)
Theorem levenshteinDistance_between_lengths (a b : string) :
  Nat.max (String.length a) (String.length b)
  - Nat.min (String.length a) (String.length b)
  <= levenshteinDistance a b
  /\ levenshteinDistance a b
     <= Nat.max (String.length a) (String.length b).
Proof.
  split; [| apply levenshteinDistance_le_max].
  rewrite levenshteinDistance_distance.
  pose proof (distance_lengths (rev (list_ascii_of_string a))
                (rev (list_ascii_of_string b))) as [H1 H2].
  rewrite !length_rev, !length_list_ascii_of_string in *. lia.
Qed.

End DistanceOfStrings.

Section ScoreOfStrings.

Import Similarity EditDistance.
Local Open Scope Q_scope.

Lemma Qnat_ratio_pos (d m : nat) :
  (0 < d)%nat -> (0 < m)%nat -> 0 < Qnat d / Qnat m.
Proof.
  intros Hd Hm. apply Qlt_shift_div_l; [now apply Qnat_pos |].
  rewrite Qmult_0_l. now apply Qnat_pos.
Qed.

(** X3.  The distance of two strings is 0 exactly when they are the
    same string, and their similarity is 1 exactly then: two different
    strings never score 1. *)
Theorem similarity_one_iff_equal (a b : string) :
  (levenshteinDistance a b = 0%nat <-> a = b)
  /\ (calculateSimilarity a b == 1 <-> a = b).
Proof.
  split; [apply levenshteinDistance_zero |].
  split.
  - intros H. destruct (string_dec a b) as [E | NE]; [exact E | exfalso].
    revert H. unfold calculateSimilarity.
    apply String.eqb_neq in NE as Eb. rewrite Eb.
    destruct (falsy a || falsy b) eqn:Ef; [discriminate |].
    apply orb_false_iff in Ef as [Ea _].
    assert (Hm : (0 < Nat.max (String.length a) (String.length b))%nat).
    { destruct a; [discriminate | cbn [String.length]; lia]. }
    destruct (Nat.eqb_spec (Nat.max (String.length a) (String.length b)) 0)
      as [E0 | _]; [lia |].
    assert (Hd : (0 < levenshteinDistance a b)%nat).
    { destruct (levenshteinDistance a b) eqn:Ed; [| lia].
      apply levenshteinDistance_zero in Ed. contradiction. }
    pose proof (Qnat_ratio_pos Hd Hm) as Hpos.
    intros H. lra.
  - intros ->. unfold calculateSimilarity. now rewrite String.eqb_refl.
Qed.

End ScoreOfStrings.

(* ===================================================================== *)
(** * The normal form of a prompt                                        *)
(* ===================================================================== *)

Section NormalForm.

Import Similarity.
Local Open Scope nat_scope.

Lemma drop_spaces_head (l : list ascii) :
  match drop_spaces l with
  | [] => True
  | c :: _ => is_space c = false
  end.
Proof.
  induction l as [|c l IH]; simpl; [exact I |].
  destruct (is_space c) eqn:E; [exact IH | exact E].
Qed.

Lemma drop_spaces_split (l : list ascii) :
  exists ws, forallb is_space ws = true /\ l = ws ++ drop_spaces l.
Proof.
  induction l as [|c l (ws & Hws & Hl)]; simpl.
  - exists []. split; reflexivity.
  - destruct (is_space c) eqn:E.
    + exists (c :: ws). simpl. rewrite E, Hws. split; [reflexivity |].
      now rewrite <- Hl.
    + exists []. split; reflexivity.
Qed.

(** A trimmed text is empty, or one character that is no white space,
    or it starts and ends with such characters. *)
Lemma trim_cases (l : list ascii) :
  trim l = []
  \/ (exists c, is_space c = false /\ trim l = [c])
  \/ (exists c m d,
        is_space c = false /\ is_space d = false /\ trim l = c :: m ++ [d]).
Proof.
  unfold trim. set (X := drop_spaces l).
  pose proof (drop_spaces_head (rev X)) as HY.
  destruct (drop_spaces_split (rev X)) as (ws & Hws & HX).
  destruct (drop_spaces (rev X)) as [|d Y']; [now left | right].
  assert (HXeq : X = rev Y' ++ [d] ++ rev ws).
  { rewrite <- (rev_involutive X), HX, rev_app_distr. simpl.
    now rewrite <- app_assoc. }
  simpl rev.
  destruct (rev Y') as [|c m] eqn:EY.
  - left. exists d. split; [exact HY | reflexivity].
  - right. exists c, m, d. repeat split; [| exact HY].
    pose proof (drop_spaces_head l) as HXh. fold X in HXh.
    rewrite HXeq in HXh. exact HXh.
Qed.

Lemma collapse_from_snoc (d : ascii) :
  is_space d = false ->
  forall l in_run,
    collapse_from in_run (l ++ [d]) = collapse_from in_run l ++ [d].
Proof.
  intros Hd. induction l as [|c l IH]; intros in_run; simpl.
  - now rewrite Hd.
  - destruct (is_space c), in_run; simpl; now rewrite IH.
Qed.

Lemma collapse_from_lower (l : list ascii) :
  forall in_run,
    toLowerCase (collapse_from in_run l) = collapse_from in_run (toLowerCase l).
Proof.
  unfold toLowerCase. induction l as [|c l IH]; intros in_run; simpl;
    [reflexivity |].
  rewrite is_space_lower.
  destruct (is_space c), in_run; simpl; now rewrite IH.
Qed.

(** Collapsing what has been collapsed changes nothing. *)
Lemma collapse_from_twice (l : list ascii) :
  collapse_from false (collapse_from false l) = collapse_from false l
  /\ collapse_from false (collapse_from true l) = collapse_from true l
  /\ collapse_from true (collapse_from true l) = collapse_from true l.
Proof.
  induction l as [|c l (IH1 & IH2 & IH3)]; simpl; [auto |].
  destruct (is_space c) eqn:E; simpl; rewrite ?E; simpl.
  - repeat split; [now rewrite IH3 | exact IH2 | exact IH3].
  - repeat split; now rewrite IH1.
Qed.

Lemma trim_single (c : ascii) : is_space c = false -> trim [c] = [c].
Proof.
  intros H. unfold trim. cbn [drop_spaces]. rewrite H.
  cbn [rev app drop_spaces]. now rewrite H.
Qed.

(** The normal form of a text is its own normal form. *)
Lemma normalize_chars_twice (l : list ascii) :
  normalize_chars (normalize_chars l) = normalize_chars l.
Proof.
  unfold normalize_chars at 2. set (t := trim l).
  assert (Htrim : trim (collapse (toLowerCase t)) = collapse (toLowerCase t)).
  { unfold collapse, t.
    destruct (trim_cases l) as [-> | [(c & Hc & ->) | (c & m & d & Hc & Hd & ->)]].
    - reflexivity.
    - assert (Hc' : is_space (lower c) = false) by now rewrite is_space_lower.
      cbn [toLowerCase map collapse_from]. rewrite Hc'.
      now apply trim_single.
    - assert (Hc' : is_space (lower c) = false) by now rewrite is_space_lower.
      assert (Hd' : is_space (lower d) = false) by now rewrite is_space_lower.
      unfold toLowerCase. simpl map. rewrite map_app. simpl map.
      simpl collapse_from. rewrite Hc'.
      rewrite collapse_from_snoc by exact Hd'. now apply trim_tight. }
  unfold normalize_chars. rewrite Htrim.
  unfold collapse. rewrite collapse_from_lower, toLowerCase_twice.
  apply collapse_from_twice.
Qed.

End NormalForm.

Section NormalFormOfPrompts.

Import Similarity Prompts.
Local Open Scope string_scope.

(** X5.  Normalising a normalised prompt changes nothing: the key
    under which the cache files a prompt is its own key. *)
Theorem normalizePrompt_idempotent (p : string) :
  normalizePrompt (normalizePrompt p) = normalizePrompt p.
Proof.
  unfold normalizePrompt.
  now rewrite list_ascii_of_string_of_list_ascii, normalize_chars_twice.
Qed.

(** X6.  White space put before and after a prompt, and a change of
    the case of its letters, do not change its normal form. *)
Theorem normalizePrompt_surroundings_and_case (before p q after : string) :
  blank before -> blank after ->
  toLowerCase (list_ascii_of_string q) = toLowerCase (list_ascii_of_string p) ->
  normalizePrompt (before ++ q ++ after) = normalizePrompt p.
Proof.
  intros Hb Ha Hcase. unfold normalizePrompt. f_equal.
  rewrite !list_ascii_of_string_app.
  rewrite normalize_chars_surrounding by assumption.
  now apply normalize_chars_case.
Qed.

(** X7.  Inside a prompt that starts and ends with a character other
    than white space, replacing a run of white space by another run of
    white space does not change the normal form. *)
Theorem normalizePrompt_inner_run (c d : ascii) (s1 run1 run2 s2 : string) :
  is_space c = false -> is_space d = false ->
  run1 <> EmptyString -> run2 <> EmptyString ->
  blank run1 -> blank run2 ->
  normalizePrompt (String c (s1 ++ run1 ++ s2 ++ String d EmptyString))
  = normalizePrompt (String c (s1 ++ run2 ++ s2 ++ String d EmptyString)).
Proof.
  intros Hc Hd N1 N2 B1 B2. unfold normalizePrompt. f_equal.
  simpl list_ascii_of_string. rewrite !list_ascii_of_string_app.
  simpl list_ascii_of_string.
  apply normalize_chars_inner_run; try assumption.
  - destruct run1; [congruence | discriminate].
  - destruct run2; [congruence | discriminate].
Qed.

Lemma normalizePrompt_surroundings_and_case_witness :
  normalizePrompt ("  " ++ "HELLO world" ++ " ") = normalizePrompt "Hello World".
Proof.
  apply normalizePrompt_surroundings_and_case; reflexivity.
Defined.

Lemma normalizePrompt_inner_run_witness :
  normalizePrompt "hello   world" = normalizePrompt "hello world".
Proof.
  apply (@normalizePrompt_inner_run "h" "d" "ello" "   " " " "worl");
    try reflexivity; discriminate.
Defined.

End NormalFormOfPrompts.

(* ===================================================================== *)
(** * Takes that the bucket does not check                               *)
(* ===================================================================== *)

Section BucketBehaviour.

Import TokenBucket.
Local Open Scope Q_scope.



End BucketBehaviour.

Section BucketWitnesses.

Import TokenBucket.
Local Open Scope Q_scope.



End BucketWitnesses.

(* ===================================================================== *)
(** * The rate limiter and its bucket                                    *)
(* ===================================================================== *)

Section LimiterFacts.

Import RateLimiter.
Local Open Scope Q_scope.

Lemma failed_take_is_refill (count : Q) (now : Z) (b : TokenBucket.t) :
  fst (TokenBucket.takeTokens count now b) = false ->
  snd (TokenBucket.takeTokens count now b) = TokenBucket.refill now b.
Proof.
  unfold TokenBucket.takeTokens.
  destruct (num_ge _ count); simpl; [discriminate | reflexivity].
Qed.

Lemma getWaitTimeMs_is_refill (count : Q) (now : Z) (b : TokenBucket.t) :
  snd (TokenBucket.getWaitTimeMs count now b) = TokenBucket.refill now b.
Proof.
  unfold TokenBucket.getWaitTimeMs. now destruct (Qeq_bool _ 0).
Qed.

(** The answer of [acquireToken] in terms of its three steps. *)
Lemma granted_steps (weight : Q) (e : environment) (rl : t) :
  granted weight e rl
  = if first_attempt weight e rl then true
    else if negb (autoWait rl) then false
    else if num_gt (computed_wait weight e rl) (maxWaitTimeMs rl) then false
    else retry_attempt weight e rl.
Proof.
  unfold granted, first_attempt, computed_wait, retry_attempt, acquireToken.
  destruct (TokenBucket.takeTokens weight (t_first e) (bucket rl))
    as [ok b1].
  cbn [fst snd]. destruct ok; [reflexivity |].
  destruct (negb (autoWait rl)); [reflexivity |].
  destruct (TokenBucket.getWaitTimeMs weight (t_wait e) b1)
    as [waitTime b2].
  cbn [fst snd].
  destruct (num_gt waitTime (maxWaitTimeMs rl)); [reflexivity |].
  now destruct (TokenBucket.takeTokens weight (t_retry e)
                  (interference e b2)).
Qed.

Lemma acquireToken_bucket_ok
    (capacity window weight : Q) (e : environment) (rl : t) :
  0 < capacity -> 0 < window -> 0 <= weight ->
  (forall b, TokenBucket.bucket_ok capacity window b ->
             TokenBucket.bucket_ok capacity window (interference e b)) ->
  TokenBucket.bucket_ok capacity window (bucket rl) ->
  TokenBucket.bucket_ok capacity window
    (bucket (snd (fst (acquireToken weight e rl)))).
Proof.
  intros Hc Hw Hweight Hint Hb. unfold acquireToken.
  pose proof (takeTokens_ok Hc Hw (t_first e) Hweight Hb) as Hb1.
  destruct (TokenBucket.takeTokens weight (t_first e) (bucket rl))
    as [ok b1] eqn:E1.
  cbn [snd] in Hb1.
  destruct ok; cbn [fst snd bucket with_bucket]; [exact Hb1 |].
  destruct (negb (autoWait rl)); cbn [fst snd bucket with_bucket];
    [exact Hb1 |].
  pose proof (getWaitTimeMs_is_refill weight (t_wait e) b1) as E2.
  destruct (TokenBucket.getWaitTimeMs weight (t_wait e) b1)
    as [waitTime b2].
  cbn [snd] in E2. subst b2.
  pose proof (refill_ok Hc Hw (t_wait e) Hb1) as Hb2.
  destruct (num_gt waitTime (maxWaitTimeMs rl));
    cbn [fst snd bucket with_bucket]; [exact Hb2 |].
  pose proof (takeTokens_ok Hc Hw (t_retry e) Hweight (Hint _ Hb2)) as Hb4.
  destruct (TokenBucket.takeTokens weight (t_retry e)
              (interference e (TokenBucket.refill (t_wait e) b1)))
    as [ok' b4].
  exact Hb4.
Qed.

End LimiterFacts.

Section LimiterBehaviour.

Import RateLimiter.
Local Open Scope Q_scope.

(** X13.  A call of [acquireToken] sleeps only with [autoWait] on and
    after a failed first attempt, for exactly the wait the bucket
    computed, and never longer than [maxWaitTimeMs]; the answer of a
    call that slept is the outcome of its retry. *)
Theorem acquireToken_sleeps_within_limit
    (weight : Q) (e : environment) (rl : t) (ms : Q) :
  In (Sleep ms) (actions weight e rl) ->
  first_attempt weight e rl = false
  /\ autoWait rl = true
  /\ ms = computed_wait weight e rl
  /\ ms <= maxWaitTimeMs rl
  /\ granted weight e rl = retry_attempt weight e rl.
Proof.
  unfold granted, actions, first_attempt, computed_wait, retry_attempt,
    acquireToken.
  destruct (TokenBucket.takeTokens weight (t_first e) (bucket rl))
    as [ok b1] eqn:E1.
  cbn [fst snd].
  destruct ok; cbn [snd In].
  { intros [H | []]; discriminate. }
  destruct (autoWait rl) eqn:EA; cbn [negb snd In].
  2:{ intros [H | []]; discriminate. }
  destruct (TokenBucket.getWaitTimeMs weight (t_wait e) b1)
    as [waitTime b2] eqn:E2.
  cbn [fst snd].
  destruct (num_gt waitTime (maxWaitTimeMs rl)) eqn:EG; cbn [snd In].
  { intros [H | [H | []]]; discriminate. }
  destruct (TokenBucket.takeTokens weight (t_retry e) (interference e b2))
    as [ok' b4] eqn:E4.
  cbn [fst snd In].
  intros [H | [H | [H | [H | []]]]]; try discriminate.
  injection H as <-.
  repeat split.
  apply Qnot_lt_le. intros Hlt. apply num_gt_iff in Hlt. congruence.
Qed.

(** X15.  A weight above the capacity is never granted, however long
    the call waits, as long as what the other users do to the bucket
    keeps its level within the capacity. *)
Theorem acquireToken_above_capacity_denied
    (capacity window weight : Q) (e : environment) (rl : t) :
  0 < capacity -> 0 < window ->
  TokenBucket.bucket_ok capacity window (bucket rl) ->
  (forall b, TokenBucket.bucket_ok capacity window b ->
             TokenBucket.bucket_ok capacity window (interference e b)) ->
  capacity < weight ->
  granted weight e rl = false.
Proof.
  intros Hc Hw Hb Hint Hweight.
  assert (Hfail : forall now b, TokenBucket.bucket_ok capacity window b ->
            fst (TokenBucket.takeTokens weight now b) = false).
  { intros now b Hok.
    destruct (refill_ok Hc Hw now Hok) as (_ & Hle & _).
    unfold TokenBucket.takeTokens.
    destruct (num_ge _ weight) eqn:E; [| reflexivity].
    apply num_ge_iff in E. lra. }
  pose proof (Hfail (t_first e) _ Hb) as Hfirst.
  rewrite granted_steps. fold (first_attempt weight e rl) in Hfirst.
  rewrite Hfirst.
  destruct (negb (autoWait rl)); [reflexivity |].
  destruct (num_gt _ _); [reflexivity |].
  unfold retry_attempt. apply Hfail. apply Hint.
  rewrite getWaitTimeMs_is_refill. apply refill_ok; try assumption.
  unfold first_attempt in Hfirst.
  rewrite (failed_take_is_refill _ _ _ Hfirst). now apply refill_ok.
Qed.

(** X16.  One call of [acquireToken] for a non-negative weight leaves
    the limiter's bucket well formed (level between 0 and the capacity,
    configuration unchanged) whenever the other users of the bucket do,
    and it never changes [maxWaitTimeMs] or [autoWait]. *)
Theorem acquireToken_keeps_limiter
    (capacity window weight : Q) (e : environment) (rl : t) :
  0 < capacity -> 0 < window -> 0 <= weight ->
  (forall b, TokenBucket.bucket_ok capacity window b ->
             TokenBucket.bucket_ok capacity window (interference e b)) ->
  TokenBucket.bucket_ok capacity window (bucket rl) ->
  let rl' := snd (fst (acquireToken weight e rl)) in
  TokenBucket.bucket_ok capacity window (bucket rl')
  /\ maxWaitTimeMs rl' = maxWaitTimeMs rl
  /\ autoWait rl' = autoWait rl.
Proof.
  intros Hc Hw Hweight Hint Hb rl'.
  split; [now apply acquireToken_bucket_ok |].
  unfold rl', acquireToken.
  destruct (TokenBucket.takeTokens weight (t_first e) (bucket rl))
    as [ok b1].
  destruct ok; [split; reflexivity |].
  destruct (negb (autoWait rl)); [split; reflexivity |].
  destruct (TokenBucket.getWaitTimeMs weight (t_wait e) b1)
    as [waitTime b2].
  destruct (num_gt waitTime (maxWaitTimeMs rl)); [split; reflexivity |].
  destruct (TokenBucket.takeTokens weight (t_retry e) (interference e b2))
    as [ok' b4].
  split; reflexivity.
Qed.

End LimiterBehaviour.

Section LimiterWitnesses.

Import RateLimiter LimiterScenario.
Local Open Scope Q_scope.

Lemma acquireToken_sleeps_within_limit_witness :
  In (Sleep 990) (actions 1 in_time drained)
  /\ 990 <= maxWaitTimeMs drained.
Proof.
  assert (H : In (Sleep 990) (actions 1 in_time drained)).
  { vm_compute. right. right. left. reflexivity. }
  split; [exact H |].
  exact (proj1 (proj2 (proj2 (proj2
           (@acquireToken_sleeps_within_limit 1 in_time drained 990 H))))).
Defined.

Lemma acquireToken_above_capacity_denied_witness :
  granted 2 in_time drained = false.
Proof.
  apply (@acquireToken_above_capacity_denied 1 1000 2 in_time drained);
    try reflexivity.
  - vm_compute. repeat split; discriminate.
  - intros b Hb. exact Hb.
Defined.

Lemma acquireToken_keeps_limiter_witness :
  TokenBucket.bucket_ok 1 1000
    (bucket (snd (fst (acquireToken 1 in_time drained)))).
Proof.
  refine (proj1 (@acquireToken_keeps_limiter 1 1000 1 in_time drained
                   _ _ _ _ _)); try reflexivity; try discriminate.
  - intros b Hb. exact Hb.
  - vm_compute. repeat split; discriminate.
Defined.

End LimiterWitnesses.

(* ===================================================================== *)
(** * The cache through its calls                                       *)
(* ===================================================================== *)

Section CacheMapFacts.

Import Similarity AICache CacheCalls.
Local Open Scope Q_scope.

Variable T : Type.

Lemma map_get_In (k : string) (e : CacheEntry T) (m : entries T) :
  map_get k m = Some e -> In (k, e) m.
Proof.
  induction m as [|[k' e'] m IH]; simpl; [discriminate |].
  destruct (String.eqb_spec k k') as [-> | NE].
  - intros H. injection H as ->. now left.
  - intros H. right. now apply IH.
Qed.

Lemma map_get_unique (k : string) (e : CacheEntry T) (m : entries T) :
  NoDup (map fst m) -> In (k, e) m -> map_get k m = Some e.
Proof.
  induction m as [|[k' e'] m IH]; simpl; intros Hnd Hin; [contradiction |].
  inversion Hnd as [|? ? Hnotin Hnd']; subst.
  destruct Hin as [H | H].
  - injection H as -> ->. now rewrite String.eqb_refl.
  - destruct (String.eqb_spec k k') as [-> | NE].
    + exfalso. apply Hnotin. now apply (in_map fst) in H.
    + now apply IH.
Qed.

Lemma map_delete_incl (k : string) (m : entries T) (ke : string * CacheEntry T) :
  In ke (map_delete k m) -> In ke m.
Proof.
  induction m as [|[k' e'] m IH]; simpl; [tauto |].
  destruct (String.eqb k k'); [now right |].
  intros [H | H]; [now left | right; now apply IH].
Qed.

Lemma map_delete_keys (k k1 : string) (m : entries T) :
  In k1 (map fst (map_delete k m)) -> In k1 (map fst m).
Proof.
  induction m as [|[k' e'] m IH]; simpl; [tauto |].
  destruct (String.eqb k k'); [now right |].
  simpl. intros [H | H]; [now left | right; now apply IH].
Qed.

Lemma map_delete_NoDup (k : string) (m : entries T) :
  NoDup (map fst m) -> NoDup (map fst (map_delete k m)).
Proof.
  induction m as [|[k' e'] m IH]; simpl; intros Hnd; [constructor |].
  inversion Hnd as [|? ? Hnotin Hnd']; subst.
  destruct (String.eqb k k'); [exact Hnd' |].
  simpl. constructor; [| now apply IH].
  intros H. apply Hnotin. now apply map_delete_keys in H.
Qed.

Lemma map_delete_found (k : string) (e : CacheEntry T) (m : entries T)
    (ke : string * CacheEntry T) :
  map_get k m = Some e -> In ke m -> ke <> (k, e) -> In ke (map_delete k m).
Proof.
  induction m as [|[k' e'] m IH]; simpl; [discriminate |].
  destruct (String.eqb_spec k k') as [-> | NE].
  - intros H. injection H as ->. intros [H | H] Hne; [congruence | exact H].
  - intros Hget [H | H] Hne; [now left | right; now apply IH].
Qed.

Lemma map_set_In (k : string) (e : CacheEntry T) (m : entries T)
    (ke : string * CacheEntry T) :
  In ke (map_set k e m) -> ke = (k, e) \/ In ke m.
Proof.
  induction m as [|[k' e'] m IH]; simpl.
  - intros [H | []]. now left.
  - destruct (String.eqb k k'); simpl.
    + intros [H | H]; [now left | right; now right].
    + intros [H | H]; [right; now left |].
      destruct (IH H) as [H' | H']; [now left | right; now right].
Qed.

Lemma map_set_keys (k : string) (e : CacheEntry T) (m : entries T) :
  map_has k m = true -> map fst (map_set k e m) = map fst m.
Proof.
  unfold map_has. induction m as [|[k' e'] m IH]; simpl; [discriminate |].
  destruct (String.eqb_spec k k') as [-> | NE]; simpl; [reflexivity |].
  intros H. f_equal. now apply IH.
Qed.

Lemma map_set_NoDup (k : string) (e : CacheEntry T) (m : entries T) :
  NoDup (map fst m) -> NoDup (map fst (map_set k e m)).
Proof.
  intros Hnd. destruct (map_has k m) eqn:E.
  - now rewrite map_set_keys.
  - rewrite map_set_new by exact E. rewrite map_app. simpl.
    apply map_has_false in E. clear e.
    induction (map fst m) as [|k' ks IH]; simpl.
    + constructor; [tauto | constructor].
    + inversion Hnd as [|? ? Hnotin Hnd']; subst.
      constructor.
      * intros H. apply in_app_or in H as [H | [H | []]]; [tauto |].
        apply E. now left.
      * apply IH; [exact Hnd' |]. intros H. apply E. now right.
Qed.

Lemma map_get_set_other (k k1 : string) (e : CacheEntry T) (m : entries T) :
  k1 <> k -> map_get k1 (map_set k e m) = map_get k1 m.
Proof.
  intros Hne. induction m as [|[k' e'] m IH]; simpl.
  - destruct (String.eqb_spec k1 k); [congruence | reflexivity].
  - destruct (String.eqb_spec k k') as [-> | NE]; simpl.
    + destruct (String.eqb_spec k1 k'); [congruence | reflexivity].
    + destruct (String.eqb k1 k'); [reflexivity | exact IH].
Qed.

Lemma filter_keys_NoDup (f : string * CacheEntry T -> bool) (m : entries T) :
  NoDup (map fst m) -> NoDup (map fst (filter f m)).
Proof.
  induction m as [|[k e] m IH]; simpl; intros Hnd; [constructor |].
  inversion Hnd as [|? ? Hnotin Hnd']; subst.
  destruct (f (k, e)); simpl; [| now apply IH].
  constructor; [| now apply IH].
  intros H. apply Hnotin. apply in_map_iff in H as ([k1 e1] & Hk & Hin).
  simpl in Hk. subst k1. apply filter_In in Hin as [Hin _].
  now apply (in_map fst) in Hin.
Qed.

End CacheMapFacts.

Section CacheLookupFacts.

Import Similarity AICache CacheCalls.
Local Open Scope Q_scope.

Variable T : Type.

Lemma fuzzy_scan_hit (np : string) (now : Z) (ttl thr : Q) (r : T) :
  forall m : entries T,
    fst (fuzzy_scan np now ttl thr m) = Some r ->
    exists k e, In (k, e) m /\ response e = r /\ fresh now ttl e = true
                /\ thr <= calculateSimilarity np k.
Proof.
  induction m as [|[k e] m IH]; simpl; [discriminate |].
  destruct (fresh now ttl e) eqn:Ef; simpl.
  - destruct (num_ge (calculateSimilarity np k) thr) eqn:Es.
    + simpl. intros H. injection H as <-. exists k, e.
      apply num_ge_iff in Es. auto.
    + destruct (fuzzy_scan np now ttl thr m) as [r' rest]. simpl in *.
      intros H. destruct (IH H) as (k1 & e1 & Hin & Hrest).
      exists k1, e1. auto.
  - intros H. destruct (IH H) as (k1 & e1 & Hin & Hrest).
    exists k1, e1. auto.
Qed.

Lemma fuzzy_scan_miss (np : string) (now : Z) (ttl thr : Q) :
  forall m : entries T,
    fst (fuzzy_scan np now ttl thr m) = None ->
    forall k e, In (k, e) m -> fresh now ttl e = true ->
                calculateSimilarity np k < thr.
Proof.
  induction m as [|[k e] m IH]; simpl; [contradiction |].
  destruct (fresh now ttl e) eqn:Ef; simpl.
  - destruct (num_ge (calculateSimilarity np k) thr) eqn:Es;
      [discriminate |].
    destruct (fuzzy_scan np now ttl thr m) as [r' rest]. simpl in *.
    intros H k1 e1 [Hin | Hin] Hf.
    + injection Hin as <- <-. apply Qnot_le_lt. intros Hle.
      apply num_ge_iff in Hle. congruence.
    + now apply (IH H k1 e1).
  - intros H k1 e1 [Hin | Hin] Hf.
    + injection Hin as <- <-. congruence.
    + now apply (IH H k1 e1).
Qed.

Lemma fuzzy_scan_incl (np : string) (now : Z) (ttl thr : Q)
    (ke : string * CacheEntry T) :
  forall m : entries T,
    In ke (snd (fuzzy_scan np now ttl thr m)) -> In ke m.
Proof.
  induction m as [|[k e] m IH]; simpl; [tauto |].
  destruct (fresh now ttl e); simpl.
  - destruct (num_ge (calculateSimilarity np k) thr); [simpl; tauto |].
    destruct (fuzzy_scan np now ttl thr m) as [r' rest]. simpl in *.
    intros [H | H]; [now left | right; now apply IH].
  - intros H. right. now apply IH.
Qed.

Lemma fuzzy_scan_keeps_live (np : string) (now : Z) (ttl thr : Q)
    (ke : string * CacheEntry T) :
  forall m : entries T,
    In ke m -> fresh now ttl (snd ke) = true ->
    In ke (snd (fuzzy_scan np now ttl thr m)).
Proof.
  induction m as [|[k e] m IH]; simpl; [tauto |].
  destruct (fresh now ttl e) eqn:Ef; simpl.
  - destruct (num_ge (calculateSimilarity np k) thr); [simpl; tauto |].
    destruct (fuzzy_scan np now ttl thr m) as [r' rest]. simpl in *.
    intros [H | H] Hf; [now left | right; now apply IH].
  - intros [H | H] Hf; [subst ke; simpl in Hf; congruence | now apply IH].
Qed.

Lemma fuzzy_scan_NoDup (np : string) (now : Z) (ttl thr : Q) :
  forall m : entries T,
    NoDup (map fst m) ->
    NoDup (map fst (snd (fuzzy_scan np now ttl thr m))).
Proof.
  induction m as [|[k e] m IH]; simpl; intros Hnd; [constructor |].
  inversion Hnd as [|? ? Hnotin Hnd']; subst.
  destruct (fresh now ttl e); simpl; [| now apply IH].
  destruct (num_ge (calculateSimilarity np k) thr); [exact Hnd |].
  pose proof (fun ke => @fuzzy_scan_incl np now ttl thr ke m) as Hincl.
  specialize (IH Hnd').
  destruct (fuzzy_scan np now ttl thr m) as [r' rest]. simpl in *.
  constructor; [| exact IH].
  intros H. apply Hnotin. apply in_map_iff in H as ([k1 e1] & Hk & Hin).
  simpl in Hk. subst k1. apply Hincl in Hin. now apply (in_map fst) in Hin.
Qed.

Lemma fuzzy_scan_live_only (np : string) (now : Z) (ttl thr : Q) :
  forall m : entries T,
    fst (fuzzy_scan np now ttl thr
           (filter (fun ke => fresh now ttl (snd ke)) m))
    = fst (fuzzy_scan np now ttl thr m).
Proof.
  induction m as [|[k e] m IH]; simpl; [reflexivity |].
  destruct (fresh now ttl e) eqn:Ef; simpl; [| exact IH].
  rewrite Ef. simpl.
  destruct (num_ge (calculateSimilarity np k) thr); [reflexivity |].
  destruct (fuzzy_scan np now ttl thr m) as [r' rest].
  destruct (fuzzy_scan np now ttl thr _) as [r'' rest']. exact IH.
Qed.

Lemma filter_delete_expired (f : string * CacheEntry T -> bool)
    (k : string) (e : CacheEntry T) :
  forall m : entries T,
    map_get k m = Some e -> f (k, e) = false ->
    filter f (map_delete k m) = filter f m.
Proof.
  induction m as [|[k' e'] m IH]; simpl; [discriminate |].
  destruct (String.eqb_spec k k') as [-> | NE].
  - intros H Hf. injection H as ->. now rewrite Hf.
  - intros H Hf. simpl. now rewrite IH.
Qed.

Lemma map_get_filter_live (f : string * CacheEntry T -> bool)
    (k : string) (e : CacheEntry T) :
  forall m : entries T,
    map_get k m = Some e -> f (k, e) = true ->
    map_get k (filter f m) = Some e.
Proof.
  induction m as [|[k' e'] m IH]; simpl; [discriminate |].
  destruct (String.eqb_spec k k') as [-> | NE].
  - intros H Hf. injection H as ->. rewrite Hf. simpl.
    now rewrite String.eqb_refl.
  - intros H Hf. destruct (f (k', e')); simpl; [| now apply IH].
    destruct (String.eqb_spec k k'); [congruence | now apply IH].
Qed.

Lemma map_get_filter_none (f : string * CacheEntry T -> bool) (k : string) :
  forall m : entries T,
    ~ In k (map fst m) -> map_get k (filter f m) = None.
Proof.
  induction m as [|[k' e'] m IH]; simpl; [reflexivity |].
  intros Hnot. destruct (f (k', e')); simpl.
  - destruct (String.eqb_spec k k') as [-> | NE]; [tauto |].
    apply IH. tauto.
  - apply IH. tauto.
Qed.

Lemma map_get_none (k : string) (m : entries T) :
  map_get k m = None <-> ~ In k (map fst m).
Proof.
  rewrite <- map_has_false. unfold map_has.
  destruct (map_get k m); split; congruence.
Qed.

Lemma fresh_earlier (t1 t2 : Z) (ttl : Q) (e : CacheEntry T) :
  (t1 <= t2)%Z -> fresh t2 ttl e = true -> fresh t1 ttl e = true.
Proof.
  unfold fresh. intros Hle H. apply num_lt_iff in H. apply num_lt_iff.
  assert (inject_Z (t1 - timestamp e) <= inject_Z (t2 - timestamp e)).
  { rewrite <- Zle_Qle. lia. }
  lra.
Qed.

(** The entries that [set] writes to: the map as it is, or the map
    without one of its keys. *)
Lemma set_cases (p : string) (r : T) (now : Z) (c : t T) :
  exists m,
    cache (set p r now c) = map_set (normalizePrompt p) (filed p r now) m
    /\ (m = cache c \/ exists k, m = map_delete k (cache c)).
Proof.
  unfold set, filed. cbn [cache with_cache].
  destruct (num_ge (map_size (cache c)) (maxSize c)
            && negb (map_has (normalizePrompt p) (cache c))).
  2:{ eexists. split; [reflexivity | now left]. }
  destruct (fst (find_oldest (cache c) (None, None))) as [k |];
    cbn [truthy_key].
  2:{ eexists. split; [reflexivity | now left]. }
  destruct (negb (falsy k)).
  - eexists. split; [reflexivity | right; now exists k].
  - eexists. split; [reflexivity | now left].
Qed.

Lemma normalizePrompt_twice (p : string) :
  normalizePrompt (normalizePrompt p) = normalizePrompt p.
Proof.
  unfold normalizePrompt.
  now rewrite list_ascii_of_string_of_list_ascii, normalize_chars_twice.
Qed.

Lemma well_keyed_delete (k : string) (m : entries T) :
  well_keyed m -> well_keyed (map_delete k m).
Proof.
  intros (Hnd & Hk). split; [now apply map_delete_NoDup |].
  intros k1 e1 Hin. apply Hk. now apply map_delete_incl in Hin.
Qed.

Lemma well_keyed_set (p : string) (r : T) (now : Z) (m : entries T) :
  well_keyed m ->
  well_keyed (map_set (normalizePrompt p) (filed p r now) m).
Proof.
  intros (Hnd & Hk). split; [now apply map_set_NoDup |].
  intros k1 e1 Hin. apply map_set_In in Hin as [H | H]; [| now apply Hk].
  injection H as -> ->. split; [reflexivity | apply normalizePrompt_twice].
Qed.

Lemma well_keyed_incl (m m' : entries T) :
  NoDup (map fst m') -> (forall ke, In ke m' -> In ke m) ->
  well_keyed m -> well_keyed m'.
Proof.
  intros Hnd Hincl (_ & Hk). split; [exact Hnd |].
  intros k e Hin. apply Hk. now apply Hincl.
Qed.

(** What [get] leaves of the map: a part of it that holds every live
    entry, with the keys still pairwise different. *)
Lemma get_cache (p : string) (now : Z) (c : t T) :
  (forall ke, In ke (cache (snd (get p now c))) -> In ke (cache c))
  /\ (forall ke, In ke (cache c) -> fresh now (ttlMs c) (snd ke) = true ->
                 In ke (cache (snd (get p now c))))
  /\ (NoDup (map fst (cache c)) ->
      NoDup (map fst (cache (snd (get p now c))))).
Proof.
  unfold get.
  set (np := normalizePrompt p).
  assert (Hscan : forall m : entries T,
    (forall ke, In ke m -> In ke (cache c)) ->
    (forall ke, In ke (cache c) -> fresh now (ttlMs c) (snd ke) = true ->
                In ke m) ->
    (NoDup (map fst (cache c)) -> NoDup (map fst m)) ->
    let res :=
      if enableFuzzyMatching c && num_lt (similarityThreshold c) 1 then
        let (r, m') :=
          fuzzy_scan np now (ttlMs c) (similarityThreshold c) m in
        (r, with_cache c m')
      else (None, with_cache c m) in
    (forall ke, In ke (cache (snd res)) -> In ke (cache c))
    /\ (forall ke, In ke (cache c) -> fresh now (ttlMs c) (snd ke) = true ->
                   In ke (cache (snd res)))
    /\ (NoDup (map fst (cache c)) -> NoDup (map fst (cache (snd res))))).
  { intros m H1 H2 H3 res. unfold res.
    destruct (enableFuzzyMatching c && num_lt (similarityThreshold c) 1).
    2:{ cbn [snd cache with_cache]. auto. }
    pose proof (fun ke => @fuzzy_scan_incl np now (ttlMs c)
                  (similarityThreshold c) ke m) as Hi.
    pose proof (fun ke => @fuzzy_scan_keeps_live np now (ttlMs c)
                  (similarityThreshold c) ke m) as Hl.
    pose proof (@fuzzy_scan_NoDup np now (ttlMs c)
                  (similarityThreshold c) m) as Hn.
    destruct (fuzzy_scan np now (ttlMs c) (similarityThreshold c) m)
      as [r m'].
    cbn [snd cache with_cache] in *. auto. }
  destruct (map_get np (cache c)) as [entry |] eqn:Eget.
  2:{ apply Hscan; auto. }
  destruct (fresh now (ttlMs c) entry) eqn:Ef.
  { cbn [snd cache with_cache]. auto. }
  apply Hscan.
  - intros ke. apply map_delete_incl.
  - intros ke Hin Hf. apply (map_delete_found _ Eget Hin).
    intros ->. simpl in Hf. congruence.
  - apply map_delete_NoDup.
Qed.

Lemma apply_call_well_keyed (k : call T) (c : t T) :
  well_keyed (cache c) -> well_keyed (cache (apply_call k c)).
Proof.
  intros Hw. destruct k as [p now | p r now | | now]; cbn [apply_call].
  - destruct (get_cache p now c) as (Hi & _ & Hn).
    apply well_keyed_incl with (m := cache c); auto. apply Hn, Hw.
  - destruct (set_cases p r now c) as (m & -> & [-> | (k & ->)]).
    + now apply well_keyed_set.
    + now apply well_keyed_set, well_keyed_delete.
  - split; [constructor | intros k e []].
  - unfold purgeExpired. cbn [snd cache with_cache].
    apply well_keyed_incl with (m := cache c); [| | exact Hw].
    + apply filter_keys_NoDup, Hw.
    + intros ke Hin. now apply filter_In in Hin as [Hin _].
Qed.

Lemma apply_call_config (k : call T) (c : t T) :
  maxSize (apply_call k c) = maxSize c
  /\ ttlMs (apply_call k c) = ttlMs c
  /\ similarityThreshold (apply_call k c) = similarityThreshold c
  /\ enableFuzzyMatching (apply_call k c) = enableFuzzyMatching c.
Proof.
  destruct k as [p now | p r now | | now]; simpl; auto.
  unfold get.
  destruct (map_get (normalizePrompt p) (cache c)) as [entry |].
  - destruct (fresh now (ttlMs c) entry); [simpl; auto |].
    destruct (enableFuzzyMatching c && num_lt (similarityThreshold c) 1);
      [| simpl; auto].
    destruct (fuzzy_scan _ _ _ _ _); simpl; auto.
  - destruct (enableFuzzyMatching c && num_lt (similarityThreshold c) 1);
      [| simpl; auto].
    destruct (fuzzy_scan _ _ _ _ _); simpl; auto.
Qed.

Lemma run_well_keyed (calls : list (call T)) :
  forall c, well_keyed (cache c) -> well_keyed (cache (run calls c)).
Proof.
  induction calls as [|k calls IH]; intros c Hw; simpl; [exact Hw |].
  apply IH. now apply apply_call_well_keyed.
Qed.

Lemma run_config (calls : list (call T)) :
  forall c,
    maxSize (run calls c) = maxSize c
    /\ ttlMs (run calls c) = ttlMs c
    /\ similarityThreshold (run calls c) = similarityThreshold c
    /\ enableFuzzyMatching (run calls c) = enableFuzzyMatching c.
Proof.
  induction calls as [|k calls IH]; intros c; simpl; [auto |].
  destruct (IH (apply_call k c)) as (H1 & H2 & H3 & H4).
  destruct (apply_call_config k c) as (G1 & G2 & G3 & G4).
  repeat split; congruence.
Qed.

Lemma constructor_well_keyed (options : CacheOptions) :
  well_keyed (cache (constructor T options)).
Proof. split; [constructor | intros k e []]. Qed.

End CacheLookupFacts.

Section CacheAnswers.

Import Similarity AICache CacheCalls.
Local Open Scope Q_scope.

Variable T : Type.

(** The value [get] returns, without the cache it leaves. *)
Lemma get_answer (p : string) (now : Z) (c : t T) :
  let np := normalizePrompt p in
  let similar (m : entries T) :=
    if enableFuzzyMatching c && num_lt (similarityThreshold c) 1
    then fst (fuzzy_scan np now (ttlMs c) (similarityThreshold c) m)
    else None in
  fst (get p now c)
  = match map_get np (cache c) with
    | Some entry =>
        if fresh now (ttlMs c) entry then Some (response entry)
        else similar (map_delete np (cache c))
    | None => similar (cache c)
    end.
Proof.
  intros np similar. unfold get, similar. fold np.
  destruct (map_get np (cache c)) as [entry |].
  - destruct (fresh now (ttlMs c) entry); [reflexivity |].
    destruct (enableFuzzyMatching c && num_lt (similarityThreshold c) 1);
      [| reflexivity].
    now destruct (fuzzy_scan np now (ttlMs c) (similarityThreshold c) _).
  - destruct (enableFuzzyMatching c && num_lt (similarityThreshold c) 1);
      [| reflexivity].
    now destruct (fuzzy_scan np now (ttlMs c) (similarityThreshold c) _).
Qed.

Lemma get_miss (p : string) (now : Z) (c : t T) :
  NoDup (map fst (cache c)) ->
  fst (get p now c) = None ->
  forall k e,
    In (k, e) (cache c) -> fresh now (ttlMs c) e = true ->
    k <> normalizePrompt p
    /\ (enableFuzzyMatching c = true -> similarityThreshold c < 1 ->
        calculateSimilarity (normalizePrompt p) k < similarityThreshold c).
Proof.
  intros Hnd. rewrite get_answer. cbv zeta.
  intros Hmiss k e Hin Hf.
  assert (Hk : k <> normalizePrompt p).
  { intros ->. rewrite (@map_get_unique T _ _ _ Hnd Hin), Hf in Hmiss.
    discriminate. }
  split; [exact Hk |]. intros Hen Hlt.
  apply num_lt_iff in Hlt. rewrite Hen, Hlt in Hmiss. cbn [andb] in Hmiss.
  destruct (map_get (normalizePrompt p) (cache c)) as [entry |] eqn:Eget.
  - destruct (fresh now (ttlMs c) entry) eqn:Ef; [discriminate |].
    apply (fuzzy_scan_miss _ _ _ _ _ Hmiss k e); [| exact Hf].
    apply (map_delete_found _ Eget Hin). congruence.
  - now apply (fuzzy_scan_miss _ _ _ _ _ Hmiss k e).
Qed.

Lemma purge_then_get (p : string) (now : Z) (c : t T) :
  NoDup (map fst (cache c)) ->
  fst (get p now (snd (purgeExpired now c))) = fst (get p now c).
Proof.
  intros Hnd. rewrite !get_answer. cbv zeta.
  unfold purgeExpired.
  cbn [snd cache with_cache ttlMs similarityThreshold enableFuzzyMatching].
  set (np := normalizePrompt p).
  set (f := fun ke : string * CacheEntry T => fresh now (ttlMs c) (snd ke)).
  destruct (map_get np (cache c)) as [entry |] eqn:Eget.
  - destruct (fresh now (ttlMs c) entry) eqn:Ef.
    + rewrite (@map_get_filter_live T f np entry (cache c) Eget Ef).
      now rewrite Ef.
    + assert (Enone : map_get np (filter f (cache c)) = None).
      { destruct (map_get np (filter f (cache c))) as [e' |] eqn:E';
          [| reflexivity].
        apply map_get_In in E'. apply filter_In in E' as [Hin Hf].
        rewrite (@map_get_unique T _ _ _ Hnd Hin) in Eget.
        injection Eget as ->. unfold f in Hf. simpl in Hf. congruence. }
      rewrite Enone.
      destruct (enableFuzzyMatching c && num_lt (similarityThreshold c) 1);
        [| reflexivity].
      rewrite <- (fuzzy_scan_live_only np now (ttlMs c)
                    (similarityThreshold c) (map_delete np (cache c))).
      fold f. rewrite (@filter_delete_expired T f np entry (cache c) Eget Ef).
      unfold f. now rewrite fuzzy_scan_live_only.
  - rewrite map_get_filter_none by (now apply map_get_none).
    destruct (enableFuzzyMatching c && num_lt (similarityThreshold c) 1);
      [| reflexivity].
    unfold f. apply fuzzy_scan_live_only.
Qed.

End CacheAnswers.

Section CacheSizeFacts.

Import Similarity AICache CacheCalls.
Local Open Scope Q_scope.

Variable T : Type.

Lemma set_keys (p : string) (r : T) (now : Z) (c : t T) (k : string) :
  In k (map fst (cache (set p r now c))) ->
  k = normalizePrompt p \/ In k (map fst (cache c)).
Proof.
  intros H. apply in_map_iff in H as ([k1 e1] & Hk & Hin).
  simpl in Hk. subst k1.
  destruct (set_cases p r now c) as (m & Hm & Hfrom).
  rewrite Hm in Hin. apply map_set_In in Hin as [H | H].
  - left. congruence.
  - right. destruct Hfrom as [-> | (k0 & ->)].
    + now apply (in_map fst) in H.
    + apply map_delete_incl in H. now apply (in_map fst) in H.
Qed.

Lemma Qnat_S (n : nat) : Qnat (S n) == Qnat n + 1.
Proof.
  unfold Qnat. rewrite Nat2Z.inj_succ, <- Z.add_1_r, inject_Z_plus.
  reflexivity.
Qed.

Lemma set_size_step (p : string) (r : T) (now : Z) (c : t T) :
  NoDup (map fst (cache c)) ->
  (forall k, In k (map fst (cache c)) -> k <> EmptyString) ->
  ((size c <= 1)%nat \/ Qnat (size c) < maxSize c + 1) ->
  (size (set p r now c) <= 1)%nat
  \/ Qnat (size (set p r now c)) < maxSize c + 1.
Proof.
  intros Hnd Hkeys Hsize.
  destruct (map_has (normalizePrompt p) (cache c)) eqn:Ehas.
  { unfold size, set. cbn [cache with_cache].
    rewrite Ehas, andb_false_r.
    now rewrite map_set_length_present. }
  destruct (num_ge (map_size (cache c)) (maxSize c)) eqn:Efull.
  - destruct (cache c) as [|ke m] eqn:Ec.
    + left. unfold size, set. rewrite Ec. simpl.
      destruct (num_ge (map_size []) (maxSize c)); simpl; lia.
    + assert (Hne : cache c <> []) by (rewrite Ec; discriminate).
      rewrite <- Ec in *.
      destruct (@set_evicts_oldest T c p r now Hnd Hne Efull Ehas)
        as (k0 & e0 & _ & _ & _ & _ & _ & Hsame).
      * intros k Hk.
        destruct (find_oldest_is_oldest Hne) as (k' & e' & Hk' & Hin & _).
        rewrite Hk in Hk'. injection Hk' as <-.
        apply Hkeys. now apply (in_map fst) in Hin.
      * now rewrite Hsame.
  - right. unfold size, set. cbn [cache with_cache].
    rewrite Efull. cbn [andb].
    rewrite map_set_new by exact Ehas. rewrite length_app. cbn [List.length].
    replace (List.length (cache c) + 1)%nat with (S (List.length (cache c)))
      by lia.
    rewrite Qnat_S.
    assert (Hlt : ~ maxSize c <= map_size (cache c)).
    { intros H. apply num_ge_iff in H. congruence. }
    unfold map_size in Hlt. lra.
Qed.

Lemma shrunk_size (m m' : entries T) :
  NoDup (map fst m') -> (forall ke, In ke m' -> In ke m) ->
  (List.length m' <= List.length m)%nat.
Proof.
  intros Hnd Hincl. apply NoDup_incl_length; [| exact Hincl].
  now apply NoDup_map_inv in Hnd.
Qed.

Lemma apply_call_sized (k : call T) (c : t T) :
  ~ stores_empty_key k ->
  well_keyed (cache c) ->
  (forall key, In key (map fst (cache c)) -> key <> EmptyString) ->
  ((size c <= 1)%nat \/ Qnat (size c) < maxSize c + 1) ->
  (forall key, In key (map fst (cache (apply_call k c))) ->
               key <> EmptyString)
  /\ ((size (apply_call k c) <= 1)%nat
      \/ Qnat (size (apply_call k c)) < maxSize c + 1).
Proof.
  intros Hk Hw Hkeys Hsize.
  pose proof (@apply_call_well_keyed T k c Hw) as (Hnd' & _).
  assert (Hshrink : forall m' : entries T,
            NoDup (map fst m') ->
            (forall ke, In ke m' -> In ke (cache c)) ->
            (forall key, In key (map fst m') -> key <> EmptyString)
            /\ ((List.length m' <= 1)%nat
                \/ Qnat (List.length m') < maxSize c + 1)).
  { intros m' Hnd Hincl. split.
    - intros key Hin. apply Hkeys.
      apply in_map_iff in Hin as (ke & <- & Hin).
      apply in_map. now apply Hincl.
    - pose proof (@shrunk_size (cache c) m' Hnd Hincl) as Hle.
      unfold size in Hsize. destruct Hsize as [H | H]; [left; lia |].
      right. apply Qnat_le in Hle.
      eapply Qle_lt_trans; [exact Hle | exact H]. }
  destruct k as [p now | p r now | | now]; cbn [apply_call] in *.
  - apply Hshrink; [exact Hnd' |]. apply get_cache.
  - split; [| apply set_size_step; [apply Hw | exact Hkeys | exact Hsize]].
    intros key Hin. apply set_keys in Hin as [-> | Hin];
      [exact Hk | now apply Hkeys].
  - split; [intros key [] | left; unfold size, clear; cbn; lia].
  - apply Hshrink; [exact Hnd' |].
    unfold purgeExpired. cbn [snd cache with_cache].
    intros ke Hin. now apply filter_In in Hin as [Hin _].
Qed.

Lemma run_sized (calls : list (call T)) :
  forall c,
    Forall (fun k => ~ stores_empty_key k) calls ->
    well_keyed (cache c) ->
    (forall key, In key (map fst (cache c)) -> key <> EmptyString) ->
    ((size c <= 1)%nat \/ Qnat (size c) < maxSize c + 1) ->
    (forall key, In key (map fst (cache (run calls c))) ->
                 key <> EmptyString)
    /\ ((size (run calls c) <= 1)%nat
        \/ Qnat (size (run calls c)) < maxSize c + 1).
Proof.
  induction calls as [|k calls IH]; intros c Hall Hw Hkeys Hsize; simpl;
    [auto |].
  inversion Hall as [|? ? Hk Hall']; subst.
  destruct (@apply_call_sized k c Hk Hw Hkeys Hsize) as (Hkeys' & Hsize').
  destruct (apply_call_config k c) as (Hmax & _).
  rewrite <- Hmax. rewrite <- Hmax in Hsize'.
  apply IH; try assumption. now apply apply_call_well_keyed.
Qed.

Lemma purge_twice (t1 t2 : Z) (ttl : Q) (m : entries T) :
  (t1 <= t2)%Z ->
  filter (fun ke => fresh t2 ttl (snd ke))
    (filter (fun ke => fresh t1 ttl (snd ke)) m)
  = filter (fun ke => fresh t2 ttl (snd ke)) m.
Proof.
  intros Hle. induction m as [|[k e] m IH]; simpl; [reflexivity |].
  destruct (fresh t1 ttl e) eqn:E1; simpl.
  - destruct (fresh t2 ttl e); [now rewrite IH | exact IH].
  - destruct (fresh t2 ttl e) eqn:E2; [| exact IH].
    apply (@fresh_earlier T t1 t2 ttl e Hle) in E2. congruence.
Qed.

End CacheSizeFacts.

Section CacheBehaviour.

Import Similarity AICache CacheCalls.
Local Open Scope Q_scope.

Variable T : Type.

(** X17.  A hit of [get] is the response of an entry of the cache whose
    time-to-live has not run out, filed under the normal form of the
    prompt or, with fuzzy matching on and a threshold below 1, under a
    key whose similarity to that normal form reaches the threshold. *)
Theorem get_returns_live_match (p : string) (now : Z) (c : t T) (r : T) :
  fst (get p now c) = Some r ->
  exists k e,
    In (k, e) (cache c) /\ response e = r
    /\ fresh now (ttlMs c) e = true
    /\ (k = normalizePrompt p
        \/ (enableFuzzyMatching c = true
            /\ similarityThreshold c < 1
            /\ similarityThreshold c
               <= calculateSimilarity (normalizePrompt p) k)).
Proof.
  rewrite get_answer. cbv zeta.
  assert (Hsim : forall m : entries T,
    (forall ke, In ke m -> In ke (cache c)) ->
    (if enableFuzzyMatching c && num_lt (similarityThreshold c) 1
     then fst (fuzzy_scan (normalizePrompt p) now (ttlMs c)
                 (similarityThreshold c) m)
     else None) = Some r ->
    exists k e,
      In (k, e) (cache c) /\ response e = r
      /\ fresh now (ttlMs c) e = true
      /\ (k = normalizePrompt p
          \/ (enableFuzzyMatching c = true
              /\ similarityThreshold c < 1
              /\ similarityThreshold c
                 <= calculateSimilarity (normalizePrompt p) k))).
  { intros m Hincl.
    destruct (enableFuzzyMatching c) eqn:Een; [| discriminate].
    destruct (num_lt (similarityThreshold c) 1) eqn:Elt; [| discriminate].
    cbn [andb]. intros H.
    apply fuzzy_scan_hit in H as (k & e & Hin & Hr & Hf & Hs).
    exists k, e. apply num_lt_iff in Elt.
    repeat split; auto. }
  destruct (map_get (normalizePrompt p) (cache c)) as [entry |] eqn:Eget.
  - destruct (fresh now (ttlMs c) entry) eqn:Ef.
    + intros H. injection H as <-.
      exists (normalizePrompt p), entry.
      repeat split; auto. now apply map_get_In.
    + apply Hsim. intros ke. apply map_delete_incl.
  - apply Hsim. auto.
Qed.

(** X18.  A miss of [get] on a cache reached through its own methods
    means that no live entry is filed under the normal form of the
    prompt and, with fuzzy matching on and a threshold below 1, that
    no live entry's key reaches the threshold. *)
Theorem get_miss_has_no_live_match
    (options : CacheOptions) (calls : list (call T)) (p : string) (now : Z) :
  let c := run calls (constructor T options) in
  fst (get p now c) = None ->
  forall k e,
    In (k, e) (cache c) -> fresh now (ttlMs c) e = true ->
    k <> normalizePrompt p
    /\ (enableFuzzyMatching c = true -> similarityThreshold c < 1 ->
        calculateSimilarity (normalizePrompt p) k < similarityThreshold c).
Proof.
  intros c. apply get_miss.
  apply (@run_well_keyed T calls _ (constructor_well_keyed T options)).
Qed.

(** X19.  [get] adds nothing to the cache and removes only entries
    whose time-to-live has run out. *)
Theorem get_removes_only_expired (p : string) (now : Z) (c : t T) :
  (forall ke, In ke (cache (snd (get p now c))) -> In ke (cache c))
  /\ (forall ke, In ke (cache c) -> fresh now (ttlMs c) (snd ke) = true ->
                 In ke (cache (snd (get p now c)))).
Proof.
  destruct (get_cache p now c) as (H1 & H2 & _). now split.
Qed.

(** X20.  [set] under a key that the cache holds replaces that entry
    where it stands: nothing is evicted even when the cache is full,
    the keys and their order stay, and the other entries are
    untouched. *)
Theorem set_overwrites_in_place (p : string) (r : T) (now : Z) (c : t T) :
  map_has (normalizePrompt p) (cache c) = true ->
  map fst (cache (set p r now c)) = map fst (cache c)
  /\ size (set p r now c) = size c
  /\ map_get (normalizePrompt p) (cache (set p r now c))
     = Some (filed p r now)
  /\ forall k, k <> normalizePrompt p ->
       map_get k (cache (set p r now c)) = map_get k (cache c).
Proof.
  intros Hhas. unfold size, set, filed. cbn [cache with_cache].
  rewrite Hhas, andb_false_r.
  split; [now apply map_set_keys |].
  split; [now apply map_set_length_present |].
  split; [apply map_get_set_same |].
  intros k Hk. now apply map_get_set_other.
Qed.

(** X21.  Whatever calls are made on a cache, its keys stay pairwise
    different, every entry stays filed under its own prompt, every key
    is a normal form, and the configuration is the one it was built
    with. *)
Theorem cache_keys_are_normal_forms
    (options : CacheOptions) (calls : list (call T)) :
  let c := run calls (constructor T options) in
  NoDup (map fst (cache c))
  /\ (forall k e, In (k, e) (cache c) ->
        prompt e = k /\ normalizePrompt k = k)
  /\ maxSize c = maxSize (constructor T options)
  /\ ttlMs c = ttlMs (constructor T options)
  /\ similarityThreshold c = similarityThreshold (constructor T options)
  /\ enableFuzzyMatching c = enableFuzzyMatching (constructor T options).
Proof.
  intros c.
  destruct (@run_well_keyed T calls _ (constructor_well_keyed T options))
    as (Hnd & Hk).
  split; [exact Hnd | split; [exact Hk | apply run_config]].
Qed.

(** X22.  As long as nothing is stored under the empty key, the cache
    never holds more than one entry beyond [maxSize]: its size stays
    below [maxSize + 1], or at 1 when [maxSize] is smaller than that. *)
Theorem cache_size_within_maxSize
    (options : CacheOptions) (calls : list (call T)) :
  Forall (fun k => ~ stores_empty_key k) calls ->
  let c := run calls (constructor T options) in
  (size c <= 1)%nat \/ Qnat (size c) < maxSize c + 1.
Proof.
  intros Hall c.
  destruct (run_config calls (constructor T options)) as (Hmax & _).
  unfold c. rewrite Hmax.
  apply run_sized; try assumption.
  - apply constructor_well_keyed.
  - intros key [].
  - left. unfold size, constructor. cbn. lia.
Qed.

(** X23.  On a cache reached through its own methods that is full,
    [set] under a new key evicts, when the oldest key is not the empty
    string, exactly one entry, one with the smallest timestamp; the
    other entries stay, the new entry goes last and the size is what
    it was. *)
Theorem set_evicts_the_oldest
    (options : CacheOptions) (calls : list (call T))
    (p : string) (r : T) (now : Z) :
  let c := run calls (constructor T options) in
  cache c <> [] ->
  num_ge (map_size (cache c)) (maxSize c) = true ->
  map_has (normalizePrompt p) (cache c) = false ->
  (forall k, fst (find_oldest (cache c) (None, None)) = Some k ->
             k <> EmptyString) ->
  exists k0 e0,
    In (k0, e0) (cache c)
    /\ (forall k e, In (k, e) (cache c) -> (timestamp e0 <= timestamp e)%Z)
    /\ cache (set p r now c)
       = map_delete k0 (cache c) ++ [(normalizePrompt p, filed p r now)]
    /\ ~ In k0 (map fst (cache (set p r now c)))
    /\ (forall k e, In (k, e) (cache c) -> k <> k0 ->
          In (k, e) (cache (set p r now c)))
    /\ size (set p r now c) = size c.
Proof.
  intros c Hne Hfull Hnew Hkey.
  apply set_evicts_oldest; try assumption.
  apply (@run_well_keyed T calls _ (constructor_well_keyed T options)).
Qed.

(** X24.  Purging at a time and again at a later time leaves the cache
    that one purge at the later time leaves, and the two counts add up
    to the count of that one purge; after a purge every entry is
    live. *)
Theorem purgeExpired_counts_add_up (t1 t2 : Z) (c : t T) :
  (t1 <= t2)%Z ->
  let once := purgeExpired t2 c in
  let first := purgeExpired t1 c in
  let second := purgeExpired t2 (snd first) in
  snd second = snd once
  /\ (fst first + fst second = fst once)%nat
  /\ (fst once + size (snd once) = size c)%nat
  /\ forall ke, In ke (cache (snd once)) ->
       fresh t2 (ttlMs c) (snd ke) = true.
Proof.
  intros Hle. cbv zeta. unfold purgeExpired, size.
  cbn [fst snd cache with_cache ttlMs].
  rewrite (@purge_twice T t1 t2 (ttlMs c) (cache c) Hle).
  pose proof (filter_length_le (fun ke => fresh t1 (ttlMs c) (snd ke))
                (cache c)) as L1.
  pose proof (filter_length_le (fun ke => fresh t2 (ttlMs c) (snd ke))
                (cache c)) as L2.
  pose proof (filter_length_le (fun ke => fresh t2 (ttlMs c) (snd ke))
                (filter (fun ke => fresh t1 (ttlMs c) (snd ke)) (cache c)))
    as L3.
  rewrite (@purge_twice T t1 t2 (ttlMs c) (cache c) Hle) in L3.
  split; [reflexivity |].
  split; [lia |]. split; [lia |].
  intros ke Hin. now apply filter_In in Hin as [_ Hf].
Qed.

(** X25.  Purging the expired entries first does not change what a
    lookup at the same time returns. *)
Theorem purgeExpired_does_not_change_get
    (options : CacheOptions) (calls : list (call T)) (p : string) (now : Z) :
  let c := run calls (constructor T options) in
  fst (get p now (snd (purgeExpired now c))) = fst (get p now c).
Proof.
  intros c. apply purge_then_get.
  apply (@run_well_keyed T calls _ (constructor_well_keyed T options)).
Qed.

End CacheBehaviour.

Section CacheBehaviourWitnesses.

Import Similarity AICache CacheCalls CacheScenario.
Local Open Scope string_scope.

Lemma get_returns_live_match_witness :
  exists k e,
    In (k, e) (cache (run stored_twice (constructor nat two_slots)))
    /\ response e = 1%nat
    /\ fresh 4 (ttlMs (run stored_twice (constructor nat two_slots))) e = true
    /\ (k = normalizePrompt "hello world, how are you today?"
        \/ (enableFuzzyMatching (run stored_twice (constructor nat two_slots))
            = true
            /\ (similarityThreshold
                  (run stored_twice (constructor nat two_slots)) < 1)%Q
            /\ (similarityThreshold
                  (run stored_twice (constructor nat two_slots))
                <= calculateSimilarity (normalizePrompt "hello world, how are you today?") k)%Q)).
Proof.
  apply (@get_returns_live_match nat "hello world, how are you today?" 4
           (run stored_twice (constructor nat two_slots)) 1%nat).
  vm_compute. reflexivity.
Defined.

Lemma get_miss_has_no_live_match_witness :
  "b" <> normalizePrompt "C"
  /\ (enableFuzzyMatching (run stored_twice (constructor nat two_slots))
      = true ->
      (similarityThreshold (run stored_twice (constructor nat two_slots))
       < 1)%Q ->
      (calculateSimilarity (normalizePrompt "C") "b"
       < similarityThreshold
           (run stored_twice (constructor nat two_slots)))%Q).
Proof.
  refine (@get_miss_has_no_live_match nat two_slots stored_twice "C" 4 _
            "b" {| response := 2%nat; timestamp := 3; prompt := "b" |} _ _).
  - vm_compute. reflexivity.
  - vm_compute. right. left. reflexivity.
  - vm_compute. reflexivity.
Defined.

Lemma set_overwrites_in_place_witness :
  size (set " b " 5%nat 4 (run stored_twice (constructor nat two_slots)))
  = size (run stored_twice (constructor nat two_slots)).
Proof.
  refine (proj1 (proj2 (@set_overwrites_in_place nat " b " 5%nat 4
                          (run stored_twice (constructor nat two_slots)) _))).
  vm_compute. reflexivity.
Defined.

Lemma cache_size_within_maxSize_witness :
  (size (run (stored_twice ++ [CallSet "C" 3%nat 4; CallSet "D" 4%nat 5])%list
           (constructor nat two_slots)) <= 1)%nat
  \/ (Qnat (size (run (stored_twice
                         ++ [CallSet "C" 3%nat 4; CallSet "D" 4%nat 5])%list
                    (constructor nat two_slots)))
      < maxSize (run (stored_twice
                        ++ [CallSet "C" 3%nat 4; CallSet "D" 4%nat 5])%list
                   (constructor nat two_slots)) + 1)%Q.
Proof.
  apply (@cache_size_within_maxSize nat two_slots
           (stored_twice ++ [CallSet "C" 3%nat 4; CallSet "D" 4%nat 5])%list).
  repeat constructor; vm_compute; discriminate.
Defined.

Lemma set_evicts_the_oldest_witness :
  exists k0 e0,
    In (k0, e0) (cache (run stored_twice (constructor nat two_slots)))
    /\ (forall k e,
          In (k, e) (cache (run stored_twice (constructor nat two_slots))) ->
          (timestamp e0 <= timestamp e)%Z)
    /\ cache (set "C" 3%nat 4 (run stored_twice (constructor nat two_slots)))
       = (map_delete k0 (cache (run stored_twice (constructor nat two_slots)))
          ++ [(normalizePrompt "C", filed "C" 3%nat 4)])%list
    /\ ~ In k0 (map fst (cache (set "C" 3%nat 4
                                  (run stored_twice
                                     (constructor nat two_slots)))))
    /\ (forall k e,
          In (k, e) (cache (run stored_twice (constructor nat two_slots))) ->
          k <> k0 ->
          In (k, e) (cache (set "C" 3%nat 4
                              (run stored_twice (constructor nat two_slots)))))
    /\ size (set "C" 3%nat 4 (run stored_twice (constructor nat two_slots)))
       = size (run stored_twice (constructor nat two_slots)).
Proof.
  apply (@set_evicts_the_oldest nat two_slots stored_twice "C" 3%nat 4).
  - vm_compute. discriminate.
  - vm_compute. reflexivity.
  - vm_compute. reflexivity.
  - vm_compute. intros k H. injection H as <-. discriminate.
Defined.

Lemma purgeExpired_counts_add_up_witness :
  (fst (purgeExpired 5 (run stored_twice (constructor nat two_slots)))
   + fst (purgeExpired 9
            (snd (purgeExpired 5
                    (run stored_twice (constructor nat two_slots)))))
   = fst (purgeExpired 9 (run stored_twice (constructor nat two_slots))))%nat.
Proof.
  refine (proj1 (proj2 (@purgeExpired_counts_add_up nat 5 9
                          (run stored_twice (constructor nat two_slots)) _))).
  discriminate.
Defined.

End CacheBehaviourWitnesses.

(* ===================================================================== *)
(** * The control state of the batcher                                  *)
(* ===================================================================== *)

Section BatcherControl.

Import RequestBatcher.
Local Open Scope nat_scope.

Variables T O X : Type.
Variable processBatchFn : nat -> list string -> list O -> list T + X.

Lemma clearQueue_effect (reason : string) (w : world T O X) :
  inv processBatchFn w ->
  let w' := clearQueue reason w in
  queue (self w') = []
  /\ batchTimer (self w') = None
  /\ timers w' = []
  /\ awaiting w' = awaiting w
  /\ calls w' = calls w
  /\ isProcessing (self w') = isProcessing (self w)
  /\ settlements w'
     = settlements w ++ reject_each (QueueCleared reason) (queue (self w)).
Proof.
  destruct w as [[q mbs md mt bt busy n] tm nt aw cl st rq].
  unfold inv. simpl. intros (_ & (Htm & _) & _).
  unfold clearQueue. simpl.
  destruct bt as [h |]; simpl.
  - subst tm. simpl. rewrite Nat.eqb_refl. simpl. repeat split.
  - subst tm. repeat split.
Qed.

Lemma all_empty_concat (cl : list (list (QueuedRequest O))) :
  Forall (fun batch => batch = []) cl -> List.concat cl = [].
Proof.
  induction 1 as [|batch cl Hb _ IH]; simpl; [reflexivity |].
  now rewrite Hb, IH.
Qed.

(** X26.  In every state the batcher can reach, at most one call of
    [processBatchFn] is in flight and at most one timer is pending;
    [isProcessing] is set exactly while a call is in flight, and then
    no timer is pending; a timer is pending only over a non-empty
    queue, and a non-empty queue of an idle batcher has its timer. *)
Theorem one_batch_in_flight
    (options : BatcherOptions) (es : list (event O)) :
  let w := run processBatchFn es (init options) in
  List.length (awaiting w) <= 1
  /\ List.length (timers w) <= 1
  /\ (isProcessing (self w) = true <-> awaiting w <> [])
  /\ (awaiting w <> [] -> timers w = [])
  /\ (timers w <> [] -> queue (self w) <> [])
  /\ (awaiting w = [] -> queue (self w) <> [] -> timers w <> [])
  /\ (forall k batch, In (k, batch) (awaiting w) ->
        nth_error (calls w) k = Some batch).
Proof.
  intros w.
  assert (Hinv : inv processBatchFn w) by (apply inv_run, inv_init).
  destruct Hinv as ((_ & _ & _ & _ & Haw) & (Htm & Hbusy & Hidle & Htq) & _).
  split; [| split; [| split; [| split; [| split; [| split]]]]].
  - destruct (isProcessing (self w)).
    + destruct (Hbusy eq_refl) as (_ & k & batch & ->). simpl. lia.
    + destruct (Hidle eq_refl) as (-> & _). simpl. lia.
  - rewrite Htm. destruct (batchTimer (self w)); simpl; lia.
  - destruct (isProcessing (self w)).
    + destruct (Hbusy eq_refl) as (_ & k & batch & ->).
      split; [discriminate | reflexivity].
    + destruct (Hidle eq_refl) as (-> & _).
      split; [discriminate | congruence].
  - intros Hne. destruct (isProcessing (self w)).
    + destruct (Hbusy eq_refl) as (Hbt & _). now rewrite Htm, Hbt.
    + destruct (Hidle eq_refl) as (Hnone & _). congruence.
  - intros Hne. apply Htq. intros Hbt. apply Hne. now rewrite Htm, Hbt.
  - intros Hnone Hq. destruct (isProcessing (self w)).
    + destruct (Hbusy eq_refl) as (_ & k & batch & Hone). congruence.
    + destruct (Hidle eq_refl) as (_ & Hbt). specialize (Hbt Hq).
      rewrite Htm. destruct (batchTimer (self w)); [discriminate | congruence].
  - exact Haw.
Qed.

(** X27.  [clearQueue] rejects exactly the queued requests, each once
    and with the given reason; it empties the queue and leaves no
    timer pending; the batch in flight, its requests and the calls
    made so far are untouched. *)
Theorem clearQueue_rejects_the_queue
    (options : BatcherOptions) (es : list (event O)) (reason : string) :
  let w := run processBatchFn es (init options) in
  let w' := clearQueue reason w in
  queueSize w' = 0
  /\ timers w' = []
  /\ awaiting w' = awaiting w
  /\ calls w' = calls w
  /\ (forall r, In r (queue (self w)) ->
        resolutions (id r) w = 0
        /\ In (id r, Reject (QueueCleared reason)) (settlements w')
        /\ resolutions (id r) w' = 1)
  /\ (forall s, In s (settlements w') ->
        In s (settlements w)
        \/ exists r, In r (queue (self w))
                     /\ s = (id r, Reject (QueueCleared reason)))
  /\ (forall r, In r (List.concat (map snd (awaiting w))) ->
        resolutions (id r) w' = 0).
Proof.
  intros w w'.
  assert (Hinv : inv processBatchFn w) by (apply inv_run, inv_init).
  assert (Hinv' : inv processBatchFn w') by (now apply inv_clearQueue).
  destruct (clearQueue_effect reason Hinv)
    as (Hq & _ & Htm & Haw & Hcl & _ & Hst).
  fold w' in Hq, Htm, Haw, Hcl, Hst.
  pose proof (inv_NoDup Hinv) as Hnd.
  pose proof (inv_NoDup Hinv') as Hnd'.
  split; [unfold queueSize; now rewrite Hq |].
  split; [exact Htm |]. split; [exact Haw |]. split; [exact Hcl |].
  split; [| split].
  - intros r Hr.
    assert (Hin : In (id r, Reject (T := T) (QueueCleared (X := X) reason))
                     (settlements w')).
    { rewrite Hst. apply in_or_app. right. unfold reject_each.
      apply in_map_iff. now exists r. }
    split; [| split; [exact Hin |]].
    + apply (resolutions_absent processBatchFn). intros Hs.
      apply (NoDup_app_disjoint _ _ (id r) Hnd Hs).
      unfold pending. rewrite map_app. apply in_or_app. right.
      now apply in_map.
    + apply (resolutions_present processBatchFn).
      * now apply NoDup_app_remove_r in Hnd'.
      * now apply (in_map fst) in Hin.
  - intros s Hs. rewrite Hst in Hs.
    apply in_app_or in Hs as [Hs | Hs]; [now left | right].
    unfold reject_each in Hs. apply in_map_iff in Hs as (r & <- & Hr).
    now exists r.
  - intros r Hr. apply (resolutions_absent processBatchFn). intros Hs.
    apply (NoDup_app_disjoint _ _ (id r) Hnd' Hs).
    unfold pending. rewrite map_app, Haw. apply in_or_app. left.
    now apply in_map.
Qed.

(** X28.  A negative [maxBatchSize] starves the batcher: every batch
    handed to [processBatchFn] is empty, the requests that were not
    cleared all stay in the queue, and unless the queue is cleared no
    promise is ever settled. *)
Theorem negative_maxBatchSize_starves
    (options : BatcherOptions) (es : list (event O)) :
  (maxBatchSize (constructor (O := O) options) < 0)%Z ->
  let w := run processBatchFn es (init options) in
  Forall (fun batch => batch = []) (calls w)
  /\ queue (self w)
     = filter (fun r => negb (cleared (id r) w)) (requests w)
  /\ (never_cleared es ->
      queue (self w) = requests w /\ settlements w = []).
Proof.
  intros Hneg w.
  assert (Hinv : inv processBatchFn w) by (apply inv_run, inv_init).
  destruct Hinv as ((Hids & Hperm & Hfifo & _) & _ & Hsz).
  assert (Hempty : Forall (fun batch => batch = []) (calls w)).
  { unfold w in Hsz. rewrite maxBatchSize_run in Hsz.
    eapply Forall_impl; [| exact Hsz]. cbv beta.
    intros batch [Hle _].
    change (maxBatchSize (self (init (T := T) (X := X) options)))
      with (maxBatchSize (constructor (O := O) options)) in Hle.
    destruct batch; [reflexivity |]. cbn [List.length] in Hle. lia. }
  rewrite (all_empty_concat Hempty) in Hfifo. simpl in Hfifo.
  split; [exact Hempty | split; [exact Hfifo |]].
  intros Hnc.
  assert (Hq : queue (self w) = requests w).
  { rewrite Hfifo. apply filter_all. intros r _.
    apply negb_true_iff, not_true_is_false. intros Hc.
    unfold cleared_in in Hc. apply existsb_exists in Hc as (s & Hs & Hc).
    apply andb_true_iff in Hc as [_ Hc].
    rewrite (never_cleared_run processBatchFn Hnc (init options)) in Hc;
      [discriminate | intros ? [] | exact Hs]. }
  split; [exact Hq |].
  apply Permutation_length in Hperm.
  rewrite length_app, !length_map, length_app, Hq in Hperm.
  destruct (settlements w); [reflexivity | simpl in Hperm; lia].
Qed.

End BatcherControl.

Section BatcherControlWitnesses.

Import RequestBatcher BatcherScenario.
Local Open Scope nat_scope.

Lemma negative_maxBatchSize_starves_witness :
  let w := run echo (enqueue 3 ++ [BatchSettles 0; TimerFires 1])
             (init (batches_of (-1))) in
  queue (self w) = requests w /\ settlements w = [].
Proof.
  intros w.
  apply (proj2 (proj2 (negative_maxBatchSize_starves echo (batches_of (-1))
                         (enqueue 3 ++ [BatchSettles 0; TimerFires 1])
                         eq_refl))).
  intros reason Hin.
  repeat (destruct Hin as [Hin | Hin]; [discriminate Hin |]).
  exact Hin.
Defined.

End BatcherControlWitnesses.

(* ===================================================================== *)
(** * client.ts: completions through the cache                          *)
(* ===================================================================== *)

Section ClientFacts.

Import Similarity EfrateClient.
Local Open Scope Q_scope.

Variables T O X : Type.
Variable truthy : T -> bool.

Lemma lookup_frame (p : string) (now : Z) (c : t T) :
  let c1 := snd (lookup truthy p now c) in
  rateLimiter c1 = rateLimiter c
  /\ enableCache c1 = enableCache c
  /\ enableRateLimiting c1 = enableRateLimiting c
  /\ enableBatching c1 = enableBatching c
  /\ (forall ke, In ke (AICache.cache (cache c1)) ->
                 In ke (AICache.cache (cache c))).
Proof.
  unfold lookup. destruct (enableCache c) eqn:Ec; [| simpl; auto].
  pose proof (get_cache p now (cache c)) as (Hincl & _).
  destruct (AICache.get p now (cache c)) as [r k]. simpl in *. auto.
Qed.

Lemma admit_request_frame (e : RateLimiter.environment) (c : t T) :
  let c2 := snd (admit_request e c) in
  cache c2 = cache c
  /\ enableCache c2 = enableCache c
  /\ enableBatching c2 = enableBatching c.
Proof.
  unfold admit_request. destruct (enableRateLimiting c); simpl; auto.
Qed.

Lemma get_after_set (k : AICache.t T) (p q : string) (r : T) (t0 t1 : Z) :
  normalizePrompt q = normalizePrompt p ->
  inject_Z (t1 - t0) < AICache.ttlMs k ->
  AICache.get q t1 (AICache.set p r t0 k)
  = (Some r, AICache.set p r t0 k).
Proof.
  intros Hnorm Httl. unfold AICache.get.
  assert (Hget : AICache.map_get (normalizePrompt q)
                   (AICache.cache (AICache.set p r t0 k))
                 = Some {| AICache.response := r; AICache.timestamp := t0;
                           AICache.prompt := normalizePrompt p |}).
  { unfold AICache.set. cbn [AICache.cache AICache.with_cache].
    rewrite Hnorm. apply map_get_set_same. }
  rewrite Hget.
  assert (Hfresh : AICache.fresh t1 (AICache.ttlMs (AICache.set p r t0 k))
                     {| AICache.response := r; AICache.timestamp := t0;
                        AICache.prompt := normalizePrompt p |} = true).
  { unfold AICache.fresh. cbn [AICache.timestamp].
    apply num_lt_iff. exact Httl. }
  rewrite Hfresh. cbn [AICache.response]. reflexivity.
Qed.

End ClientFacts.

Section ClientBehaviour.

Import Similarity EfrateClient.
Local Open Scope Q_scope.

Variables T O X : Type.
Variable truthy : T -> bool.

(** X29.  A completion that was fetched and returned is written to
    the cache, and the call made next on the client as that call left
    it (nothing else having touched the cache in between), for any
    prompt with the same normal form and before the entry's
    time-to-live has run out, is served from the cache (it returns
    that response, sends nothing out and leaves the client as it was)
    exactly when the response is truthy. *)
Theorem complete_again_is_served_from_cache
    (p q : string) (o o' : O) (e1 e2 : surroundings T X) (c : t T)
    (response : T) :
  enableCache c = true ->
  fst (fst (complete truthy p o e1 c)) = Return response ->
  snd (complete truthy p o e1 c) <> [] ->
  normalizePrompt q = normalizePrompt p ->
  let c1 := snd (fst (complete truthy p o e1 c)) in
  inject_Z (t_get e2 - t_set e1) < AICache.ttlMs (cache c1) ->
  (served_from_cache response (complete truthy q o' e2 c1)
   <-> truthy response = true)
  /\ (truthy response = true ->
      snd (fst (complete truthy q o' e2 c1)) = c1).
Proof.
  intros Hon. unfold complete at 1 2 3.
  pose proof (lookup_frame truthy p (t_get e1) c) as (_ & Hc1 & _).
  destruct (lookup truthy p (t_get e1) c) as [[v |] c1] eqn:Elook;
    cbn [fst snd] in *.
  { intros _ Hsent. now destruct Hsent. }
  pose proof (admit_request_frame (limiter e1) c1) as (_ & Hc2 & _).
  destruct (admit_request (limiter e1) c1) as [canProceed c2].
  cbn [snd] in Hc2.
  destruct canProceed; cbn [negb fst snd]; [| discriminate].
  destruct (fetched e1) as [response' | error]; cbn [fst snd];
    [| discriminate].
  intros Hret _ Hnorm. injection Hret as ->.
  rewrite Hc2, Hc1, Hon.
  set (k := AICache.set p response (t_set e1)
              (cache_meanwhile e1 (cache c2))).
  cbn [cache set_cache]. intros Httl.
  assert (Httl' : inject_Z (t_get e2 - t_set e1)
                  < AICache.ttlMs (cache_meanwhile e1 (cache c2))).
  { exact Httl. }
  assert (Hlook : lookup truthy q (t_get e2) (set_cache c2 k)
                  = (if truthy response then Some response else None,
                     set_cache c2 k)).
  { unfold lookup. cbn [enableCache set_cache cache].
    rewrite Hc2, Hc1, Hon. unfold k.
    rewrite (@get_after_set T (cache_meanwhile e1 (cache c2)) p q response
               (t_set e1) (t_get e2) Hnorm Httl').
    reflexivity. }
  unfold served_from_cache, complete. rewrite Hlook.
  destruct (truthy response) eqn:Etruthy.
  - cbn [fst snd]. split; [| reflexivity]. split; auto.
  - split; [| discriminate]. split; [| discriminate].
    intros [Hret Hsent]. exfalso.
    destruct (admit_request (limiter e2) (set_cache c2 k))
      as [canProceed' c3].
    destruct canProceed'; cbn [negb fst snd] in *; [| discriminate].
    destruct (fetched e2); cbn [fst snd] in *; discriminate.
Qed.

(** X30.  A call of [complete] sends out at most one request, and with
    rate limiting on only after the limiter granted a token; a call
    that does not return a fetched response (a cache hit, a denial by
    the limiter, a failed request) adds nothing to the cache. *)
Theorem complete_writes_only_what_it_fetched
    (p : string) (o : O) (e : surroundings T X) (c : t T) :
  let r := complete truthy p o e c in
  (List.length (snd r) <= 1)%nat
  /\ (snd r <> [] -> enableRateLimiting c = true ->
      RateLimiter.granted 1 (limiter e) (rateLimiter c) = true)
  /\ (fst (fst r) = ThrowRateLimitExceeded -> snd r = [])
  /\ ((snd r = [] \/ forall response, fst (fst r) <> Return response) ->
      forall ke, In ke (AICache.cache (cache (snd (fst r)))) ->
                 In ke (AICache.cache (cache c))).
Proof.
  intros r. unfold r, complete.
  pose proof (lookup_frame truthy p (t_get e) c)
    as (Hrl & _ & Hlim & _ & Hincl).
  destruct (lookup truthy p (t_get e) c) as [[v |] c1];
    cbn [fst snd] in *.
  { split; [cbn [List.length]; lia |]. split; [congruence |]. split; [reflexivity |].
    intros _. exact Hincl. }
  pose proof (admit_request_frame (limiter e) c1) as (Hcache & _).
  assert (Hgrant : enableRateLimiting c = true ->
                   fst (admit_request (limiter e) c1)
                   = RateLimiter.granted 1 (limiter e) (rateLimiter c)).
  { intros Hon. unfold admit_request. rewrite Hlim, Hon, Hrl. reflexivity. }
  destruct (admit_request (limiter e) c1) as [canProceed c2].
  cbn [fst snd] in *.
  destruct canProceed; cbn [negb fst snd].
  2:{ split; [cbn [List.length]; lia |]. split; [congruence |]. split; [reflexivity |].
      intros _ ke. rewrite Hcache. apply Hincl. }
  destruct (fetched e) as [response | error]; cbn [fst snd List.length].
  - split; [cbn [List.length]; lia |]. split; [intros _ Hon; symmetry; now apply Hgrant |].
    split; [discriminate |].
    intros [Hnone | Hnot]; [discriminate | now destruct (Hnot response)].
  - split; [cbn [List.length]; lia |]. split; [intros _ Hon; symmetry; now apply Hgrant |].
    split; [discriminate |].
    intros _ ke. rewrite Hcache. apply Hincl.
Qed.

End ClientBehaviour.

Section ClientWitnesses.

Import Similarity EfrateClient ClientScenario.
Local Open Scope string_scope.

Lemma complete_again_is_served_from_cache_witness :
  served_from_cache (Some "hi")
    (complete defined "  HELLO " tt provider_down
       (snd (fst (complete defined "hello" tt answered
                    (constructor (option string) defaults 0)))))
  <-> defined (Some "hi") = true.
Proof.
  refine (proj1 (@complete_again_is_served_from_cache
                   (option string) unit string defined
                   "hello" "  HELLO " tt tt answered provider_down
                   (constructor (option string) defaults 0) (Some "hi")
                   _ _ _ _ _)).
  - reflexivity.
  - vm_compute. reflexivity.
  - vm_compute. discriminate.
  - vm_compute. reflexivity.
  - vm_compute. reflexivity.
Defined.

End ClientWitnesses.
